(** * myst4tools: the Myst IV "big file" container codec (m4bf.py)

    A shallow embedding of [m4bf.py]: the length-prefixed string codec, the
    node tree, the recursive header codec ([read_entries], [write_entries],
    [size_header]), the enumeration [files], the packer [from_path], the
    opener [BigFile.__init__] and [extract].

    Conventions.
    - Python [int] is [Z]; a Python [str] is its list of code points ([N]);
      [bytes] is [list byte].
    - A raising call returns [Raise e], [e] named after the Python
      exception class.
    - A readable binary stream ([mmap] or file object) is the list of the
      bytes that are still ahead of its cursor. *)

From Stdlib Require Import String Ascii.
From Stdlib Require Import List ZArith NArith Lia Bool.
From Stdlib Require Import Permutation.
From Stdlib.Strings Require Byte.
Import ListNotations.

Local Open Scope Z_scope.

Definition byte := Byte.byte.

(** ** Python values *)

Definition bytes := list byte.
Definition str := list N.
Definition Path := list str.

(** A string literal of the source, as a Python [str]. *)
Definition lit (s : string) : str :=
  map N_of_ascii (list_ascii_of_string s).

Definition len {A} (l : list A) : Z := Z.of_nat (length l).

(** The parts of an f-string: literal text, [{path}], and the
    self-documenting fields [{x=}] with the value they display. *)
Inductive message_part :=
| Lit (text : string)
| FmtPath (p : Path)
| DbgStr (field : string) (value : str)
| DbgInt (field : string) (value : Z).

Definition message := list message_part.

Inductive exn :=
| StructError
| UnicodeEncodeError
| AttributeError
| StopIteration
| ZeroDivisionError
| OSError
| RecursionError
| ValueError (m : message).

Inductive result (A : Type) :=
| Ok (a : A)
| Raise (e : exn).
Arguments Ok {A} a.
Arguments Raise {A} e.

Definition bind {A B} (r : result A) (k : A -> result B) : result B :=
  match r with
  | Ok a => k a
  | Raise e => Raise e
  end.

Notation "x <- r ;; k" := (bind r (fun x => k))
  (at level 61, r at next level, right associativity).
Notation "' p <- r ;; k" := (bind r (fun x => let p := x in k))
  (at level 61, p pattern, r at next level, right associativity).

(** ** struct.pack / struct.unpack for the formats the source uses *)

Definition Z_of_byte (b : byte) : Z := Z.of_N (Byte.to_N b).

Definition byte_of_Z (z : Z) : byte :=
  match Byte.of_N (Z.to_N (z mod 256)) with
  | Some b => b
  | None => Byte.x00
  end.

(** [pack('<B', n)] *)
Definition pack_B (n : Z) : result bytes :=
  if (0 <=? n) && (n <=? 255) then Ok [byte_of_Z n] else Raise StructError.

(** [pack('<I', n)] *)
Definition pack_I (n : Z) : result bytes :=
  if (0 <=? n) && (n <? 4294967296)
  then Ok [byte_of_Z n; byte_of_Z (n / 256);
           byte_of_Z (n / 65536); byte_of_Z (n / 16777216)]
  else Raise StructError.

(** The [Ns] format: the argument truncated or null-padded to [n] bytes. *)
Definition pack_s (n : Z) (b : bytes) : bytes :=
  firstn (Z.to_nat n) b ++ repeat Byte.x00 (Z.to_nat n - length b).

(** [unpack('<B', b)] *)
Definition unpack_B (b : bytes) : result Z :=
  match b with
  | [b0] => Ok (Z_of_byte b0)
  | _ => Raise StructError
  end.

(** [unpack('<I', b)] *)
Definition unpack_I (b : bytes) : result Z :=
  match b with
  | [b0; b1; b2; b3] =>
      Ok (Z_of_byte b0 + 256 * Z_of_byte b1
          + 65536 * Z_of_byte b2 + 16777216 * Z_of_byte b3)
  | _ => Raise StructError
  end.

(** [unpack('<II', b)] *)
Definition unpack_II (b : bytes) : result (Z * Z) :=
  if (length b =? 8)%nat
  then x <- unpack_I (firstn 4 b) ;; y <- unpack_I (skipn 4 b) ;; Ok (x, y)
  else Raise StructError.

(** ** Streams *)

Definition stream := bytes.

(** [f.read(n)]: at most [n] bytes, fewer at the end of the stream. *)
Definition read (n : Z) (f : stream) : bytes * stream :=
  (firstn (Z.to_nat n) f, skipn (Z.to_nat n) f).

(** ** latin1 *)

Fixpoint encode_latin1 (s : str) : result bytes :=
  match s with
  | [] => Ok []
  | c :: s' =>
      match Byte.of_N c with
      | Some b => bs <- encode_latin1 s' ;; Ok (b :: bs)
      | None => Raise UnicodeEncodeError
      end
  end.

Definition decode_latin1 (b : bytes) : str := map Byte.to_N b.

(** [b.rstrip(b'\0')]: every trailing null byte is removed. *)
Fixpoint rstrip_null (b : bytes) : bytes :=
  match b with
  | [] => []
  | x :: b' =>
      match rstrip_null b' with
      | [] => if Byte.eqb x Byte.x00 then [] else [x]
      | r => x :: r
      end
  end.

(** ** The string codec *)

(** unpacks a length-prefixed null-terminated string *)
Definition str_unpack (f : stream) : result (str * stream) :=
  let '(b4, f) := read 4 f in
  len_str <- unpack_I b4 ;;
  let '(b, f) := read len_str f in
  Ok (decode_latin1 (rstrip_null b), f).

(** packs a length-prefixed null-terminated string *)
Definition str_pack (s : str) : result bytes :=
  let len_str := len s + (match s with [] => 0 | _ => 1 end) in
  enc <- encode_latin1 s ;;
  hd <- pack_I len_str ;;
  Ok (hd ++ pack_s len_str enc).

(** ** The node model *)

#[local] Set Warnings "-register-all".

Inductive Node :=
| FileNode (name : str) (size offset : Z)
| DirNode (name : str) (children : list Node).

Definition name (n : Node) : str :=
  match n with
  | FileNode name _ _ => name
  | DirNode name _ => name
  end.

Definition children (n : Node) : list Node :=
  match n with
  | FileNode _ _ _ => []
  | DirNode _ children => children
  end.

Definition is_DirNode (n : Node) : bool :=
  match n with DirNode _ _ => true | FileNode _ _ _ => false end.

Definition is_FileNode (n : Node) : bool :=
  match n with FileNode _ _ _ => true | DirNode _ _ => false end.

(** [self.children.append(node)] *)
Definition add (children : list Node) (node : Node) : list Node :=
  children ++ [node].

(** [sum(... for c in self.children)] over booleans. *)
Definition py_sum (l : list bool) : Z :=
  fold_left (fun acc b => acc + Z.b2z b) l 0.

Definition num_subdirs (self : Node) : Z :=
  py_sum (map is_DirNode (children self)).

Definition num_files (self : Node) : Z :=
  py_sum (map is_FileNode (children self)).

(** [for c in cs: s = body(c, s)], leaving at the first raise. *)
Section ForEach.
Context {A S : Type} (body : A -> S -> result S).

Fixpoint for_each (cs : list A) (s : S) : result S :=
  match cs with
  | [] => Ok s
  | c :: cs' => s' <- body c s ;; for_each cs' s'
  end.
End ForEach.

(** ** Size prediction *)

Fixpoint size_header (self : Node) (size : Z) : result Z :=
  match self with
  | FileNode _ _ _ => Raise AttributeError
  | DirNode name children =>
      p <- str_pack name ;;
      let size := size + len p + 1 in
      size <- for_each (fun d size =>
                if is_DirNode d then size_header d size else Ok size)
              children size ;;
      let size := size + 4 in
      for_each (fun f size =>
                  match f with
                  | FileNode name _ _ =>
                      p <- str_pack name ;; Ok (size + len p + 4 + 4)
                  | DirNode _ _ => Ok size
                  end)
               children size
  end.

(** The default argument of [size_header]. *)
Definition size_header_default : Z := 19.

(** ** Encoding: [f] is the content written to the output file so far

    [write_entries] recurses on the tree; the interpreter's limit on the
    depth of recursion is not part of it. *)

Definition write (f : bytes) (b : bytes) : bytes := f ++ b.

Fixpoint write_entries (self : Node) (f : bytes) : result bytes :=
  match self with
  | FileNode _ _ _ => Raise AttributeError
  | DirNode _ children =>
      b <- pack_B (num_subdirs self) ;;
      let f := write f b in
      f <- for_each (fun child f =>
             match child with
             | DirNode name _ =>
                 b <- str_pack name ;;
                 write_entries child (write f b)
             | FileNode _ _ _ => Ok f
             end) children f ;;
      b <- pack_I (num_files self) ;;
      let f := write f b in
      for_each (fun child f =>
                  match child with
                  | FileNode name size offset =>
                      b <- str_pack name ;;
                      let f := write f b in
                      b <- pack_I size ;;
                      let f := write f b in
                      b <- pack_I offset ;;
                      Ok (write f b)
                  | DirNode _ _ => Ok f
                  end) children f
  end.

(** ** Decoding

    [read_entries] appends to [self.children] in place, so an exception
    leaves the children appended before it: [Raised e children] carries
    them.  The recursion follows the stream, not a data structure, and is
    driven by fuel, one unit for each level of nesting, as the
    interpreter counts the depth of its recursion; [read_entries]
    supplies more than the stream can use up, and so stands for an
    interpreter whose limit is out of reach. *)

Inductive outcome :=
| Done (children : list Node) (f : stream)
| Raised (e : exn) (children : list Node)
| OutOfFuel.

Section ReadDirs.
(** [dnode.read_entries(f)] on the fresh [dnode]. *)
Variable read_child : list Node -> stream -> outcome.

Fixpoint read_dirs (n : nat) (children : list Node) (f : stream)
  : outcome :=
  match n with
  | O => Done children f
  | S n' =>
      match str_unpack f with
      | Raise e => Raised e children
      | Ok (name, f) =>
          match read_child [] f with
          | Done dchildren f =>
              read_dirs n' (add children (DirNode name dchildren)) f
          | Raised e _ => Raised e children
          | OutOfFuel => OutOfFuel
          end
      end
  end.
End ReadDirs.

Fixpoint read_files (n : nat) (children : list Node) (f : stream)
  : outcome :=
  match n with
  | O => Done children f
  | S n' =>
      match str_unpack f with
      | Raise e => Raised e children
      | Ok (name, f) =>
          let '(b8, f) := read 8 f in
          match unpack_II b8 with
          | Raise e => Raised e children
          | Ok (size, offset) =>
              read_files n' (add children (FileNode name size offset)) f
          end
      end
  end.

Fixpoint read_entries_fuel (fuel : nat) (children : list Node) (f : stream)
  : outcome :=
  match fuel with
  | O => OutOfFuel
  | S fuel' =>
      let '(b1, f) := read 1 f in
      match unpack_B b1 with
      | Raise e => Raised e children
      | Ok num_dirs =>
          match read_dirs (read_entries_fuel fuel') (Z.to_nat num_dirs)
                  children f with
          | Done children f =>
              let '(b4, f) := read 4 f in
              match unpack_I b4 with
              | Raise e => Raised e children
              | Ok num_files => read_files (Z.to_nat num_files) children f
              end
          | o => o
          end
      end
  end.

Definition read_entries (children : list Node) (f : stream) : outcome :=
  read_entries_fuel (S (length f)) children f.

(** ** Enumeration of the file leaves *)

(** [path.joinpath(name)] for a [name] that is one component of a path:
    not empty, neither [.] nor [..], without a separator.  Other names,
    which [pathlib] splits, drops or takes as a new root, are outside this
    definition; [plain_names] below says that a tree has none. *)
Definition joinpath (path : Path) (name : str) : Path := path ++ [name].

Definition entry : Type := Node * Path * Z * Z.

Fixpoint files (self : Node) (path : Path) : list entry :=
  match self with
  | FileNode _ _ _ => []
  | DirNode _ children =>
      flat_map (fun child =>
                  match child with
                  | FileNode name size offset =>
                      [(child, joinpath path name, size, offset)]
                  | DirNode name _ => files child (joinpath path name)
                  end) children
  end.

(** [self.files()]: [path or Path(self.name)], the root being nameless. *)
Definition files_default (self : Node) : list entry :=
  files self (match name self with [] => [] | n => [n] end).

(** ** Packing: [BigFile.from_path] *)

(** [sorted(l)]: a stable sort, here by insertion from the right. *)
Section Sorted.
Context {A : Type} (leb : A -> A -> bool).

Fixpoint insert_sorted (x : A) (l : list A) : list A :=
  match l with
  | [] => [x]
  | y :: l' => if leb x y then x :: l else y :: insert_sorted x l'
  end.

Definition sorted (l : list A) : list A := fold_right insert_sorted [] l.
End Sorted.

(** [a <= b] on [str]: lexicographic by code point. *)
Fixpoint str_leb (a b : str) : bool :=
  match a, b with
  | [], _ => true
  | _ :: _, [] => false
  | x :: a', y :: b' =>
      if (x <? y)%N then true
      else if (y <? x)%N then false
      else str_leb a' b'
  end.

(** [a == b] on [str]. *)
Fixpoint str_eqb (a b : str) : bool :=
  match a, b with
  | [], [] => true
  | x :: a', y :: b' => (x =? y)%N && str_eqb a' b'
  | _, _ => false
  end.

(** The directory being packed, as the file system presents it: entries
    in the order [scandir] lists them. Paths are relative to it. *)
Inductive FsNode :=
| FsFile (name : str) (data : bytes)
| FsDir (name : str) (entries : list FsNode).

Definition fs_name (e : FsNode) : str :=
  match e with
  | FsFile name _ => name
  | FsDir name _ => name
  end.

Definition is_FsDir (e : FsNode) : bool :=
  match e with FsDir _ _ => true | FsFile _ _ => false end.

Fixpoint fs_resolve (d : FsNode) (parts : Path) : result FsNode :=
  match parts with
  | [] => Ok d
  | p :: parts' =>
      match d with
      | FsFile _ _ => Raise OSError
      | FsDir _ entries =>
          match find (fun e => str_eqb (fs_name e) p) entries with
          | Some e => fs_resolve e parts'
          | None => Raise OSError
          end
      end
  end.

(** [name.read_bytes()] *)
Definition read_bytes (fs : FsNode) (name : Path) : result bytes :=
  e <- fs_resolve fs name ;;
  match e with
  | FsFile _ data => Ok data
  | FsDir _ _ => Raise OSError
  end.

(** [name.stat().st_size] of a regular file. *)
Definition st_size (fs : FsNode) (name : Path) : result Z :=
  data <- read_bytes fs name ;; Ok (len data).

(** [path.walk()], top-down: a directory, then its subdirectories in
    listing order, each with its whole subtree. *)
Fixpoint walk (root : Path) (d : FsNode)
  : list (Path * list str * list str) :=
  match d with
  | FsFile _ _ => []
  | FsDir _ entries =>
      (root,
       map fs_name (filter is_FsDir entries),
       map fs_name (filter (fun e => negb (is_FsDir e)) entries))
      :: flat_map (fun e => walk (joinpath root (fs_name e)) e) entries
  end.

(** [self.name == path_parts] compares a [str] with a tuple and is never
    true; [next(...)] raises [StopIteration] when no child matches. *)
Fixpoint find_node (self : Node) (path_parts : Path) : result Node :=
  match path_parts with
  | [] => Ok self
  | p :: path_parts' =>
      match find (fun child => is_DirNode child && str_eqb (name child) p)
              (children self) with
      | Some child => find_node child path_parts'
      | None => Raise StopIteration
      end
  end.

(** The tree after [self.find_node(path_parts).add(n)] for each [n] of
    [nodes]: [find_node] returns a reference into the tree, so the
    children are appended where the node sits. *)
Fixpoint add_at (self : Node) (path_parts : Path) (nodes : list Node)
  : result Node :=
  match path_parts with
  | [] =>
      match self with
      | DirNode name children => Ok (DirNode name (children ++ nodes))
      | FileNode _ _ _ => Raise AttributeError
      end
  | p :: path_parts' =>
      match self with
      | FileNode _ _ _ => Raise StopIteration
      | DirNode dname children =>
          cs <- (fix first_match (cs : list Node) : result (list Node) :=
                   match cs with
                   | [] => Raise StopIteration
                   | child :: cs' =>
                       if is_DirNode child && str_eqb (name child) p
                       then child' <- add_at child path_parts' nodes ;;
                            Ok (child' :: cs')
                       else cs'' <- first_match cs' ;; Ok (child :: cs'')
                   end) children ;;
          Ok (DirNode dname cs)
      end
  end.

(** [for node, name, size, _ in self.files(path): node.offset = offset;
    offset += node.size]: the traversal of [files] with the loop body
    applied at each leaf it yields. *)
Section MapAccum.
Context {A S : Type} (step : A -> S -> A * S).

Fixpoint map_accum (l : list A) (s : S) : list A * S :=
  match l with
  | [] => ([], s)
  | x :: l' =>
      let '(x', s) := step x s in
      let '(l'', s) := map_accum l' s in
      (x' :: l'', s)
  end.
End MapAccum.

Fixpoint assign_offsets (self : Node) (offset : Z) : Node * Z :=
  match self with
  | FileNode name size _ => (FileNode name size offset, offset + size)
  | DirNode name children =>
      let '(children, offset) := map_accum assign_offsets children offset in
      (DirNode name children, offset)
  end.

Definition magic_sig : str := lit "UBI_BF_SIG".

(** [BigFile(path)] for a directory: [self] is the nameless root, [fs] the
    directory at [path]; returns the tree and the bytes of the new file. *)
Definition from_path (fs : FsNode) : result (Node * bytes) :=
  let self := DirNode [] [] in
  self <- for_each (fun '(root, dirnames, filenames) self =>
            _ <- find_node self root ;;
            file_nodes <- for_each (fun fname acc =>
                            size <- st_size fs (joinpath root fname) ;;
                            Ok (add acc (FileNode fname size 0)))
                          (sorted str_leb filenames) [] ;;
            let dir_nodes :=
              map (fun dname => DirNode dname []) (sorted str_leb dirnames) in
            add_at self root (file_nodes ++ dir_nodes))
          (walk [] fs) self ;;
  offset <- size_header self size_header_default ;;
  let self := fst (assign_offsets self offset) in
  b <- str_pack magic_sig ;;
  let f := write [] b in
  b <- pack_I 1 ;;
  let f := write f b in
  b <- str_pack [] ;;
  let f := write f b in
  f <- write_entries self f ;;
  f <- for_each (fun '(_, name, _, _) f =>
         b <- read_bytes fs name ;; Ok (write f b))
       (files self []) f ;;
  Ok (self, f).

(** ** Opening: [BigFile(path)] for a file *)

Record BigFile := {
  root : Node;
  buffer : bytes;
  num_entries : Z
}.

Definition nl : string := String "010"%char EmptyString.

(** The f-string of the [ValueError]. *)
Definition not_big_file (path : Path) (magic : str) (version : Z)
    (name_root : str) : message :=
  [FmtPath path; Lit (" is not a Myst IV big file." ++ nl)%string;
   DbgStr "magic" magic; Lit nl;
   DbgInt "version" version; Lit nl;
   DbgStr "name_root" name_root].

(** [mmap.mmap(fd, 0, access=ACCESS_READ)] refuses an empty file. *)
Definition mmap (content : bytes) : result bytes :=
  match content with
  | [] => Raise (ValueError [Lit "cannot mmap an empty file"])
  | _ => Ok content
  end.

Definition BigFile_open (path : Path) (content : bytes) : result BigFile :=
  buffer <- mmap content ;;
  '(magic, f) <- str_unpack buffer ;;
  let '(b4, f) := read 4 f in
  version <- unpack_I b4 ;;
  '(name_root, f) <- str_unpack f ;;
  if negb (str_eqb magic magic_sig) || negb (version =? 1)
     || negb (str_eqb name_root [])
  then Raise (ValueError (not_big_file path magic version name_root))
  else
    match read_entries [] f with
    | Done children _ =>
        let self := DirNode name_root children in
        Ok {| root := self; buffer := buffer;
              num_entries := len (files_default self) |}
    | Raised e _ => Raise e
    | OutOfFuel => Raise RecursionError
    end.

(** ** Extraction *)

(** [b[start:stop]] on a sequence: indices below zero count from the end,
    and both are clamped to the sequence. *)
Definition py_slice (b : bytes) (start stop : Z) : bytes :=
  let adjust i := if i <? 0 then Z.max 0 (i + len b) else Z.min i (len b) in
  let start := adjust start in
  let stop := adjust stop in
  firstn (Z.to_nat (stop - start)) (skipn (Z.to_nat start) b).

(** The files written so far, oldest first. *)
Definition written := list (Path * bytes).

Definition write_bytes (out : written) (name : Path) (data : bytes)
  : written := out ++ [(name, data)].

(** [extract(path)] with [extract_nested] left at [False]; the parent
    directories that [mkdir] creates are implicit in the written paths,
    and the progress line only matters through its division. *)
Definition extract (self : BigFile) (path : Path) (out : written)
  : result (written * bool) :=
  out <- for_each (fun '(_, name, length, offset) out =>
           let out :=
             write_bytes out name
               (py_slice (buffer self) offset (offset + length)) in
           if num_entries self =? 0 then Raise ZeroDivisionError
           else Ok out)
         (files (root self) path) out ;;
  Ok (out, true).

(** The entries of a directory after the entry named [q] has been worked
    on by [k]; when there is none, [fresh] is, and it is listed last. *)
Section PutEntry.
Context (q : str) (k : FsNode -> result FsNode) (fresh : FsNode).

Fixpoint put_entry (es : list FsNode) : result (list FsNode) :=
  match es with
  | [] => e <- k fresh ;; Ok [e]
  | e :: es' =>
      if str_eqb (fs_name e) q
      then e' <- k e ;; Ok (e' :: es')
      else es'' <- put_entry es' ;; Ok (e :: es'')
  end.
End PutEntry.

(** [name.parent.mkdir(parents=True, exist_ok=True)] and
    [name.write_bytes(data)], for the [name] at [p] below the directory
    [d]: the directories on the way are made when they are missing, a file
    on the way and a directory at the end are errors, a file at the end is
    overwritten. *)
Fixpoint fs_write (d : FsNode) (p : Path) (data : bytes) {struct p}
  : result FsNode :=
  match p with
  | [] =>
      match d with
      | FsFile n _ => Ok (FsFile n data)
      | FsDir _ _ => Raise OSError
      end
  | q :: rest =>
      match d with
      | FsFile _ _ => Raise OSError
      | FsDir n entries =>
          let fresh :=
            match rest with [] => FsFile q [] | _ :: _ => FsDir q [] end in
          entries <- put_entry q (fun e => fs_write e rest data) fresh
                       entries ;;
          Ok (FsDir n entries)
      end
  end.

(** [p] without the [target] it begins with. *)
Fixpoint strip_prefix (target p : Path) : option Path :=
  match target, p with
  | [], _ => Some p
  | t :: target', x :: p' =>
      if str_eqb t x then strip_prefix target' p' else None
  | _ :: _, [] => None
  end.

(** The directory at [target] after one file has been written: a file
    written elsewhere leaves it as it is. *)
Definition write_below (target : Path) (w : Path * bytes) (d : FsNode)
  : result FsNode :=
  match strip_prefix target (fst w) with
  | Some rel => fs_write d rel (snd w)
  | None => Ok d
  end.

(** [extract(path)] with [extract_nested] left at [False], on the file
    system: [disk] is the directory at [path]; each entry has its parent
    directories made and its file written, which the file system may
    refuse, before the progress line and its division. *)
Definition extract_disk (self : BigFile) (path : Path) (disk : FsNode)
  : result (FsNode * bool) :=
  disk <- for_each (fun '(_, name, length, offset) disk =>
            disk <- write_below path
                      (name, py_slice (buffer self) offset (offset + length))
                      disk ;;
            if num_entries self =? 0 then Raise ZeroDivisionError
            else Ok disk)
          (files (root self) path) disk ;;
  Ok (disk, true).

(** * Vocabulary of the statements *)

(** ** Induction on trees *)

Section NodeInduction.
Variable P : Node -> Prop.
Hypothesis P_file : forall name size offset, P (FileNode name size offset).
Hypothesis P_dir :
  forall name children, Forall P children -> P (DirNode name children).

Fixpoint Node_ind_Forall (t : Node) : P t :=
  match t with
  | FileNode name size offset => P_file name size offset
  | DirNode name children =>
      P_dir name children
        ((fix all (cs : list Node) : Forall P cs :=
            match cs with
            | [] => Forall_nil P
            | c :: cs' => Forall_cons c (Node_ind_Forall c) (all cs')
            end) children)
  end.
End NodeInduction.

(** The concatenation of what [g] gives for each element, up to the
    first raise. *)
Section ConcatResults.
Context {A : Type} (g : A -> result bytes).

Fixpoint concat_results (l : list A) : result bytes :=
match l with
| [] => Ok []
| x :: l' => b <- g x ;; bs <- concat_results l' ;; Ok (b ++ bs)
end.
End ConcatResults.

(** A byte string, or a [str], that does not end in a null. *)
Definition no_trailing_null (b : bytes) : Prop := last b Byte.x01 <> Byte.x00.
Definition no_trailing_nul (s : str) : Prop := last s 1%N <> 0%N.

(** The bytes that the two loops of [write_entries] append per child. *)
Definition dir_bytes (child : Node) : result bytes :=
  match child with
  | DirNode name _ =>
      b <- str_pack name ;; e <- write_entries child [] ;; Ok (b ++ e)
  | FileNode _ _ _ => Ok []
  end.

Definition file_bytes (child : Node) : result bytes :=
  match child with
  | FileNode name size offset =>
      b1 <- str_pack name ;; b2 <- pack_I size ;; b3 <- pack_I offset ;;
      Ok (b1 ++ b2 ++ b3)
  | DirNode _ _ => Ok []
  end.

(** [write_entries] only appends: its effect on any file is its effect
    on an empty one, after what was there. *)
Definition appends (t : Node) : Prop :=
  forall f, write_entries t f = (b <- write_entries t [] ;; Ok (f ++ b)).

(** The three writes that precede the header in [from_path]. *)
Definition preamble : result bytes :=
  b1 <- str_pack magic_sig ;;
  b2 <- pack_I 1 ;;
  b3 <- str_pack [] ;;
  Ok (write (write (write [] b1) b2) b3).

(** A tree with the values of its leaves forgotten: what is left is its
    shape and its names. *)
Fixpoint strip (t : Node) : Node :=
  match t with
  | FileNode name _ _ => FileNode name 0 0
  | DirNode name children => DirNode name (map strip children)
  end.

Definition size_dirs_body (d : Node) (size : Z) : result Z :=
  if is_DirNode d then size_header d size else Ok size.

Definition size_files_body (f : Node) (size : Z) : result Z :=
  match f with
  | FileNode name _ _ => p <- str_pack name ;; Ok (size + len p + 4 + 4)
  | DirNode _ _ => Ok size
  end.

Definition sized (t : Node) : Prop :=
  forall p bs size,
    str_pack (name t) = Ok p -> write_entries t [] = Ok bs ->
    size_header t size = Ok (size + len p + len bs).

(** A directory's children as the disk form lists them: subdirectories,
    each in the same form, then files. *)
Definition canon_dirs (canon : Node -> Node) (cs : list Node) : list Node :=
  flat_map (fun c => match c with
                     | DirNode _ _ => [canon c]
                     | FileNode _ _ _ => []
                     end) cs.

Fixpoint canon (t : Node) : Node :=
  match t with
  | FileNode _ _ _ => t
  | DirNode name children =>
      DirNode name (canon_dirs canon children ++ filter is_FileNode children)
  end.

(** No name below [t] ends in a null character. *)
Definition names_ok_list (names_ok : Node -> Prop) (cs : list Node) : Prop :=
  fold_right (fun c rest => no_trailing_nul (name c) /\ names_ok c /\ rest)
    True cs.

Fixpoint names_ok (t : Node) : Prop :=
  match t with
  | FileNode _ _ _ => True
  | DirNode _ children => names_ok_list names_ok children
  end.

Definition decodes (t : Node) : Prop :=
  forall bs,
    write_entries t [] = Ok bs -> names_ok t ->
    forall fuel acc rest,
      (length (bs ++ rest) < fuel)%nat ->
      read_entries_fuel fuel acc (bs ++ rest)
      = Done (acc ++ children (canon t)) rest.

(** Every directory of [t], [t] included, has at most 255 subdirectories. *)
Fixpoint subdirs_bounded (t : Node) : Prop :=
  match t with
  | FileNode _ _ _ => True
  | DirNode _ children =>
      len (filter is_DirNode children) <= 255 /\
      fold_right (fun c rest => subdirs_bounded c /\ rest) True children
  end.

Fixpoint all_names (t : Node) : list str :=
  match t with
  | FileNode name _ _ => [name]
  | DirNode name children => name :: flat_map all_names children
  end.

(** A name that [str_pack] accepts. *)
Definition packable (s : str) : Prop :=
  Forall (fun c => (c < 256)%N) s /\ len s < 4294967295.

Definition files_step (path : Path) (child : Node) : list entry :=
  match child with
  | FileNode name size offset => [(child, joinpath path name, size, offset)]
  | DirNode name _ => files child (joinpath path name)
  end.

(** Every directory of [t] holds its subdirectories before its files. *)
Fixpoint dirs_first (t : Node) : Prop :=
  match t with
  | FileNode _ _ _ => True
  | DirNode _ children =>
      children = filter is_DirNode children ++ filter is_FileNode children /\
      fold_right (fun c rest => dirs_first c /\ rest) True children
  end.

(** A directory with a file and a subdirectory that holds a file. *)
Definition src_example : FsNode :=
  FsDir [] [FsFile (lit "a") [Byte.x01; Byte.x02];
            FsDir (lit "d") [FsFile (lit "b") [Byte.x07]]].

Definition listing (l : list entry) : list (Path * Z * Z) :=
  map (fun '(_, name, size, offset) => (name, size, offset)) l.

Definition entry_size (e : entry) : Z := snd (fst e).
Definition entry_offset (e : entry) : Z := snd e.

(** The first entry starts at [start] and each next one where the one
    before it ends. *)
Fixpoint contiguous (start : Z) (l : list entry) : Prop :=
  match l with
  | [] => True
  | e :: l' =>
      entry_offset e = start /\ contiguous (start + entry_size e) l'
  end.

Fixpoint total_size (l : list entry) : Z :=
  match l with
  | [] => 0
  | e :: l' => entry_size e + total_size l'
  end.

(** The key of [sorted(bf.files(), key=lambda t: t[3])]. *)
Definition by_offset (e1 e2 : entry) : bool :=
  entry_offset e1 <=? entry_offset e2.

Definition assigned (t : Node) : Prop :=
  is_DirNode t = true ->
  forall offset path,
    contiguous offset (files (fst (assign_offsets t offset)) path) /\
    snd (assign_offsets t offset)
    = offset + total_size (files (fst (assign_offsets t offset)) path).

(** The values of every leaf fit the 4-byte fields they came from. *)
Fixpoint leaves_in_range (t : Node) : Prop :=
  match t with
  | FileNode _ size offset =>
      0 <= size < 4294967296 /\ 0 <= offset < 4294967296
  | DirNode _ children =>
      fold_right (fun c rest => leaves_in_range c /\ rest) True children
  end.

(** What an outcome on the stream [f] may be: decoded children on top of
    those already there, with leaves in range if those were, and a stream
    no longer than before; or [struct.error], with some children on top of
    those already there; fuel runs out only when there was no more of it
    than [bound]. *)
Definition outcome_ok (bound : nat) (acc : list Node) (f : stream)
    (o : outcome) : Prop :=
  match o with
  | Done cs f' =>
      (Forall leaves_in_range acc -> Forall leaves_in_range cs) /\
      (length f' <= length f)%nat /\
      exists more, cs = acc ++ more
  | Raised e part => e = StructError /\ exists a, part = acc ++ a
  | OutOfFuel => (bound <= length f)%nat
  end.

(** A file with the given preamble fields, followed by [rest]. *)
Definition example_archive (magic : str) (version : Z) (name_root : str)
    (rest : bytes) : result bytes :=
  b1 <- str_pack magic ;;
  b2 <- pack_I version ;;
  b3 <- str_pack name_root ;;
  Ok (b1 ++ b2 ++ b3 ++ rest).

Definition entry_path (e : entry) : Path := snd (fst (fst e)).

(** What [extract] writes for an entry: its path and the slice of the
    mapped file that Python cuts for it. *)
Definition extracted (content : bytes) (e : entry) : Path * bytes :=
  (entry_path e,
   py_slice content (entry_offset e) (entry_offset e + entry_size e)).


(** [p] is [k] with a non-empty end missing. *)
Definition cut (p k : bytes) : Prop := exists q, q <> [] /\ k = p ++ q.

(** Children that came on top of [acc] and went on to become [cs]. *)
Definition extends (acc part cs : list Node) : Prop :=
  (exists a, part = acc ++ a) /\ (exists m, cs = part ++ m).

(** A decoder that, where it succeeds, took a stretch [k] of the stream
    that decides its result, and that raises [struct.error] on any cut of
    [k], leaving children it had completed. *)
Definition cut_ok (D : list Node -> stream -> outcome) : Prop :=
  forall acc f cs f',
    D acc f = Done cs f' ->
    exists k,
      f = k ++ f' /\
      (exists more, cs = acc ++ more) /\
      (forall rest, D acc (k ++ rest) = Done cs rest) /\
      (forall p, cut p k ->
                 exists part,
                   D acc p = Raised StructError part /\
                   extends acc part cs).

Definition empty_fails (D : list Node -> stream -> outcome) : Prop :=
  forall acc f cs f',
    D acc f = Done cs f' ->
    forall acc2, D acc2 [] = Raised StructError acc2.

(** ** Vocabulary of the further properties *)

(** A name as [str_unpack] returns them: single-byte characters, the last
    one not a null. *)
Definition name_decoded (n : str) : Prop :=
  no_trailing_nul n /\ Forall (fun c => (c < 256)%N) n.

(** The length of a packed name. *)
Definition packed_len (n : str) : Z :=
  4 + len n + match n with [] => 0 | _ => 1 end.

(** The directories of a tree, itself included, and its files. *)
Fixpoint count_dirs (t : Node) : Z :=
  match t with
  | FileNode _ _ _ => 0
  | DirNode _ children =>
      1 + fold_right (fun c acc => count_dirs c + acc) 0 children
  end.

Fixpoint count_files (t : Node) : Z :=
  match t with
  | FileNode _ _ _ => 1
  | DirNode _ children =>
      fold_right (fun c acc => count_files c + acc) 0 children
  end.

Definition names_size (names : list str) : Z :=
  fold_right (fun n acc => packed_len n + acc) 0 names.

(** An entry seen from a directory further up. *)
Definition rebase (path : Path) (e : entry) : entry :=
  let '(node, p, size, offset) := e in (node, path ++ p, size, offset).

Definition closed_form (t : Node) : Prop :=
  is_DirNode t = true -> Forall packable (all_names t) ->
  forall size,
    size_header t size
    = Ok (size + 5 * count_dirs t + 8 * count_files t
          + names_size (all_names t)).

(** A child that [write_entries] can write: a name that can be packed,
    values that fit 4 bytes, counts that fit their fields, all the way
    down. *)
Fixpoint encodable (t : Node) : Prop :=
  match t with
  | FileNode name size offset =>
      packable name /\
      0 <= size < 4294967296 /\ 0 <= offset < 4294967296
  | DirNode name children =>
      packable name /\
      len (filter is_DirNode children) <= 255 /\
      len (filter is_FileNode children) < 4294967296 /\
      fold_right (fun c rest => encodable c /\ rest) True children
  end.

(** A child as [read_entries] makes them from a stream of at most [B]
    bytes: a decoded name no longer than [B], values and counts in the
    range of their fields, subdirectories before files, all the way
    down. *)
Fixpoint decoded (B : Z) (t : Node) : Prop :=
  match t with
  | FileNode name size offset =>
      name_decoded name /\ len name <= B /\
      0 <= size < 4294967296 /\ 0 <= offset < 4294967296
  | DirNode name children =>
      name_decoded name /\ len name <= B /\
      children
      = filter is_DirNode children ++ filter is_FileNode children /\
      len (filter is_DirNode children) <= 255 /\
      len (filter is_FileNode children) < 4294967296 /\
      fold_right (fun c rest => decoded B c /\ rest) True children
  end.

Definition decoded_children (B : Z) (cs : list Node) : Prop :=
  cs = filter is_DirNode cs ++ filter is_FileNode cs /\
  len (filter is_DirNode cs) <= 255 /\
  len (filter is_FileNode cs) < 4294967296 /\
  Forall (decoded B) cs.

(** What a decoder appended to [acc] on a stream of at most [B] bytes:
    [n] decoded children of one kind. *)
Definition appended (B : Z) (kind : Node -> bool) (n : nat)
    (acc cs : list Node) : Prop :=
  exists l,
    cs = acc ++ l /\ length l = n /\
    Forall (fun c => kind c = true /\ decoded B c) l.

Definition decodes_within (B : Z) (D : list Node -> stream -> outcome)
  : Prop :=
  forall f cs f',
    D [] f = Done cs f' -> len f <= B ->
    decoded_children B cs /\ (length f' <= length f)%nat.

(** The condition under which [write_entries] writes a directory. *)
Definition writable (t : Node) : Prop :=
  (exists out, write_entries t [] = Ok out) <->
  len (filter is_DirNode (children t)) <= 255 /\
  len (filter is_FileNode (children t)) < 4294967296 /\
  Forall encodable (children t).

(** The test of [find_node] on a child, for the path component [p]. *)
Definition matches (p : str) (child : Node) : bool :=
  is_DirNode child && str_eqb (name child) p.

(** [cs] with its first element that passes [test] replaced by [x]. *)
Fixpoint replace_first (test : Node -> bool) (x : Node) (cs : list Node)
  : list Node :=
  match cs with
  | [] => []
  | c :: cs' => if test c then x :: cs' else c :: replace_first test x cs'
  end.

(** What [find_node] and an insertion through it do on the same path. *)
Definition found_and_added (path_parts : Path) : Prop :=
  forall self nodes,
    is_DirNode self = true ->
    match find_node self path_parts with
    | Ok node =>
        is_DirNode node = true /\
        exists self',
          add_at self path_parts nodes = Ok self' /\
          find_node self' path_parts
          = Ok (DirNode (name node) (children node ++ nodes))
    | Raise e =>
        e = StopIteration /\
        add_at self path_parts nodes = Raise StopIteration
    end.

(** An entry whose size is the length of the file of [fs] at its path. *)
Definition sized_as (fs : FsNode) (e : entry) : Prop :=
  st_size fs (entry_path e) = Ok (entry_size e).

(** An entry whose bytes in [archive], from its offset on and as many as
    its size, are the content of the file of [fs] at its path. *)
Definition stored_in (fs : FsNode) (archive : bytes) (e : entry) : Prop :=
  exists data,
    read_bytes fs (entry_path e) = Ok data /\
    py_slice archive (entry_offset e) (entry_offset e + entry_size e) = data.

(** The body of the loop of [from_path] over [path.walk()]. *)
Definition walk_step (fs : FsNode) (step : Path * list str * list str)
    (self : Node) : result Node :=
  let '(root, dirnames, filenames) := step in
  _ <- find_node self root ;;
  file_nodes <- for_each (fun fname acc =>
                  size <- st_size fs (joinpath root fname) ;;
                  Ok (add acc (FileNode fname size 0)))
                (sorted str_leb filenames) [] ;;
  let dir_nodes :=
    map (fun dname => DirNode dname []) (sorted str_leb dirnames) in
  add_at self root (file_nodes ++ dir_nodes).

(** What [extract] writes for an entry that lies within the mapped file. *)
Definition extracted_whole (content : bytes) (e : entry) : Path * bytes :=
  (entry_path e,
   firstn (Z.to_nat (entry_size e))
     (skipn (Z.to_nat (entry_offset e)) content)).

(** The path and the size of an entry. *)
Definition entry_ps (e : entry) : Path * Z := (entry_path e, entry_size e).

(** A written file that holds what the file of [fs] holds at the same
    path below [target]. *)
Definition restored (fs : FsNode) (target : Path) (w : Path * bytes)
  : Prop :=
  exists rel, fst w = target ++ rel /\ read_bytes fs rel = Ok (snd w).

(** ** The tree that [from_path] builds *)

Section FsInduction.
Variable P : FsNode -> Prop.
Hypothesis P_file : forall name data, P (FsFile name data).
Hypothesis P_dir :
  forall name entries, Forall P entries -> P (FsDir name entries).

Fixpoint FsNode_ind_Forall (d : FsNode) : P d :=
  match d with
  | FsFile name data => P_file name data
  | FsDir name entries =>
      P_dir name entries
        ((fix all (es : list FsNode) : Forall P es :=
            match es with
            | [] => Forall_nil P
            | e :: es' => Forall_cons e (FsNode_ind_Forall e) (all es')
            end) entries)
  end.
End FsInduction.

Definition fs_name_leb (a b : FsNode) : bool :=
  str_leb (fs_name a) (fs_name b).

Definition node_name_leb (a b : Node) : bool := str_leb (name a) (name b).

(** Children in the order [from_path] adds them: the files by name, then
    the directories by name. *)
Definition arrange (nodes : list Node) : list Node :=
  sorted node_name_leb (filter is_FileNode nodes)
  ++ sorted node_name_leb (filter is_DirNode nodes).

(** The tree of a directory: a file node per file, with the length of the
    file and offset 0, a directory node per directory. *)
Fixpoint mirror (e : FsNode) : Node :=
  match e with
  | FsFile name data => FileNode name (len data) 0
  | FsDir name entries => DirNode name (arrange (map mirror entries))
  end.

(** No two entries of a directory have the same name, at any depth. *)
Fixpoint fs_wf (e : FsNode) : Prop :=
  match e with
  | FsFile _ _ => True
  | FsDir _ entries =>
      NoDup (map fs_name entries) /\
      fold_right (fun c rest => fs_wf c /\ rest) True entries
  end.

(** [walk_step] for a walk whose paths are relative to [base]. *)
Definition walk_step_rel (fs : FsNode) (base : Path)
    (step : Path * list str * list str) (self : Node) : result Node :=
  let '(root, dirnames, filenames) := step in
  _ <- find_node self root ;;
  file_nodes <- for_each (fun fname acc =>
                  size <- st_size fs (joinpath (base ++ root) fname) ;;
                  Ok (add acc (FileNode fname size 0)))
                (sorted str_leb filenames) [] ;;
  let dir_nodes :=
    map (fun dname => DirNode dname []) (sorted str_leb dirnames) in
  add_at self root (file_nodes ++ dir_nodes).

Definition shift (p : str) (step : Path * list str * list str)
  : Path * list str * list str :=
  let '(root, dirnames, filenames) := step in (p :: root, dirnames, filenames).

(** The node of a subdirectory while the walk goes on: still empty, or its
    tree once the walk has been through it. *)
Definition node_of (done : list FsNode) (e : FsNode) : Node :=
  if existsb (fun y => str_eqb (fs_name y) (fs_name e)) done
  then mirror e
  else DirNode (fs_name e) [].

(** The walk of [d], relative to [base], fills an empty node with the
    children of the tree of [d]. *)
Definition mirrored (d : FsNode) : Prop :=
  forall fs base n0,
    fs_resolve fs base = Ok d -> fs_wf d -> is_FsDir d = true ->
    for_each (walk_step_rel fs base) (walk [] d) (DirNode n0 [])
    = Ok (DirNode n0 (children (mirror d))).

(** The tree of the directory [fs] as [from_path] holds it before the
    offsets are assigned: the nameless root with the children of [fs]. *)
Definition tree_of (fs : FsNode) : Node := DirNode [] (children (mirror fs)).

(** A directory whose listing is not in the order of the names. *)
Definition unordered_example : FsNode :=
  FsDir [] [FsDir (lit "m") [FsFile (lit "q") [Byte.x05];
                             FsFile (lit "p") []];
            FsFile (lit "z") [Byte.x01; Byte.x02];
            FsDir (lit "b") [];
            FsFile (lit "a") [Byte.x07]].

(** The same directory, its entries listed in another order at every
    depth. *)
Definition reordered_example : FsNode :=
  FsDir [] [FsFile (lit "a") [Byte.x07];
            FsDir (lit "b") [];
            FsDir (lit "m") [FsFile (lit "p") [];
                             FsFile (lit "q") [Byte.x05]];
            FsFile (lit "z") [Byte.x01; Byte.x02]].

(** [d'] is the directory [d] listed in another order: the same entries
    in every directory, up to the order of the listing. *)
Fixpoint relisted (d d' : FsNode) : Prop :=
  match d with
  | FsFile _ _ => d' = d
  | FsDir n es =>
      match d' with
      | FsFile _ _ => False
      | FsDir n' es' =>
          n' = n /\
          exists l,
            (fix all (es l : list FsNode) : Prop :=
               match es, l with
               | [], [] => True
               | e :: es1, x :: l1 => relisted e x /\ all es1 l1
               | _, _ => False
               end) es l /\
            Permutation l es'
      end
  end.

(** A directory with a file whose name has a character outside Latin-1. *)
Definition unencodable_example : FsNode :=
  FsDir [] [FsFile (lit "a") [Byte.x07];
            FsFile [322%N] [Byte.x01]].

(** ** The printed tree: [tree] *)

(** [for pointer, child in zip(pointers, children)]: the lines of the
    body at each pair, up to the shorter of the two lists. *)
Section ZipEach.
Context {A B C : Type} (body : A -> B -> list C).

Fixpoint zip_each (pointers : list A) (children : list B) {struct children}
  : list C :=
  match children, pointers with
  | child :: children', pointer :: pointers' =>
      body pointer child ++ zip_each pointers' children'
  | _, _ => []
  end.
End ZipEach.

(** The literals of [tree], as code points. *)
Definition tee : str := [9500; 9472; 9472; 32]%N.
Definition elbow : str := [9492; 9472; 9472; 32]%N.
Definition pipe : str := [9474; 32; 32; 32]%N.
Definition blank : str := [32; 32; 32; 32]%N.
Definition folder : str := [128193; 32]%N.
Definition page : str := [128196; 32]%N.

(** [['tee'] * (len(self.children) - 1) + ['elbow']] *)
Definition pointers (children : list Node) : list str :=
  repeat tee (Z.to_nat (len children - 1)) ++ [elbow].

(** The lines that [self.tree(prefix)] prints, in order.  Only a
    [DirNode] has the method. *)
Fixpoint tree (self : Node) (prefix : str) : list str :=
  match self with
  | FileNode _ _ _ => []
  | DirNode name children =>
      match prefix with
      | [] => [folder ++ name ++ lit "/"]
      | _ => []
      end
      ++ zip_each (fun pointer child =>
           match child with
           | FileNode cname _ _ => [prefix ++ pointer ++ page ++ cname]
           | DirNode cname _ =>
               let extension :=
                 if str_eqb pointer tee then pipe else blank in
               (prefix ++ pointer ++ folder ++ cname)
               :: tree child (prefix ++ extension)
           end) (pointers children) children
  end.

(** A line that begins with [prefix]. *)
Definition starts_with (prefix line : str) : Prop :=
  exists rest, line = prefix ++ rest.

(** ** The directory that [extract] leaves *)

(** The directory at [target], named [n0] and empty before, after the
    files of [out] have been written in their order. *)
Definition dir_after (n0 : str) (target : Path) (out : written)
  : result FsNode :=
  for_each (write_below target) out (FsDir n0 []).

(** What the file of [fs] at [p] holds. *)
Definition content (fs : FsNode) (p : Path) : bytes :=
  match read_bytes fs p with Ok data => data | Raise _ => [] end.

(** Writing, at the path [p] below [base], what [fs] holds there. *)
Definition copy_step (fs : FsNode) (base : Path) (p : Path) (d : FsNode)
  : result FsNode :=
  fs_write d p (content fs (base ++ p)).

Definition fs_entries (d : FsNode) : list FsNode :=
  match d with FsFile _ _ => [] | FsDir _ entries => entries end.

(** The listing in which extraction leaves a directory: the
    subdirectories by name, then the files by name. *)
Definition rearrange (l : list FsNode) : list FsNode :=
  sorted fs_name_leb (filter is_FsDir l)
  ++ sorted fs_name_leb (filter (fun e => negb (is_FsDir e)) l).

Fixpoint rebuilt (d : FsNode) : FsNode :=
  match d with
  | FsFile _ _ => d
  | FsDir n entries => FsDir n (rearrange (map rebuilt entries))
  end.

(** No directory below [d] is empty. *)
Fixpoint nonempty_dirs (d : FsNode) : Prop :=
  match d with
  | FsFile _ _ => True
  | FsDir _ entries =>
      fold_right (fun e rest =>
                    match e with FsDir _ [] => False | _ => True end
                    /\ nonempty_dirs e /\ rest) True entries
  end.

(** The paths of the files of [d] in the order of the opened archive. *)
Definition paths_of (d : FsNode) : list Path :=
  map entry_path (files (canon (mirror d)) []).

(** Copying the files of [d], found at [base] in [fs], into an empty
    directory gives [d] in the listing of [rebuilt]. *)
Definition copied (d : FsNode) : Prop :=
  forall fs base n0,
    fs_resolve fs base = Ok d -> fs_wf d -> is_FsDir d = true ->
    nonempty_dirs d ->
    for_each (copy_step fs base) (paths_of d) (FsDir n0 [])
    = Ok (FsDir n0 (fs_entries (rebuilt d))).

(** No entry of [es] is named [q]. *)
Definition absent (q : str) (es : list FsNode) : Prop :=
  Forall (fun e => str_eqb (fs_name e) q = false) es.

(** An opened archive that lists a directory without any file below it. *)
Definition empty_dir_example : BigFile :=
  {| root := DirNode [] [DirNode (lit "e") []; FileNode (lit "a") 1 0];
     buffer := [Byte.x07];
     num_entries := 1 |}.

(** A tree with its offsets forgotten: names, sizes and shape are left. *)
Fixpoint unplaced (t : Node) : Node :=
  match t with
  | FileNode name size _ => FileNode name size 0
  | DirNode name children => DirNode name (map unplaced children)
  end.

(** ** Names that are one component of a path *)

(** A name that [joinpath] appends as it is and that the file system takes
    as the name of one entry: not empty, not [.] or [..], without a slash
    and without a null. *)
Definition plain (n : str) : Prop :=
  n <> [] /\ n <> lit "." /\ n <> lit ".." /\ ~ In 47%N n /\ ~ In 0%N n.

(** Every name below [t] is plain. *)
Fixpoint plain_names (t : Node) : Prop :=
  match t with
  | FileNode _ _ _ => True
  | DirNode _ children =>
      fold_right (fun c rest => plain (name c) /\ plain_names c /\ rest)
        True children
  end.

(** The file of that name, size and offset is found below [t] through the
    directories named [dirs], outermost first. *)
Inductive leaf_at : Node -> list str -> str -> Z -> Z -> Prop :=
| leaf_here n cs name size offset :
    In (FileNode name size offset) cs ->
    leaf_at (DirNode n cs) [] name size offset
| leaf_below n cs m cs' dirs name size offset :
    In (DirNode m cs') cs ->
    leaf_at (DirNode m cs') dirs name size offset ->
    leaf_at (DirNode n cs) (m :: dirs) name size offset.

(** ** Offsets of a packed archive *)

(** The offset and the size of an entry, and their order: by offset, and
    by size where the offsets are the same. *)
Definition entry_key (e : entry) : Z * Z := (entry_offset e, entry_size e).

Definition key_leb (k1 k2 : Z * Z) : bool :=
  (fst k1 <? fst k2) || ((fst k1 =? fst k2) && (snd k1 <=? snd k2)).

Definition by_offset_size (e1 e2 : entry) : bool :=
  key_leb (entry_key e1) (entry_key e2).

(** The regular files of a directory with their paths below it. *)
Fixpoint fs_files (d : FsNode) (path : Path) : list (Path * bytes) :=
  match d with
  | FsFile _ data => [(path, data)]
  | FsDir _ entries =>
      flat_map (fun e => fs_files e (path ++ [fs_name e])) entries
  end.

(** The path of a file and the length of what it holds. *)
Definition path_len (f : Path * bytes) : Path * Z := (fst f, len (snd f)).

(** A directory with an empty file beside a subdirectory. *)
Definition empty_file_example : FsNode :=
  FsDir [] [FsFile (lit "a") [];
            FsDir (lit "d") [FsFile (lit "b") [Byte.x07]]].

(** ** What a cut header leaves *)







(** * Properties *)

(** ** Bytes and fixed-width integers *)

Lemma Z_of_byte_range (b : byte) : 0 <= Z_of_byte b < 256.
Proof.
  unfold Z_of_byte. pose proof (Byte.to_N_bounded b). lia.
Qed.

Lemma byte_of_Z_of_byte (b : byte) : byte_of_Z (Z_of_byte b) = b.
Proof.
  unfold byte_of_Z. pose proof (Z_of_byte_range b).
  rewrite Z.mod_small by lia. unfold Z_of_byte.
  rewrite N2Z.id, Byte.of_to_N. reflexivity.
Qed.

Lemma Z_of_byte_of_Z (z : Z) : Z_of_byte (byte_of_Z z) = z mod 256.
Proof.
  unfold byte_of_Z, Z_of_byte.
  pose proof (Z.mod_pos_bound z 256 ltac:(lia)).
  destruct (Byte.of_N (Z.to_N (z mod 256))) eqn:E.
  - apply Byte.to_of_N in E. rewrite E. lia.
  - apply Byte.of_N_None_iff in E. lia.
Qed.

Lemma pack_B_inv n b :
  pack_B n = Ok b -> 0 <= n <= 255 /\ b = [byte_of_Z n].
Proof.
  unfold pack_B. destruct (0 <=? n) eqn:E1; destruct (n <=? 255) eqn:E2;
    simpl; intros H; inversion H. split; [lia | reflexivity].
Qed.

Lemma pack_I_inv n b :
  pack_I n = Ok b ->
  0 <= n < 4294967296 /\
  b = [byte_of_Z n; byte_of_Z (n / 256);
       byte_of_Z (n / 65536); byte_of_Z (n / 16777216)].
Proof.
  unfold pack_I. destruct (0 <=? n) eqn:E1; destruct (n <? 4294967296) eqn:E2;
    simpl; intros H; inversion H. split; [lia | reflexivity].
Qed.

Lemma pack_I_length n b : pack_I n = Ok b -> length b = 4%nat.
Proof. intros H. apply pack_I_inv in H as [_ ->]. reflexivity. Qed.

Lemma pack_B_length n b : pack_B n = Ok b -> length b = 1%nat.
Proof. intros H. apply pack_B_inv in H as [_ ->]. reflexivity. Qed.

Lemma unpack_B_pack_B n b : pack_B n = Ok b -> unpack_B b = Ok n.
Proof.
  intros H. apply pack_B_inv in H as [Hn ->]. unfold unpack_B.
  rewrite Z_of_byte_of_Z, Z.mod_small by lia. reflexivity.
Qed.

Lemma unpack_I_pack_I n b : pack_I n = Ok b -> unpack_I b = Ok n.
Proof.
  intros H. apply pack_I_inv in H as [Hn ->]. unfold unpack_I. f_equal.
  rewrite !Z_of_byte_of_Z.
  pose proof (Z.div_mod n 256 ltac:(lia)).
  pose proof (Z.div_mod (n / 256) 256 ltac:(lia)).
  pose proof (Z.div_mod (n / 256 / 256) 256 ltac:(lia)).
  replace (n / 65536) with (n / 256 / 256) by (rewrite Z.div_div by lia; reflexivity).
  replace (n / 16777216) with (n / 256 / 256 / 256)
    by (rewrite !Z.div_div by lia; reflexivity).
  assert (n / 256 / 256 / 256 < 256).
  { rewrite !Z.div_div by lia. apply Z.div_lt_upper_bound; lia. }
  assert (0 <= n / 256 / 256 / 256).
  { repeat apply Z.div_pos; lia. }
  rewrite (Z.mod_small (n / 256 / 256 / 256)) by lia. lia.
Qed.

Lemma pack_B_unpack_B b n : unpack_B b = Ok n -> pack_B n = Ok b.
Proof.
  destruct b as [|b0 [|? ?]]; unfold unpack_B; intros H;
    try discriminate H. injection H as <-.
  pose proof (Z_of_byte_range b0). unfold pack_B.
  replace (0 <=? Z_of_byte b0) with true by (symmetry; apply Z.leb_le; lia).
  replace (Z_of_byte b0 <=? 255) with true by (symmetry; apply Z.leb_le; lia).
  simpl. rewrite byte_of_Z_of_byte. reflexivity.
Qed.

Lemma unpack_I_inv b n :
  unpack_I b = Ok n ->
  exists b0 b1 b2 b3,
    b = [b0; b1; b2; b3] /\
    n = Z_of_byte b0 + 256 * Z_of_byte b1
        + 65536 * Z_of_byte b2 + 16777216 * Z_of_byte b3.
Proof.
  destruct b as [|b0 [|b1 [|b2 [|b3 [|? ?]]]]]; unfold unpack_I; intros H;
    try discriminate H.
  injection H as <-. exists b0, b1, b2, b3. split; reflexivity.
Qed.

Lemma unpack_I_range b n : unpack_I b = Ok n -> 0 <= n < 4294967296.
Proof.
  intros H. apply unpack_I_inv in H as (b0 & b1 & b2 & b3 & _ & ->).
  pose proof (Z_of_byte_range b0). pose proof (Z_of_byte_range b1).
  pose proof (Z_of_byte_range b2). pose proof (Z_of_byte_range b3). lia.
Qed.

Lemma unpack_I_length b n : unpack_I b = Ok n -> length b = 4%nat.
Proof.
  intros H. apply unpack_I_inv in H as (b0 & b1 & b2 & b3 & -> & _).
  reflexivity.
Qed.

Lemma byte_of_Z_small_add a q :
  0 <= a < 256 -> byte_of_Z (a + 256 * q) = byte_of_Z a.
Proof.
  intros Ha. unfold byte_of_Z.
  replace ((a + 256 * q) mod 256) with (a mod 256); [reflexivity|].
  rewrite (Z.mul_comm 256 q), Z.mod_add by lia. reflexivity.
Qed.

Lemma pack_I_unpack_I b n : unpack_I b = Ok n -> pack_I n = Ok b.
Proof.
  intros H. pose proof (unpack_I_range _ _ H) as Hr.
  apply unpack_I_inv in H as (b0 & b1 & b2 & b3 & -> & ->).
  pose proof (Z_of_byte_range b0). pose proof (Z_of_byte_range b1).
  pose proof (Z_of_byte_range b2). pose proof (Z_of_byte_range b3).
  unfold pack_I.
  replace (0 <=? _) with true by (symmetry; apply Z.leb_le; lia).
  replace (_ <? 4294967296) with true by (symmetry; apply Z.ltb_lt; lia).
  cbv [andb].
  set (z0 := Z_of_byte b0) in *. set (z1 := Z_of_byte b1) in *.
  set (z2 := Z_of_byte b2) in *. set (z3 := Z_of_byte b3) in *.
  set (n := z0 + 256 * z1 + 65536 * z2 + 16777216 * z3) in *.
  assert (E1 : n / 256 = z1 + 256 * (z2 + 256 * z3)).
  { symmetry. apply (Z.div_unique n 256 _ z0); lia. }
  assert (E2 : n / 65536 = z2 + 256 * z3).
  { symmetry. apply (Z.div_unique n 65536 _ (z0 + 256 * z1)); lia. }
  assert (E3 : n / 16777216 = z3).
  { symmetry.
    apply (Z.div_unique n 16777216 _ (z0 + 256 * z1 + 65536 * z2)); lia. }
  rewrite E1, E2, E3.
  replace n with (z0 + 256 * (z1 + 256 * z2 + 65536 * z3)) by lia.
  rewrite !byte_of_Z_small_add by lia.
  unfold z0, z1, z2, z3. rewrite !byte_of_Z_of_byte. reflexivity.
Qed.

(** ** latin1 and the null terminator *)

Lemma encode_latin1_inv s b :
  encode_latin1 s = Ok b -> decode_latin1 b = s /\ length b = length s.
Proof.
  revert b. induction s as [|c s IH]; simpl; intros b H.
  - injection H as <-. split; reflexivity.
  - destruct (Byte.of_N c) as [x|] eqn:Ec; [|discriminate H].
    destruct (encode_latin1 s) as [bs|e]; simpl in H; [|discriminate H].
    injection H as <-. destruct (IH bs eq_refl) as [IH1 IH2].
    simpl. rewrite IH1, IH2, (Byte.to_of_N _ Ec). split; reflexivity.
Qed.

Lemma encode_latin1_decode b : encode_latin1 (decode_latin1 b) = Ok b.
Proof.
  induction b as [|x b IH]; [reflexivity|].
  change (decode_latin1 (x :: b)) with (Byte.to_N x :: decode_latin1 b).
  cbn [encode_latin1]. rewrite Byte.of_to_N, IH. reflexivity.
Qed.

Lemma encode_latin1_total s :
  Forall (fun c => (c < 256)%N) s -> exists b, encode_latin1 s = Ok b.
Proof.
  induction 1 as [|c s Hc _ [b IH]]; simpl.
  - exists []. reflexivity.
  - destruct (Byte.of_N c) as [x|] eqn:Ec.
    + rewrite IH. exists (x :: b). reflexivity.
    + apply Byte.of_N_None_iff in Ec. lia.
Qed.

Lemma encode_latin1_range s b :
  encode_latin1 s = Ok b -> Forall (fun c => (c < 256)%N) s.
Proof.
  intros H. apply encode_latin1_inv in H as [<- _].
  unfold decode_latin1. apply Forall_forall. intros c Hc.
  apply in_map_iff in Hc as (x & <- & _).
  pose proof (Byte.to_N_bounded x). lia.
Qed.

Lemma rstrip_null_id b : no_trailing_null b -> rstrip_null b = b.
Proof.
  unfold no_trailing_null. induction b as [|x b IH]; [reflexivity|].
  intros H. destruct b as [|y b].
  - simpl in *. destruct (Byte.eqb x Byte.x00) eqn:E; [|reflexivity].
    apply Byte.byte_dec_bl in E. contradiction.
  - change (last (x :: y :: b) Byte.x01) with (last (y :: b) Byte.x01) in H.
    specialize (IH H). change (rstrip_null (x :: y :: b)) with
      (match rstrip_null (y :: b) with
       | [] => if Byte.eqb x Byte.x00 then [] else [x]
       | r => x :: r
       end).
    rewrite IH. reflexivity.
Qed.

Lemma rstrip_null_app_null b :
  rstrip_null (b ++ [Byte.x00]) = rstrip_null b.
Proof.
  induction b as [|x b IH]; [reflexivity|].
  simpl. rewrite IH. reflexivity.
Qed.

Lemma no_trailing_null_encode s b :
  encode_latin1 s = Ok b -> no_trailing_nul s -> no_trailing_null b.
Proof.
  intros H Hs Hb. apply encode_latin1_inv in H as [<- _].
  apply Hs. unfold decode_latin1.
  change 1%N with (Byte.to_N Byte.x01).
  clear Hs. induction b as [|x [|y b] IH]; simpl in *.
  - discriminate Hb.
  - rewrite Hb. reflexivity.
  - apply IH, Hb.
Qed.

(** ** The string codec *)

Lemma str_pack_inv s b :
  str_pack s = Ok b ->
  exists enc hd,
    encode_latin1 s = Ok enc /\
    pack_I (len s + match s with [] => 0 | _ => 1 end) = Ok hd /\
    b = hd ++ enc ++ match s with [] => [] | _ => [Byte.x00] end.
Proof.
  unfold str_pack. intros H.
  destruct (encode_latin1 s) as [enc|e] eqn:Eenc; [|discriminate H].
  simpl in H.
  destruct (pack_I _) as [hd|e] eqn:Ehd; [|discriminate H].
  simpl in H. injection H as <-.
  exists enc, hd. split; [reflexivity|]. split; [reflexivity|].
  f_equal. apply encode_latin1_inv in Eenc as [_ Hl].
  unfold pack_s, len. destruct s as [|c s].
  - destruct enc; [reflexivity | discriminate Hl].
  - rewrite firstn_all2 by lia.
    replace (Z.to_nat _ - length enc)%nat with 1%nat by lia. reflexivity.
Qed.

Lemma str_pack_length s b :
  str_pack s = Ok b ->
  len b = 4 + len s + match s with [] => 0 | _ => 1 end.
Proof.
  intros H. apply str_pack_inv in H as (enc & hd & He & Hh & ->).
  apply encode_latin1_inv in He as [_ He]. apply pack_I_length in Hh.
  unfold len. rewrite !length_app, Hh, He. destruct s; cbn [length]; lia.
Qed.

Lemma str_pack_min_length s b : str_pack s = Ok b -> (4 <= length b)%nat.
Proof.
  intros H. apply str_pack_inv in H as (enc & hd & _ & Hh & ->).
  rewrite length_app, (pack_I_length _ _ Hh). lia.
Qed.

Lemma str_pack_total s :
  Forall (fun c => (c < 256)%N) s -> len s < 4294967295 ->
  exists b, str_pack s = Ok b.
Proof.
  intros Hs Hl. destruct (encode_latin1_total s Hs) as [enc He].
  unfold str_pack, pack_I. rewrite He. simpl.
  assert (0 <= len s) by (unfold len; lia).
  replace (0 <=? _) with true
    by (symmetry; apply Z.leb_le; destruct s; lia).
  replace (_ <? 4294967296) with true
    by (symmetry; apply Z.ltb_lt; destruct s; lia).
  simpl. eexists. reflexivity.
Qed.

Lemma read_app (b rest : bytes) n :
  n = len b -> read n (b ++ rest) = (b, rest).
Proof.
  intros ->. unfold read, len. rewrite Nat2Z.id.
  rewrite firstn_app, skipn_app, Nat.sub_diag, firstn_all, skipn_all.
  simpl. rewrite app_nil_r. reflexivity.
Qed.

(** What [str_unpack] returns on a packed string followed by anything:
    the string up to its trailing nulls. *)
Lemma str_unpack_str_pack_gen s b rest :
  str_pack s = Ok b ->
  exists enc,
    encode_latin1 s = Ok enc /\
    str_unpack (b ++ rest) = Ok (decode_latin1 (rstrip_null enc), rest).
Proof.
  intros H. apply str_pack_inv in H as (enc & hd & He & Hh & ->).
  exists enc. split; [assumption|].
  unfold str_unpack. rewrite <- app_assoc.
  rewrite (read_app hd) by (unfold len; rewrite (pack_I_length _ _ Hh); reflexivity).
  rewrite (unpack_I_pack_I _ _ Hh). cbn [bind].
  pose proof (encode_latin1_inv _ _ He) as [_ Hl].
  rewrite <- app_assoc, app_assoc.
  rewrite read_app.
  - destruct s; [rewrite app_nil_r | rewrite rstrip_null_app_null];
      reflexivity.
  - unfold len. rewrite length_app, Hl. destruct s; simpl; lia.
Qed.

Lemma str_unpack_str_pack_ok s b rest :
  str_pack s = Ok b -> no_trailing_nul s ->
  str_unpack (b ++ rest) = Ok (s, rest).
Proof.
  intros H Hs.
  destruct (str_unpack_str_pack_gen s b rest H) as (enc & He & ->).
  rewrite rstrip_null_id by (eapply no_trailing_null_encode; eassumption).
  apply encode_latin1_inv in He as [-> _]. reflexivity.
Qed.

(** ** Trees *)

Lemma bind_Ok {A B} (r : result A) (k : A -> result B) b :
  bind r k = Ok b -> exists a, r = Ok a /\ k a = Ok b.
Proof.
  destruct r as [a|e]; simpl; intros H; [|discriminate H].
  exists a. split; [reflexivity | assumption].
Qed.

Ltac bind_inv H :=
  let a := fresh "x" in
  let E := fresh "E" in
  apply bind_Ok in H as (a & E & H).

Lemma py_sum_filter {A} (p : A -> bool) (l : list A) :
  py_sum (map p l) = len (filter p l).
Proof.
  unfold py_sum, len.
  assert (G : forall acc,
             fold_left (fun a b => a + Z.b2z b) (map p l) acc
             = acc + Z.of_nat (length (filter p l))).
  { induction l as [|x l IH]; intros acc; simpl; [lia|].
    rewrite IH. destruct (p x); simpl length; simpl Z.b2z; lia. }
  apply G.
Qed.

Lemma for_each_concat {A} (g : A -> result bytes)
    (body : A -> bytes -> result bytes) (cs : list A) :
  Forall (fun c => forall f, body c f = (x <- g c ;; Ok (f ++ x))) cs ->
  forall f,
    for_each body cs f = (x <- concat_results g cs ;; Ok (f ++ x)).
Proof.
  induction 1 as [|c cs Hc _ IH]; intros f; simpl.
  - rewrite app_nil_r. reflexivity.
  - rewrite Hc. destruct (g c) as [b|e]; simpl; [|reflexivity].
    rewrite IH. destruct (concat_results g cs) as [bs|e]; simpl;
      [|reflexivity].
    rewrite app_assoc. reflexivity.
Qed.

Lemma write_entries_unfold name cs :
  Forall appends cs ->
  forall f,
    write_entries (DirNode name cs) f =
    (c <- pack_B (num_subdirs (DirNode name cs)) ;;
     ds <- concat_results dir_bytes cs ;;
     k <- pack_I (num_files (DirNode name cs)) ;;
     fs <- concat_results file_bytes cs ;;
     Ok (f ++ c ++ ds ++ k ++ fs)).
Proof.
  intros Hcs f. cbn [write_entries].
  destruct (pack_B _) as [c|e]; cbn [bind]; [|reflexivity].
  rewrite (for_each_concat dir_bytes).
  2:{ eapply Forall_impl; [|exact Hcs].
      intros [n s o|n cs'] Hc f0; unfold dir_bytes; cbv beta iota.
      - cbn [bind]. rewrite app_nil_r. reflexivity.
      - destruct (str_pack n) as [b|e]; cbn [bind]; [|reflexivity].
        rewrite Hc. unfold write.
        destruct (write_entries (DirNode n cs') []) as [x|e]; cbn [bind];
          [|reflexivity].
        rewrite app_assoc. reflexivity. }
  destruct (concat_results dir_bytes cs) as [ds|e]; cbn [bind];
    [|reflexivity].
  destruct (pack_I _) as [k|e]; cbn [bind]; [|reflexivity].
  rewrite (for_each_concat file_bytes).
  2:{ apply Forall_forall.
      intros [n s o|n cs'] _ f0; unfold file_bytes; cbv beta iota.
      - destruct (str_pack n) as [b1|e]; cbn [bind]; [|reflexivity].
        destruct (pack_I s) as [b2|e]; cbn [bind]; [|reflexivity].
        destruct (pack_I o) as [b3|e]; cbn [bind]; [|reflexivity].
        unfold write. rewrite <- !app_assoc. reflexivity.
      - cbn [bind]. rewrite app_nil_r. reflexivity. }
  destruct (concat_results file_bytes cs) as [fs|e]; cbn [bind];
    [|reflexivity].
  unfold write. rewrite <- !app_assoc. reflexivity.
Qed.

Lemma write_entries_appends t : appends t.
Proof.
  induction t as [n s o|n cs IH] using Node_ind_Forall; intros f.
  - reflexivity.
  - rewrite (write_entries_unfold n cs IH f).
    rewrite (write_entries_unfold n cs IH []).
    destruct (pack_B _); cbn [bind]; [|reflexivity].
    destruct (concat_results dir_bytes cs); cbn [bind]; [|reflexivity].
    destruct (pack_I _); cbn [bind]; [|reflexivity].
    destruct (concat_results file_bytes cs); cbn [bind]; reflexivity.
Qed.

(** The layout written for a directory, in one equation. *)
Lemma write_entries_eq name cs f :
  write_entries (DirNode name cs) f =
  (c <- pack_B (len (filter is_DirNode cs)) ;;
   ds <- concat_results dir_bytes cs ;;
   k <- pack_I (len (filter is_FileNode cs)) ;;
   fs <- concat_results file_bytes cs ;;
   Ok (f ++ c ++ ds ++ k ++ fs)).
Proof.
  rewrite write_entries_unfold.
  - unfold num_subdirs, num_files. cbn [children].
    rewrite !py_sum_filter. reflexivity.
  - apply Forall_forall. intros c _. apply write_entries_appends.
Qed.

Lemma concat_results_dirs cs :
  concat_results dir_bytes cs
  = concat_results dir_bytes (filter is_DirNode cs).
Proof.
  induction cs as [|[n s o|n cs'] cs IH]; [reflexivity| |].
  - cbn [filter is_DirNode concat_results dir_bytes].
    rewrite IH. clear IH.
    destruct (concat_results dir_bytes (filter is_DirNode cs)); reflexivity.
  - cbn [filter is_DirNode concat_results]. rewrite IH. reflexivity.
Qed.

Lemma concat_results_files cs :
  concat_results file_bytes cs
  = concat_results file_bytes (filter is_FileNode cs).
Proof.
  induction cs as [|[n s o|n cs'] cs IH]; [reflexivity| |].
  - cbn [filter is_FileNode concat_results]. rewrite IH. reflexivity.
  - cbn [filter is_FileNode concat_results file_bytes].
    rewrite IH. clear IH.
    destruct (concat_results file_bytes (filter is_FileNode cs));
      reflexivity.
Qed.

(** ** Size prediction against the encoder *)

Lemma size_header_eq name cs size :
  size_header (DirNode name cs) size =
  (p <- str_pack name ;;
   size <- for_each size_dirs_body cs (size + len p + 1) ;;
   for_each size_files_body cs (size + 4)).
Proof. reflexivity. Qed.

Lemma len_app {A} (a b : list A) : len (a ++ b) = len a + len b.
Proof. unfold len. rewrite length_app. lia. Qed.

Lemma size_dirs_loop cs :
  Forall sized cs ->
  forall ds size,
    concat_results dir_bytes cs = Ok ds ->
    for_each size_dirs_body cs size = Ok (size + len ds).
Proof.
  induction 1 as [|c cs Hc _ IH]; intros ds size H; cbn [concat_results] in H.
  - injection H as <-. cbn. f_equal. unfold len. simpl. lia.
  - bind_inv H. bind_inv H. injection H as <-.
    cbn [for_each]. destruct c as [n s o|n cs'].
    + cbn [dir_bytes] in E. injection E as <-.
      cbn [size_dirs_body is_DirNode bind]. rewrite (IH _ _ E0).
      reflexivity.
    + cbn [dir_bytes] in E. bind_inv E. bind_inv E. injection E as <-.
      cbn [size_dirs_body is_DirNode].
      rewrite (Hc _ _ size E1 E2). cbn [bind]. rewrite (IH _ _ E0).
      f_equal. rewrite !len_app. lia.
Qed.

Lemma size_files_loop cs :
  forall fs size,
    concat_results file_bytes cs = Ok fs ->
    for_each size_files_body cs size = Ok (size + len fs).
Proof.
  induction cs as [|c cs IH]; intros fs size H; cbn [concat_results] in H.
  - injection H as <-. cbn. f_equal. unfold len. simpl. lia.
  - bind_inv H. bind_inv H. injection H as <-.
    cbn [for_each]. destruct c as [n s o|n cs'].
    + cbn [file_bytes] in E. bind_inv E. bind_inv E. bind_inv E.
      injection E as <-. cbn [size_files_body]. rewrite E1. cbn [bind].
      rewrite (IH _ _ E0). f_equal. rewrite !len_app.
      apply pack_I_length in E2, E3. unfold len.
      rewrite E2, E3. lia.
    + cbn [file_bytes] in E. injection E as <-.
      cbn [size_files_body bind]. rewrite (IH _ _ E0). reflexivity.
Qed.

Lemma size_header_sized t : sized t.
Proof.
  induction t as [n s o|n cs IH] using Node_ind_Forall; intros p bs size Hp H.
  - discriminate H.
  - rewrite write_entries_eq in H.
    bind_inv H. bind_inv H. bind_inv H. bind_inv H. injection H as <-.
    rewrite size_header_eq. cbn [name] in Hp. rewrite Hp. cbn [bind].
    rewrite (size_dirs_loop cs IH _ _ E0). cbn [bind].
    rewrite (size_files_loop cs _ _ E2). f_equal.
    apply pack_B_length in E. apply pack_I_length in E1.
    rewrite !len_app. unfold len. rewrite E, E1. lia.
Qed.

Lemma for_each_map_ext {A B S} (h : A -> B)
    (body1 : A -> S -> result S) (body2 : B -> S -> result S) cs :
  Forall (fun c => forall s, body1 c s = body2 (h c) s) cs ->
  forall s, for_each body1 cs s = for_each body2 (map h cs) s.
Proof.
  induction 1 as [|c cs Hc _ IH]; intros s; [reflexivity|].
  cbn [for_each map]. rewrite Hc. destruct (body2 (h c) s); cbn [bind];
    [apply IH | reflexivity].
Qed.

Lemma size_header_strip t size :
  size_header t size = size_header (strip t) size.
Proof.
  revert size.
  induction t as [n s o|n cs IH] using Node_ind_Forall; intros size.
  - reflexivity.
  - cbn [strip]. rewrite !size_header_eq.
    destruct (str_pack n) as [p|e]; cbn [bind]; [|reflexivity].
    rewrite (for_each_map_ext strip size_dirs_body size_dirs_body).
    2:{ eapply Forall_impl; [|exact IH]. intros [? ? ?|? ?] Hc s0.
        - reflexivity.
        - exact (Hc s0). }
    destruct (for_each size_dirs_body (map strip cs) _); cbn [bind];
      [|reflexivity].
    apply for_each_map_ext. apply Forall_forall.
    intros [? ? ?|? ?] _ s0; reflexivity.
Qed.

Lemma preamble_bytes : exists p, preamble = Ok p /\ len p = 23.
Proof. eexists. split; vm_compute; reflexivity. Qed.

Lemma size_header_preamble_sized self bs :
  name self = [] ->
  write_entries self [] = Ok bs ->
  exists p,
    preamble = Ok p /\
    size_header self size_header_default = Ok (len p + len bs).
Proof.
  intros Hname H. destruct preamble_bytes as (p & Hp & Hl). exists p.
  split; [exact Hp|].
  rewrite (size_header_sized self [Byte.x00; Byte.x00; Byte.x00; Byte.x00]
             bs size_header_default).
  - rewrite Hl. reflexivity.
  - rewrite Hname. reflexivity.
  - exact H.
Qed.

(** ** Decoding what the encoder wrote *)

Lemma unpack_II_app s o b2 b3 :
  pack_I s = Ok b2 -> pack_I o = Ok b3 -> unpack_II (b2 ++ b3) = Ok (s, o).
Proof.
  intros H2 H3.
  pose proof (pack_I_inv _ _ H2) as [_ ->].
  pose proof (pack_I_inv _ _ H3) as [_ ->].
  unfold unpack_II. cbn [app length Nat.eqb firstn skipn].
  rewrite (unpack_I_pack_I _ _ H2), (unpack_I_pack_I _ _ H3). reflexivity.
Qed.

Lemma len_to_nat {A} (l : list A) : Z.to_nat (len l) = length l.
Proof. unfold len. apply Nat2Z.id. Qed.

Lemma length_map_len {A B} (h : A -> B) (l : list A) : len (map h l) = len l.
Proof. unfold len. rewrite length_map. reflexivity. Qed.

Lemma read_dirs_written cs :
  Forall decodes cs ->
  forall ds,
    concat_results dir_bytes cs = Ok ds -> names_ok_list names_ok cs ->
    forall fuel acc rest,
      (length (ds ++ rest) <= fuel)%nat ->
      read_dirs (read_entries_fuel fuel) (length (filter is_DirNode cs))
        acc (ds ++ rest)
      = Done (acc ++ canon_dirs canon cs) rest.
Proof.
  induction 1 as [|c cs Hc _ IH]; intros ds H Hn fuel acc rest Hf;
    cbn [concat_results] in H.
  - injection H as <-. cbn. rewrite app_nil_r. reflexivity.
  - bind_inv H. bind_inv H. injection H as <-.
    destruct Hn as (Hn1 & Hn2 & Hn3).
    destruct c as [n s o|n cs'].
    + cbn [dir_bytes] in E. injection E as <-.
      cbn [filter is_DirNode canon_dirs flat_map app].
      apply IH; assumption.
    + cbn [dir_bytes] in E. bind_inv E. bind_inv E. injection E as <-.
      cbn [filter is_DirNode length read_dirs].
      rewrite <- !app_assoc.
      rewrite (str_unpack_str_pack_ok n x1 _ E1 Hn1).
      pose proof (str_pack_min_length _ _ E1) as L1.
      rewrite !length_app in Hf.
      specialize (Hc x2 E2 Hn2 fuel [] (x0 ++ rest)).
      rewrite Hc by (rewrite !length_app; lia).
      cbn [app]. unfold add.
      specialize (IH x0 E0 Hn3 fuel
                    (acc ++ [DirNode n (children (canon (DirNode n cs')))])
                    rest).
      rewrite IH by (rewrite length_app; lia).
      cbn [canon_dirs flat_map]. rewrite <- !app_assoc. reflexivity.
Qed.

Lemma read_files_written cs :
  forall fs,
    concat_results file_bytes cs = Ok fs -> names_ok_list names_ok cs ->
    forall acc rest,
      read_files (length (filter is_FileNode cs)) acc (fs ++ rest)
      = Done (acc ++ filter is_FileNode cs) rest.
Proof.
  induction cs as [|c cs IH]; intros fs H Hn acc rest;
    cbn [concat_results] in H.
  - injection H as <-. cbn. rewrite app_nil_r. reflexivity.
  - bind_inv H. bind_inv H. injection H as <-.
    destruct Hn as (Hn1 & Hn2 & Hn3).
    destruct c as [n s o|n cs'].
    + cbn [file_bytes] in E. bind_inv E. bind_inv E. bind_inv E.
      injection E as <-.
      cbn [filter is_FileNode length read_files].
      rewrite <- !app_assoc.
      rewrite (str_unpack_str_pack_ok n x1 _ E1 Hn1).
      rewrite (app_assoc x2 x3).
      rewrite (read_app (x2 ++ x3)).
      2:{ unfold len. rewrite length_app, (pack_I_length _ _ E2),
            (pack_I_length _ _ E3). reflexivity. }
      rewrite (unpack_II_app _ _ _ _ E2 E3). unfold add.
      rewrite (IH x0 E0 Hn3). rewrite <- app_assoc. reflexivity.
    + cbn [file_bytes] in E. injection E as <-.
      cbn [filter is_FileNode app]. apply IH; assumption.
Qed.

Lemma read_entries_written t : decodes t.
Proof.
  induction t as [n s o|n cs IH] using Node_ind_Forall;
    intros bs H Hn fuel acc rest Hf.
  - discriminate H.
  - rewrite write_entries_eq in H.
    bind_inv H. bind_inv H. bind_inv H. bind_inv H. injection H as <-.
    cbn [app] in *. destruct fuel as [|fuel]; [lia|].
    cbn [read_entries_fuel]. rewrite <- !app_assoc.
    rewrite (read_app x)
      by (unfold len; rewrite (pack_B_length _ _ E); reflexivity).
    rewrite (unpack_B_pack_B _ _ E), len_to_nat.
    pose proof (pack_B_length _ _ E) as L.
    rewrite !length_app in Hf.
    rewrite (read_dirs_written cs IH x0 E0 Hn)
      by (rewrite !length_app; lia).
    rewrite (read_app x1)
      by (unfold len; rewrite (pack_I_length _ _ E1); reflexivity).
    rewrite (unpack_I_pack_I _ _ E1), len_to_nat.
    rewrite (read_files_written cs x2 E2 Hn).
    cbn [canon children]. rewrite <- app_assoc. reflexivity.
Qed.

(** ** The disk form of a tree *)

Lemma canon_dirs_map cs :
  canon_dirs canon cs = map canon (filter is_DirNode cs).
Proof.
  induction cs as [|[n s o|n cs'] cs IH]; [reflexivity| |].
  - cbn [canon_dirs flat_map filter is_DirNode app]. exact IH.
  - cbn [canon_dirs flat_map filter is_DirNode app map]. f_equal. exact IH.
Qed.

Lemma canon_is_DirNode c : is_DirNode (canon c) = is_DirNode c.
Proof. destruct c; reflexivity. Qed.

Lemma filter_dirs_files cs : filter is_DirNode (filter is_FileNode cs) = [].
Proof.
  induction cs as [|[n s o|n cs'] cs IH]; cbn; try rewrite IH; reflexivity.
Qed.

Lemma filter_files_dirs cs : filter is_FileNode (filter is_DirNode cs) = [].
Proof.
  induction cs as [|[n s o|n cs'] cs IH]; cbn; try rewrite IH; reflexivity.
Qed.

Lemma filter_idem {A} (p : A -> bool) l : filter p (filter p l) = filter p l.
Proof.
  induction l as [|x l IH]; [reflexivity|]. cbn [filter].
  destruct (p x) eqn:E; cbn [filter]; rewrite ?E, IH; reflexivity.
Qed.

Lemma filter_map_canon_dirs l :
  filter is_DirNode (map canon (filter is_DirNode l))
  = map canon (filter is_DirNode l).
Proof.
  induction l as [|[n s o|n cs'] l IH]; cbn; try rewrite IH; reflexivity.
Qed.

Lemma filter_files_map_canon_dirs l :
  filter is_FileNode (map canon (filter is_DirNode l)) = [].
Proof.
  induction l as [|[n s o|n cs'] l IH]; cbn; try rewrite IH; reflexivity.
Qed.

Lemma canon_children_dirs n cs :
  filter is_DirNode (children (canon (DirNode n cs)))
  = map canon (filter is_DirNode cs).
Proof.
  cbn [canon children]. rewrite filter_app, canon_dirs_map.
  rewrite filter_map_canon_dirs, filter_dirs_files, app_nil_r. reflexivity.
Qed.

Lemma canon_children_files n cs :
  filter is_FileNode (children (canon (DirNode n cs)))
  = filter is_FileNode cs.
Proof.
  cbn [canon children]. rewrite filter_app, canon_dirs_map.
  rewrite filter_files_map_canon_dirs, filter_idem. reflexivity.
Qed.

Lemma concat_results_map_ext {A} (g : A -> result bytes) (h : A -> A) l :
  Forall (fun c => g (h c) = g c) l ->
  concat_results g (map h l) = concat_results g l.
Proof.
  induction 1 as [|c l Hc _ IH]; [reflexivity|].
  cbn [map concat_results]. rewrite Hc, IH. reflexivity.
Qed.

(** Reordering every directory into its disk form changes nothing in
    what is written. *)
Lemma write_entries_canon t f :
  write_entries (canon t) f = write_entries t f.
Proof.
  revert f. induction t as [n s o|n cs IH] using Node_ind_Forall; intros f.
  - reflexivity.
  - change (canon (DirNode n cs))
      with (DirNode n (children (canon (DirNode n cs)))).
    rewrite !write_entries_eq.
    rewrite (concat_results_dirs (children _)),
      (concat_results_files (children _)).
    rewrite canon_children_dirs, canon_children_files.
    rewrite length_map_len.
    rewrite <- (concat_results_files cs).
    rewrite (concat_results_dirs cs).
    rewrite (concat_results_map_ext dir_bytes canon); [reflexivity|].
    apply Forall_forall. intros c Hc.
    apply filter_In in Hc as [Hc Hd].
    rewrite Forall_forall in IH. specialize (IH c Hc).
    destruct c as [? ? ?|m cs']; [discriminate Hd|].
    change (canon (DirNode m cs'))
      with (DirNode m (children (canon (DirNode m cs')))) at 1.
    cbn [dir_bytes].
    change (DirNode m (children (canon (DirNode m cs'))))
      with (canon (DirNode m cs')).
    rewrite IH. reflexivity.
Qed.

(** * The claims about the codec *)

(** C5, as stated, fails: a string that ends in a null character does not
    survive [str_pack] then [str_unpack], because [rstrip] removes every
    trailing null byte and not only the terminator. *)
Lemma str_roundtrip_trailing_null_counterexample :
  let s := [97%N; 0%N] in
  Forall (fun c => (c < 256)%N) s /\
  exists b, str_pack s = Ok b /\
            str_unpack b = Ok ([97%N], []) /\
            str_unpack b <> Ok (s, []).
Proof.
  split.
  - repeat constructor.
  - eexists. split; [reflexivity|]. split; [reflexivity|]. discriminate.
Qed.

(** C5, amended: a string of single-byte characters that does not end in a
    null character (and is short enough for the 4-byte length) is packed,
    and unpacking the result, whatever follows it in the stream, returns
    the string and leaves what follows. *)
Theorem str_unpack_str_pack (s : str) :
  Forall (fun c => (c < 256)%N) s ->
  len s < 4294967295 ->
  no_trailing_nul s ->
  exists b,
    str_pack s = Ok b /\
    forall rest, str_unpack (b ++ rest) = Ok (s, rest).
Proof.
  intros Hs Hl Hn. destruct (str_pack_total s Hs Hl) as [b Hb].
  exists b. split; [exact Hb|]. intros rest.
  apply str_unpack_str_pack_ok; assumption.
Qed.

Lemma str_unpack_str_pack_witness :
  exists b,
    str_pack (lit "data.m4b") = Ok b /\
    forall rest, str_unpack (b ++ rest) = Ok (lit "data.m4b", rest).
Proof.
  apply (str_unpack_str_pack (lit "data.m4b")).
  - repeat constructor.
  - reflexivity.
  - discriminate.
Defined.

(** C6: whatever the interleaving of the children, [write_entries] writes
    the count of subdirectories, the entries of the subdirectories in
    their relative order, the count of files, and the entries of the files
    in their relative order; two child lists with the same subdirectories
    and the same files, each in the same relative order, are written
    alike. *)
Theorem write_entries_dirs_before_files (name : str) (cs : list Node)
    (f : bytes) :
  write_entries (DirNode name cs) f =
  (c <- pack_B (len (filter is_DirNode cs)) ;;
   ds <- concat_results dir_bytes (filter is_DirNode cs) ;;
   k <- pack_I (len (filter is_FileNode cs)) ;;
   fs <- concat_results file_bytes (filter is_FileNode cs) ;;
   Ok (f ++ c ++ ds ++ k ++ fs))
  /\
  forall cs',
    filter is_DirNode cs' = filter is_DirNode cs ->
    filter is_FileNode cs' = filter is_FileNode cs ->
    write_entries (DirNode name cs') f = write_entries (DirNode name cs) f.
Proof.
  split.
  - rewrite write_entries_eq, concat_results_dirs, concat_results_files.
    reflexivity.
  - intros cs' Hd Hf.
    rewrite !write_entries_eq.
    rewrite (concat_results_dirs cs'), (concat_results_files cs').
    rewrite (concat_results_dirs cs), (concat_results_files cs).
    rewrite Hd, Hf. reflexivity.
Qed.

Lemma write_entries_dirs_before_files_witness :
  let d := DirNode (lit "d") [] in
  let a := FileNode (lit "a") 1 2 in
  let b := FileNode (lit "b") 3 4 in
  write_entries (DirNode [] [a; d; b]) []
  = write_entries (DirNode [] [d; a; b]) [].
Proof.
  intros d a b.
  apply (proj2 (write_entries_dirs_before_files [] [d; a; b] []));
    reflexivity.
Defined.

(** C2: on the nameless root, [size_header] returns the length of the
    preamble plus the number of bytes [write_entries] writes for the tree,
    and it returns the same on any tree with the same shape and names. *)
Theorem size_header_preamble_plus_entries (self : Node) (bs : bytes) :
  name self = [] ->
  write_entries self [] = Ok bs ->
  (exists p,
     preamble = Ok p /\
     size_header self size_header_default = Ok (len p + len bs))
  /\
  forall t,
    strip t = strip self ->
    size_header t size_header_default
    = size_header self size_header_default.
Proof.
  intros Hname H. split.
  - apply size_header_preamble_sized; assumption.
  - intros t Ht.
    rewrite (size_header_strip t), (size_header_strip self), Ht.
    reflexivity.
Qed.

Lemma size_header_preamble_plus_entries_witness :
  let self := DirNode [] [FileNode (lit "a") 3 40;
                          DirNode (lit "d") [FileNode (lit "b") 1 43]] in
  exists bs,
    write_entries self [] = Ok bs /\
    size_header self size_header_default = Ok (23 + len bs) /\
    size_header
      (DirNode [] [FileNode (lit "a") 0 0;
                   DirNode (lit "d") [FileNode (lit "b") 9 9]])
      size_header_default
    = size_header self size_header_default.
Proof.
  intros self. eexists. split; [reflexivity|].
  destruct (size_header_preamble_plus_entries self _ eq_refl eq_refl)
    as [(p & Hp & Hs) Hshape].
  split.
  - rewrite Hs. injection Hp as <-. reflexivity.
  - apply Hshape. reflexivity.
Defined.

(** C4, as stated, fails: a header whose strings are all well formed, one
    of them a name that ends in a null character, is decoded to a tree
    whose encoding is a different byte sequence. *)
Lemma reencode_counterexample :
  let t := DirNode [] [FileNode [97%N; 0%N] 5 6] in
  exists hb cs hb',
    write_entries t [] = Ok hb /\
    read_entries [] hb = Done cs [] /\
    write_entries (DirNode [] cs) [] = Ok hb' /\
    hb' <> hb.
Proof.
  do 3 eexists. split; [reflexivity|]. split; [vm_compute; reflexivity|].
  split; [reflexivity|]. discriminate.
Qed.

(** C4, amended: a header written by [write_entries] for a tree none of
    whose names ends in a null character is decoded by [read_entries],
    up to where the header ends, into children whose encoding is the
    header again. *)
Theorem write_read_write (t : Node) (hb : bytes) :
  write_entries t [] = Ok hb ->
  names_ok t ->
  exists cs,
    (forall rest, read_entries [] (hb ++ rest) = Done cs rest) /\
    write_entries (DirNode (name t) cs) [] = Ok hb.
Proof.
  intros H Hn. exists (children (canon t)). split.
  - intros rest. unfold read_entries.
    rewrite (read_entries_written t hb H Hn); [reflexivity | lia].
  - destruct t as [n s o|n cs]; [discriminate H|].
    change (DirNode (name (DirNode n cs)) (children (canon (DirNode n cs))))
      with (canon (DirNode n cs)).
    rewrite write_entries_canon. exact H.
Qed.

Lemma write_read_write_witness :
  let t := DirNode [] [FileNode (lit "a") 3 40;
                       DirNode (lit "d") [FileNode (lit "b") 1 43]] in
  exists hb cs,
    write_entries t [] = Ok hb /\
    (forall rest, read_entries [] (hb ++ rest) = Done cs rest) /\
    write_entries (DirNode [] cs) [] = Ok hb.
Proof.
  intros t. eexists.
  destruct (write_read_write t _ eq_refl) as (cs & Hr & Hw).
  - cbn. repeat split; discriminate.
  - exists cs. split; [reflexivity|]. split; [exact Hr | exact Hw].
Defined.

(** ** The one-byte subdirectory count *)

Lemma dirs_written_bounded cs :
  Forall (fun c => forall bs, write_entries c [] = Ok bs -> subdirs_bounded c)
    cs ->
  forall ds,
    concat_results dir_bytes cs = Ok ds ->
    fold_right (fun c rest => subdirs_bounded c /\ rest) True cs.
Proof.
  induction 1 as [|c cs Hc _ IH]; intros ds H; [exact I|].
  cbn [concat_results] in H. bind_inv H. bind_inv H.
  split; [|eapply IH; eassumption].
  destruct c as [n s o|n cs']; [exact I|].
  cbn [dir_bytes] in E. bind_inv E. bind_inv E.
  eapply Hc; eassumption.
Qed.

Lemma write_entries_bounded t bs :
  write_entries t [] = Ok bs -> subdirs_bounded t.
Proof.
  revert bs. induction t as [n s o|n cs IH] using Node_ind_Forall;
    intros bs H; [exact I|].
  rewrite write_entries_eq in H. bind_inv H. bind_inv H.
  split.
  - apply pack_B_inv in E. lia.
  - eapply dirs_written_bounded; eassumption.
Qed.

Lemma size_dirs_total cs :
  Forall (fun c => is_DirNode c = true -> forall size,
                   exists n, size_header c size = Ok n) cs ->
  forall size, exists n, for_each size_dirs_body cs size = Ok n.
Proof.
  induction 1 as [|c cs Hc _ IH]; intros size; cbn [for_each].
  - eexists. reflexivity.
  - unfold size_dirs_body at 1. destruct (is_DirNode c) eqn:Ed.
    + destruct (Hc eq_refl size) as [n ->]. cbn [bind]. apply IH.
    + cbn [bind]. apply IH.
Qed.

Lemma size_files_total cs :
  Forall packable (flat_map all_names cs) ->
  forall size, exists n, for_each size_files_body cs size = Ok n.
Proof.
  induction cs as [|c cs IH]; intros Hp size; cbn [for_each].
  - eexists. reflexivity.
  - cbn [flat_map] in Hp. apply Forall_app in Hp as [Hc Hcs].
    destruct c as [n s o|n cs']; cbn [size_files_body].
    + cbn [all_names] in Hc. apply Forall_inv in Hc as [H1 H2].
      destruct (str_pack_total n H1 H2) as [p ->]. cbn [bind].
      apply IH, Hcs.
    + cbn [bind]. apply IH, Hcs.
Qed.

Lemma size_header_total t :
  is_DirNode t = true -> Forall packable (all_names t) ->
  forall size, exists n, size_header t size = Ok n.
Proof.
  induction t as [n s o|n cs IH] using Node_ind_Forall;
    intros Hd Hp size; [discriminate Hd|].
  rewrite size_header_eq. cbn [all_names] in Hp.
  pose proof (Forall_inv Hp) as [H1 H2]. apply Forall_inv_tail in Hp.
  destruct (str_pack_total n H1 H2) as [p ->]. cbn [bind].
  destruct (size_dirs_total cs) with (size := size + len p + 1) as [m ->].
  - rewrite Forall_forall in IH |- *. intros c Hc Hcd. apply IH; try assumption.
    rewrite Forall_forall in Hp |- *. intros x Hx. apply Hp.
    apply in_flat_map. exists c. split; assumption.
  - cbn [bind]. apply size_files_total, Hp.
Qed.

(** C10: [write_entries] succeeds only on trees all of whose directories
    have at most 255 subdirectories, a directory with more makes it raise
    [struct.error], and [size_header] succeeds whatever the number of
    subdirectories, as soon as the names can be packed. *)
Theorem write_entries_subdir_limit (t : Node) (size : Z) :
  (forall f out, write_entries t f = Ok out -> subdirs_bounded t) /\
  (255 < num_subdirs t -> forall f, write_entries t f = Raise StructError) /\
  (is_DirNode t = true -> Forall packable (all_names t) ->
   exists n, size_header t size = Ok n).
Proof.
  split; [|split].
  - intros f out H. rewrite write_entries_appends in H. bind_inv H.
    eapply write_entries_bounded; eassumption.
  - intros Hn f. destruct t as [n s o|n cs]; [discriminate Hn|].
    cbn [write_entries]. unfold pack_B.
    replace (num_subdirs (DirNode n cs) <=? 255) with false
      by (symmetry; apply Z.leb_gt; exact Hn).
    rewrite andb_false_r. reflexivity.
  - intros Hd Hp. apply size_header_total; assumption.
Qed.

Lemma write_entries_subdir_limit_witness :
  let wide := DirNode [] (repeat (DirNode [] []) 256) in
  let small := DirNode [] [DirNode (lit "d") []] in
  subdirs_bounded small /\
  write_entries wide [] = Raise StructError /\
  exists n, size_header wide size_header_default = Ok n.
Proof.
  intros wide small. split; [|split].
  - eapply (proj1 (write_entries_subdir_limit small 0) []).
    reflexivity.
  - apply (proj1 (proj2 (write_entries_subdir_limit wide 0))). reflexivity.
  - apply (proj2 (proj2 (write_entries_subdir_limit wide size_header_default))).
    + reflexivity.
    + change (all_names wide) with (repeat (@nil N) 257).
      apply Forall_forall. intros x Hx. apply repeat_spec in Hx. subst x.
      split; [constructor | reflexivity].
Defined.

(** ** What [from_path] produces *)

Lemma for_each_invariant {A S} (body : A -> S -> result S) (Inv : S -> Prop)
    cs :
  (forall c s s', body c s = Ok s' -> Inv s -> Inv s') ->
  forall s s', for_each body cs s = Ok s' -> Inv s -> Inv s'.
Proof.
  intros Hbody. induction cs as [|c cs IH]; intros s s' H Hs; cbn in H.
  - injection H as <-. exact Hs.
  - bind_inv H. eapply IH; [exact H|]. eapply Hbody; eassumption.
Qed.

Lemma add_at_name self path_parts nodes self' :
  add_at self path_parts nodes = Ok self' -> name self' = name self.
Proof.
  destruct path_parts as [|p ps]; destruct self as [n s o|n cs];
    cbn [add_at]; intros H; try discriminate H.
  - injection H as <-. reflexivity.
  - bind_inv H. injection H as <-. reflexivity.
Qed.

Lemma assign_offsets_name t offset :
  name (fst (assign_offsets t offset)) = name t.
Proof.
  destruct t as [n s o|n cs]; cbn [assign_offsets]; [reflexivity|].
  destruct (map_accum assign_offsets cs offset). reflexivity.
Qed.

Lemma for_each_appends {A} (body : A -> bytes -> result bytes)
    (g : A -> result bytes) cs f out :
  (forall c f0, body c f0 = (b <- g c ;; Ok (f0 ++ b))) ->
  for_each body cs f = Ok out ->
  exists payload, out = f ++ payload.
Proof.
  intros Hbody H. rewrite (for_each_concat g) in H.
  - bind_inv H. injection H as <-. eexists. reflexivity.
  - apply Forall_forall. intros c _ f0. apply Hbody.
Qed.

Lemma from_path_inv fs t archive :
  from_path fs = Ok (t, archive) ->
  exists t0 H p hdr payload,
    name t0 = [] /\
    size_header t0 size_header_default = Ok H /\
    t = fst (assign_offsets t0 H) /\
    preamble = Ok p /\
    write_entries t [] = Ok hdr /\
    archive = p ++ hdr ++ payload.
Proof.
  unfold from_path. intros H.
  apply bind_Ok in H as (t0 & Ht0 & H).
  apply bind_Ok in H as (offset & Hoff & H).
  apply bind_Ok in H as (b1 & Hb1 & H).
  apply bind_Ok in H as (b2 & Hb2 & H).
  apply bind_Ok in H as (b3 & Hb3 & H).
  apply bind_Ok in H as (f & Hf & H).
  apply bind_Ok in H as (f' & Hf' & H).
  injection H as <- <-.
  rewrite write_entries_appends in Hf.
  apply bind_Ok in Hf as (hdr & Hhdr & Hf). injection Hf as <-.
  apply (for_each_appends _ (fun '(_, name, _, _) => read_bytes fs name))
    in Hf' as [payload ->].
  2:{ intros [[[? ?] ?] ?] f0. reflexivity. }
  exists t0, offset, (write (write (write [] b1) b2) b3), hdr, payload.
  split; [|repeat split; try assumption].
  - eapply (for_each_invariant _ (fun s => name s = [])); [|exact Ht0|].
    + intros [[root dirnames] filenames] s s' Hs Hn.
      bind_inv Hs. bind_inv Hs. apply add_at_name in Hs. congruence.
    + reflexivity.
  - unfold preamble. rewrite Hb1, Hb2, Hb3. reflexivity.
  - unfold write. rewrite <- !app_assoc. reflexivity.
Qed.

(** ** Opening what [from_path] wrote *)

Lemma str_eqb_eq a b : str_eqb a b = true <-> a = b.
Proof.
  revert b. induction a as [|x a IH]; intros [|y b]; cbn [str_eqb];
    try (split; [discriminate | discriminate]); [tauto|].
  rewrite andb_true_iff, N.eqb_eq, IH. split.
  - intros [-> ->]. reflexivity.
  - intros H. injection H as -> ->. split; reflexivity.
Qed.

Lemma str_eqb_refl a : str_eqb a a = true.
Proof. apply str_eqb_eq. reflexivity. Qed.

Lemma mmap_nonempty c : (0 < length c)%nat -> mmap c = Ok c.
Proof. destruct c; simpl; [lia | reflexivity]. Qed.

Lemma preamble_inv p :
  preamble = Ok p ->
  exists b1 b2 b3,
    str_pack magic_sig = Ok b1 /\ pack_I 1 = Ok b2 /\ str_pack [] = Ok b3 /\
    p = b1 ++ b2 ++ b3.
Proof.
  unfold preamble. intros H.
  apply bind_Ok in H as (b1 & H1 & H).
  apply bind_Ok in H as (b2 & H2 & H).
  apply bind_Ok in H as (b3 & H3 & H).
  injection H as <-. exists b1, b2, b3. repeat split; try assumption.
  unfold write. rewrite <- app_assoc. reflexivity.
Qed.

Lemma canon_root n cs :
  DirNode n (children (canon (DirNode n cs))) = canon (DirNode n cs).
Proof. reflexivity. Qed.

Lemma open_packed t p hdr :
  preamble = Ok p -> write_entries t [] = Ok hdr ->
  names_ok t -> name t = [] ->
  forall path payload,
    BigFile_open path (p ++ hdr ++ payload)
    = Ok {| root := canon t;
            buffer := p ++ hdr ++ payload;
            num_entries := len (files_default (canon t)) |}.
Proof.
  intros Hp Hw Hn Hname path payload.
  apply preamble_inv in Hp as (b1 & b2 & b3 & H1 & H2 & H3 & ->).
  destruct t as [n s o|n cs]; [discriminate Hw|].
  cbn [name] in Hname. subst n.
  unfold BigFile_open.
  rewrite mmap_nonempty.
  2:{ pose proof (str_pack_min_length _ _ H1).
      rewrite !length_app. lia. }
  cbn [bind]. rewrite <- !app_assoc.
  rewrite (str_unpack_str_pack_ok magic_sig b1 _ H1)
    by (vm_compute; discriminate).
  cbn [bind].
  rewrite (read_app b2)
    by (unfold len; rewrite (pack_I_length _ _ H2); reflexivity).
  rewrite (unpack_I_pack_I _ _ H2). cbn [bind].
  rewrite (str_unpack_str_pack_ok [] b3 _ H3) by (vm_compute; discriminate).
  cbn [bind]. rewrite !str_eqb_refl. cbn [negb orb Z.eqb Pos.eqb].
  unfold read_entries.
  rewrite (read_entries_written _ hdr Hw Hn) by lia.
  cbn [app]. rewrite canon_root. rewrite !app_assoc. reflexivity.
Qed.

(** ** The two enumerations *)

Lemma canon_name t : name (canon t) = name t.
Proof. destruct t; reflexivity. Qed.

Lemma files_eq n cs path :
  files (DirNode n cs) path = flat_map (files_step path) cs.
Proof. reflexivity. Qed.

Lemma files_canon_perm t path :
  Permutation (files t path) (files (canon t) path).
Proof.
  revert path. induction t as [n s o|n cs IH] using Node_ind_Forall;
    intros path; [reflexivity|].
  cbn [canon]. rewrite !files_eq, flat_map_app.
  induction IH as [|c cs Hc _ IHcs]; [reflexivity|].
  destruct c as [m s o|m cs'].
  - cbn [canon_dirs flat_map filter is_FileNode files_step app].
    eapply Permutation_trans;
      [apply perm_skip, IHcs | apply Permutation_middle].
  - cbn [canon_dirs flat_map filter is_FileNode].
    rewrite flat_map_app, <- app_assoc.
    apply Permutation_app; [|exact IHcs].
    cbn [flat_map]. rewrite app_nil_r.
    change (files_step path (DirNode m cs'))
      with (files (DirNode m cs') (joinpath path m)).
    change (files_step path (canon (DirNode m cs')))
      with (files (canon (DirNode m cs')) (joinpath path m)).
    apply Hc.
Qed.

Lemma fold_right_and_Forall {A} (P : A -> Prop) l :
  fold_right (fun c rest => P c /\ rest) True l <-> Forall P l.
Proof.
  induction l as [|x l IH]; cbn [fold_right].
  - split; [constructor | trivial].
  - rewrite IH. split.
    + intros [H1 H2]. constructor; assumption.
    + intros H. split; [exact (Forall_inv H) | exact (Forall_inv_tail H)].
Qed.

Lemma canon_dirs_first t : dirs_first (canon t).
Proof.
  induction t as [n s o|n cs IH] using Node_ind_Forall; [exact I|].
  cbn [canon dirs_first]. split.
  - rewrite !filter_app, canon_dirs_map.
    rewrite filter_map_canon_dirs, filter_dirs_files.
    rewrite filter_files_map_canon_dirs, filter_idem, app_nil_r.
    reflexivity.
  - apply fold_right_and_Forall, Forall_app. split.
    + rewrite canon_dirs_map. apply Forall_forall. intros c Hc.
      apply in_map_iff in Hc as (c0 & <- & Hc0).
      apply filter_In in Hc0 as [Hc0 _].
      rewrite Forall_forall in IH. apply IH, Hc0.
    + apply Forall_forall. intros c Hc. apply filter_In in Hc as [_ Hc].
      destruct c; [exact I | discriminate Hc].
Qed.

Lemma dirs_first_canon t : dirs_first t -> canon t = t.
Proof.
  induction t as [n s o|n cs IH] using Node_ind_Forall; [reflexivity|].
  intros [Hcs Hall]. cbn [canon]. f_equal.
  rewrite Hcs at 3. f_equal. rewrite canon_dirs_map.
  apply fold_right_and_Forall in Hall.
  rewrite <- (map_id (filter is_DirNode cs)) at 2.
  apply map_ext_in. intros c Hc. apply filter_In in Hc as [Hc _].
  rewrite Forall_forall in IH, Hall. apply IH; [exact Hc | apply Hall, Hc].
Qed.

(** C1, as stated, fails: packing enumerates the file of the root before
    the file of its subdirectory, and the listing of the archive that was
    written enumerates them the other way round. *)
Lemma enumeration_order_counterexample :
  exists t archive bf,
    from_path src_example = Ok (t, archive) /\
    BigFile_open [] archive = Ok bf /\
    listing (files t [])
    = [([lit "a"], 2, 67); ([lit "d"; lit "b"], 1, 69)] /\
    listing (files_default (root bf))
    = [([lit "d"; lit "b"], 1, 69); ([lit "a"], 2, 67)] /\
    files t [] <> files_default (root bf).
Proof.
  do 3 eexists. split; [reflexivity|]. split; [vm_compute; reflexivity|].
  split; [reflexivity|]. split; [reflexivity|]. discriminate.
Qed.

(** C1, amended: when no name ends in a null character, the archive that
    [from_path] wrote opens into the tree of the packer with every
    directory reordered into its disk form, subdirectories before files;
    the listing of the opened archive is therefore depth-first with the
    subdirectories of a directory before its direct files, it holds the
    same entries as the enumeration that assigned the offsets, and it is
    that enumeration when the packer's tree already had its subdirectories
    before its files. *)
Theorem pack_open_enumeration (fs : FsNode) (t : Node) (archive : bytes)
    (path : Path) :
  from_path fs = Ok (t, archive) ->
  names_ok t ->
  exists bf,
    BigFile_open path archive = Ok bf /\
    root bf = canon t /\
    dirs_first (root bf) /\
    Permutation (files t []) (files_default (root bf)) /\
    (dirs_first t -> files_default (root bf) = files t []).
Proof.
  intros H Hn.
  apply from_path_inv in H
    as (t0 & H0 & p & hdr & payload & Hname0 & Hsize & Ht & Hp & Hw & ->).
  assert (Hname : name t = []).
  { rewrite Ht, assign_offsets_name. exact Hname0. }
  eexists. split; [apply (open_packed t p hdr Hp Hw Hn Hname)|].
  cbn [root]. split; [reflexivity|].
  split; [apply canon_dirs_first|].
  unfold files_default. rewrite canon_name, Hname.
  split; [apply files_canon_perm|].
  intros Hd. rewrite (dirs_first_canon t Hd). reflexivity.
Qed.

Lemma pack_open_enumeration_witness :
  exists t archive,
    from_path src_example = Ok (t, archive) /\
    exists bf,
      BigFile_open [] archive = Ok bf /\
      root bf = canon t /\
      dirs_first (root bf) /\
      Permutation (files t []) (files_default (root bf)) /\
      (dirs_first t -> files_default (root bf) = files t []).
Proof.
  do 2 eexists. split; [reflexivity|].
  apply (pack_open_enumeration src_example).
  - reflexivity.
  - cbn. repeat split; discriminate.
Defined.

(** ** Offsets *)

Lemma total_size_app l1 l2 :
  total_size (l1 ++ l2) = total_size l1 + total_size l2.
Proof.
  induction l1 as [|e l1 IH]; cbn [app total_size]; lia.
Qed.

Lemma contiguous_app start l1 l2 :
  contiguous start (l1 ++ l2) <->
  contiguous start l1 /\ contiguous (start + total_size l1) l2.
Proof.
  revert start. induction l1 as [|e l1 IH]; intros start;
    cbn [app contiguous total_size].
  - rewrite Z.add_0_r. tauto.
  - rewrite IH, Z.add_assoc. tauto.
Qed.

Lemma assign_children cs :
  Forall assigned cs ->
  forall offset path,
    contiguous offset
      (flat_map (files_step path) (fst (map_accum assign_offsets cs offset)))
    /\
    snd (map_accum assign_offsets cs offset)
    = offset
      + total_size
          (flat_map (files_step path)
             (fst (map_accum assign_offsets cs offset))).
Proof.
  induction 1 as [|c cs Hc _ IH]; intros offset path.
  - cbn. split; [exact I | lia].
  - cbn [map_accum].
    destruct (assign_offsets c offset) as [c' o1] eqn:Ec.
    destruct (map_accum assign_offsets cs o1) as [cs' o2] eqn:Ecs.
    cbn [fst snd flat_map].
    specialize (IH o1 path). rewrite Ecs in IH. cbn [fst snd] in IH.
    destruct IH as [IH1 IH2].
    rewrite contiguous_app, total_size_app.
    destruct c as [n s o|n cs0].
    + cbn [assign_offsets] in Ec. injection Ec as <- <-.
      cbn [files_step contiguous total_size entry_offset
             entry_size fst snd].
      rewrite Z.add_0_r. repeat split; [exact IH1 | lia].
    + specialize (Hc eq_refl offset (joinpath path n)). rewrite Ec in Hc.
      cbn [fst snd] in Hc. destruct Hc as [Hc1 Hc2].
      assert (En : exists cs1, c' = DirNode n cs1).
      { cbn [assign_offsets] in Ec.
        destruct (map_accum assign_offsets cs0 offset).
        injection Ec as <- _. eexists. reflexivity. }
      destruct En as [cs1 ->]. cbn [files_step].
      rewrite <- Hc2. repeat split; [exact Hc1 | exact IH1 | lia].
Qed.

Lemma assign_offsets_assigned t : assigned t.
Proof.
  induction t as [n s o|n cs IH] using Node_ind_Forall;
    intros Hd offset path; [discriminate Hd|].
  cbn [assign_offsets].
  pose proof (assign_children cs IH offset path) as H.
  destruct (map_accum assign_offsets cs offset) as [cs' o'].
  cbn [fst snd] in *. rewrite files_eq. exact H.
Qed.

Lemma strip_assign_offsets t offset :
  strip (fst (assign_offsets t offset)) = strip t.
Proof.
  revert offset. induction t as [n s o|n cs IH] using Node_ind_Forall;
    intros offset; [reflexivity|].
  cbn [assign_offsets].
  assert (G : forall o1,
             map strip (fst (map_accum assign_offsets cs o1)) = map strip cs).
  { induction IH as [|c cs Hc _ IHcs]; intros o1; [reflexivity|].
    cbn [map_accum]. specialize (Hc o1).
    destruct (assign_offsets c o1) as [c' o2]. specialize (IHcs o2).
    destruct (map_accum assign_offsets cs o2) as [cs' o3].
    cbn [fst map] in *. rewrite Hc, IHcs. reflexivity. }
  specialize (G offset).
  destruct (map_accum assign_offsets cs offset) as [cs' o'].
  cbn [fst strip] in *. rewrite G. reflexivity.
Qed.

Lemma concat_results_In {A} (g : A -> result bytes) l bs c :
  concat_results g l = Ok bs -> In c l -> exists b, g c = Ok b.
Proof.
  revert bs. induction l as [|x l IH]; intros bs H Hc; [destruct Hc|].
  cbn [concat_results] in H. bind_inv H. bind_inv H.
  destruct Hc as [<-|Hc]; [eexists; eassumption | eapply IH; eassumption].
Qed.

Lemma written_sizes t :
  forall bs path,
    write_entries t [] = Ok bs ->
    Forall (fun e => 0 <= entry_size e) (files t path).
Proof.
  induction t as [n s o|n cs IH] using Node_ind_Forall; intros bs path H.
  - constructor.
  - rewrite write_entries_eq in H.
    apply bind_Ok in H as (c & _ & H).
    apply bind_Ok in H as (ds & Hds & H).
    apply bind_Ok in H as (k & _ & H).
    apply bind_Ok in H as (fs & Hfs & _).
    rewrite files_eq. apply Forall_forall. intros e He.
    apply in_flat_map in He as (child & Hchild & He).
    destruct child as [m s o|m cs'].
    + destruct He as [<-|[]]. cbn [entry_size fst snd].
      destruct (concat_results_In _ _ _ _ Hfs Hchild) as [b Hb].
      cbn [file_bytes] in Hb. bind_inv Hb. bind_inv Hb.
      apply pack_I_inv in E0. lia.
    + destruct (concat_results_In _ _ _ _ Hds Hchild) as [b Hb].
      cbn [dir_bytes] in Hb. bind_inv Hb. bind_inv Hb.
      rewrite Forall_forall in IH.
      specialize (IH _ Hchild _ (joinpath path m) E0).
      rewrite Forall_forall in IH. apply IH. exact He.
Qed.

Lemma contiguous_lower_bound l :
  forall start,
    contiguous start l -> Forall (fun e => 0 <= entry_size e) l ->
    Forall (fun e => start <= entry_offset e) l.
Proof.
  induction l as [|e l IH]; intros start Hc Hs; constructor.
  - destruct Hc as [-> _]. lia.
  - destruct Hc as [_ Hc]. pose proof (Forall_inv Hs) as He.
    apply Forall_inv_tail in Hs. specialize (IH _ Hc Hs).
    cbv beta in He.
    eapply Forall_impl; [|exact IH]. cbv beta. intros e0 H0. lia.
Qed.

(** A stable sort leaves a list whose keys already ascend as it is. *)
Lemma sorted_contiguous l :
  forall start,
    contiguous start l -> Forall (fun e => 0 <= entry_size e) l ->
    sorted by_offset l = l.
Proof.
  induction l as [|e l IH]; intros start Hc Hs; [reflexivity|].
  destruct Hc as [He Hc]. pose proof (Forall_inv Hs) as Hse.
  cbv beta in Hse. apply Forall_inv_tail in Hs.
  cbn [sorted fold_right]. fold (sorted by_offset l).
  rewrite (IH _ Hc Hs). destruct l as [|e' l']; [reflexivity|].
  cbn [insert_sorted]. unfold by_offset. destruct Hc as [He' _].
  replace (entry_offset e <=? entry_offset e') with true; [reflexivity|].
  symmetry. apply Z.leb_le. lia.
Qed.

Lemma contiguous_no_overlap l :
  forall start,
    contiguous start l -> Forall (fun e => 0 <= entry_size e) l ->
    ForallOrdPairs
      (fun e1 e2 => entry_offset e1 + entry_size e1 <= entry_offset e2) l.
Proof.
  induction l as [|e l IH]; intros start Hc Hs; constructor.
  - destruct Hc as [-> Hc]. apply Forall_inv_tail in Hs.
    exact (contiguous_lower_bound _ _ Hc Hs).
  - destruct Hc as [_ Hc]. apply Forall_inv_tail in Hs.
    exact (IH _ Hc Hs).
Qed.


(** ** What [read_entries] can do on any stream *)

Lemma unpack_B_raise b e : unpack_B b = Raise e -> e = StructError.
Proof.
  destruct b as [|b0 [|? ?]]; unfold unpack_B; intros H;
    congruence.
Qed.

Lemma unpack_I_raise b e : unpack_I b = Raise e -> e = StructError.
Proof.
  destruct b as [|b0 [|b1 [|b2 [|b3 [|? ?]]]]]; unfold unpack_I; intros H;
    congruence.
Qed.

Lemma unpack_II_raise b e : unpack_II b = Raise e -> e = StructError.
Proof.
  unfold unpack_II. destruct (length b =? 8)%nat; [|congruence].
  destruct (unpack_I (firstn 4 b)) eqn:E1; cbn [bind].
  - destruct (unpack_I (skipn 4 b)) eqn:E2; cbn [bind]; [discriminate|].
    intros H. injection H as <-. eapply unpack_I_raise, E2.
  - intros H. injection H as <-. eapply unpack_I_raise, E1.
Qed.

Lemma unpack_II_inv b size offset :
  unpack_II b = Ok (size, offset) ->
  length b = 8%nat /\
  unpack_I (firstn 4 b) = Ok size /\ unpack_I (skipn 4 b) = Ok offset.
Proof.
  unfold unpack_II. destruct (length b =? 8)%nat eqn:El; [|discriminate].
  apply Nat.eqb_eq in El. intros H. bind_inv H. bind_inv H.
  injection H as <- <-. repeat split; assumption.
Qed.

Lemma read_lengths n f :
  (length (fst (read n f)) + length (snd (read n f)) = length f)%nat.
Proof.
  unfold read. cbn [fst snd].
  rewrite <- (firstn_skipn (Z.to_nat n) f) at 3. rewrite length_app.
  reflexivity.
Qed.

Lemma str_unpack_raise f e : str_unpack f = Raise e -> e = StructError.
Proof.
  unfold str_unpack. destruct (read 4 f) as [b4 f1].
  destruct (unpack_I b4) eqn:E; cbn [bind].
  - destruct (read a f1). discriminate.
  - intros H. injection H as <-. eapply unpack_I_raise, E.
Qed.

Lemma str_unpack_consumes f s f' :
  str_unpack f = Ok (s, f') -> (length f' + 4 <= length f)%nat.
Proof.
  unfold str_unpack. pose proof (read_lengths 4 f) as L4.
  destruct (read 4 f) as [b4 f1]. cbn [fst snd] in L4.
  destruct (unpack_I b4) as [len_str|] eqn:E; cbn [bind]; [|discriminate].
  apply unpack_I_length in E.
  pose proof (read_lengths len_str f1) as L.
  destruct (read len_str f1) as [b f2]. cbn [fst snd] in L.
  intros H. injection H as _ <-. lia.
Qed.

Lemma on_top_refl (acc : list Node) : exists a, acc = acc ++ a.
Proof. exists []. rewrite app_nil_r. reflexivity. Qed.

Lemma on_top_add (acc : list Node) x l :
  (exists a, l = add acc x ++ a) -> exists a, l = acc ++ a.
Proof.
  intros [a ->]. exists ([x] ++ a). unfold add. rewrite app_assoc.
  reflexivity.
Qed.

Lemma read_files_outcome n :
  forall acc f, outcome_ok (S (length f)) acc f (read_files n acc f).
Proof.
  induction n as [|n IH]; intros acc f; cbn [read_files].
  - split; [tauto|]. split; [lia | apply on_top_refl].
  - destruct (str_unpack f) as [[s f1]|e] eqn:Es.
    2:{ split; [eapply str_unpack_raise, Es | apply on_top_refl]. }
    apply str_unpack_consumes in Es.
    pose proof (read_lengths 8 f1) as L8.
    destruct (read 8 f1) as [b8 f2]. cbn [fst snd] in L8.
    destruct (unpack_II b8) as [[size offset]|e] eqn:E8.
    2:{ split; [eapply unpack_II_raise, E8 | apply on_top_refl]. }
    apply unpack_II_inv in E8 as (_ & E1 & E2).
    apply unpack_I_range in E1, E2.
    specialize (IH (add acc (FileNode s size offset)) f2).
    destruct (read_files n _ f2) as [cs f'|e part|];
      unfold outcome_ok in IH |- *.
    + destruct IH as (IH1 & IH2 & IH3). split; [|split; [lia|]].
      * intros Hacc. apply IH1, Forall_app. split; [exact Hacc|].
        repeat constructor; lia.
      * eapply on_top_add, IH3.
    + destruct IH as [IH1 IH2]. split; [exact IH1|].
      eapply on_top_add, IH2.
    + lia.
Qed.

Lemma read_dirs_outcome rec bound n :
  (forall acc f, outcome_ok bound acc f (rec acc f)) ->
  forall acc f, outcome_ok bound acc f (read_dirs rec n acc f).
Proof.
  intros Hrec. induction n as [|n IH]; intros acc f; cbn [read_dirs].
  - split; [tauto|]. split; [lia | apply on_top_refl].
  - destruct (str_unpack f) as [[s f1]|e] eqn:Es.
    2:{ split; [eapply str_unpack_raise, Es | apply on_top_refl]. }
    apply str_unpack_consumes in Es.
    specialize (Hrec [] f1).
    destruct (rec [] f1) as [dcs f2|e part|]; unfold outcome_ok in Hrec |- *.
    + destruct Hrec as (Hd & Hl & _).
      specialize (IH (add acc (DirNode s dcs)) f2).
      destruct (read_dirs rec n _ f2) as [cs f'|e part|];
        unfold outcome_ok in IH |- *.
      * destruct IH as (IH1 & IH2 & IH3). split; [|split; [lia|]].
        -- intros Hacc. apply IH1, Forall_app. split; [exact Hacc|].
           constructor; [|constructor].
           apply fold_right_and_Forall, Hd. constructor.
        -- eapply on_top_add, IH3.
      * destruct IH as [IH1 IH2]. split; [exact IH1|].
        eapply on_top_add, IH2.
      * lia.
    + split; [apply Hrec | apply on_top_refl].
    + lia.
Qed.

Lemma read_entries_fuel_S fuel acc f :
  read_entries_fuel (S fuel) acc f =
  let '(b1, f) := read 1 f in
  match unpack_B b1 with
  | Raise e => Raised e acc
  | Ok num_dirs =>
      match read_dirs (read_entries_fuel fuel) (Z.to_nat num_dirs) acc f with
      | Done children f =>
          let '(b4, f) := read 4 f in
          match unpack_I b4 with
          | Raise e => Raised e children
          | Ok num_files => read_files (Z.to_nat num_files) children f
          end
      | o => o
      end
  end.
Proof. reflexivity. Qed.

Lemma unpack_B_length b n : unpack_B b = Ok n -> length b = 1%nat.
Proof.
  destruct b as [|? [|? ?]]; intros H; try discriminate H. reflexivity.
Qed.

Lemma read_entries_fuel_outcome fuel :
  forall acc f, outcome_ok fuel acc f (read_entries_fuel fuel acc f).
Proof.
  induction fuel as [|fuel IH]; intros acc f.
  - unfold outcome_ok. cbn. lia.
  - rewrite read_entries_fuel_S.
    pose proof (read_lengths 1 f) as L1.
    destruct (read 1 f) as [b1 f1]. cbn [fst snd] in L1.
    destruct (unpack_B b1) as [num_dirs|e] eqn:E1.
    2:{ split; [eapply unpack_B_raise, E1 | apply on_top_refl]. }
    apply unpack_B_length in E1.
    pose proof (read_dirs_outcome (read_entries_fuel fuel) fuel
                  (Z.to_nat num_dirs) IH acc f1) as Hd.
    destruct (read_dirs _ _ acc f1) as [cs f2|e part|];
      unfold outcome_ok in Hd |- *.
    + destruct Hd as (Hcs & Hl & [more1 Hmore1]).
      pose proof (read_lengths 4 f2) as L4.
      destruct (read 4 f2) as [b4 f3]. cbn [fst snd] in L4.
      destruct (unpack_I b4) as [num_files|e] eqn:E4.
      2:{ split; [eapply unpack_I_raise, E4 | exists more1; exact Hmore1]. }
      pose proof (read_files_outcome (Z.to_nat num_files) cs f3) as Hf.
      destruct (read_files _ cs f3) as [cs' f4|e part|];
        unfold outcome_ok in Hf |- *.
      * destruct Hf as (Hf1 & Hf2 & [more2 Hmore2]).
        split; [tauto|]. split; [lia|].
        exists (more1 ++ more2). rewrite Hmore2, Hmore1, app_assoc.
        reflexivity.
      * destruct Hf as [Hf1 [a Ha]]. split; [exact Hf1|].
        exists (more1 ++ a). rewrite Ha, Hmore1, app_assoc. reflexivity.
      * lia.
    + exact Hd.
    + lia.
Qed.

Lemma read_entries_outcome acc f :
  match read_entries acc f with
  | Done cs f' =>
      (Forall leaves_in_range acc -> Forall leaves_in_range cs) /\
      (length f' <= length f)%nat /\
      exists more, cs = acc ++ more
  | Raised e part => e = StructError /\ exists a, part = acc ++ a
  | OutOfFuel => False
  end.
Proof.
  unfold read_entries.
  pose proof (read_entries_fuel_outcome (S (length f)) acc f) as H.
  destruct (read_entries_fuel _ acc f); unfold outcome_ok in H;
    [exact H | exact H | lia].
Qed.

(** ** Opening any file *)

Lemma BigFile_open_eq path content magic f1 b4 f2 version name_root f3 :
  str_unpack content = Ok (magic, f1) ->
  read 4 f1 = (b4, f2) ->
  unpack_I b4 = Ok version ->
  str_unpack f2 = Ok (name_root, f3) ->
  BigFile_open path content =
  if negb (str_eqb magic magic_sig) || negb (version =? 1)
     || negb (str_eqb name_root [])
  then Raise (ValueError (not_big_file path magic version name_root))
  else
    match read_entries [] f3 with
    | Done children _ =>
        Ok {| root := DirNode name_root children; buffer := content;
              num_entries := len (files_default (DirNode name_root children)) |}
    | Raised e _ => Raise e
    | OutOfFuel => Raise RecursionError
    end.
Proof.
  intros Hm Hr Hv Hn. unfold BigFile_open.
  rewrite mmap_nonempty by (apply str_unpack_consumes in Hm; lia).
  cbn [bind]. rewrite Hm. cbn [bind]. rewrite Hr, Hv. cbn [bind].
  rewrite Hn. cbn [bind]. reflexivity.
Qed.

Lemma preamble_mismatch magic version name_root :
  negb (str_eqb magic magic_sig) || negb (version =? 1)
  || negb (str_eqb name_root []) = true
  <-> magic <> magic_sig \/ version <> 1 \/ name_root <> [].
Proof.
  rewrite !orb_true_iff, !negb_true_iff.
  rewrite <- !not_true_iff_false, !str_eqb_eq, Z.eqb_eq. tauto.
Qed.

(** C7, as stated, fails twice: the message of the error carries the
    values read for all three fields, whichever is wrong, and nowhere the
    value that was expected; and a file whose preamble is right but whose
    header is cut short is refused as well, by [struct.error]. *)
Lemma open_error_counterexample :
  (exists content m,
     example_archive (lit "WRONG_SIG") 1 []
       [Byte.x00; Byte.x00; Byte.x00; Byte.x00; Byte.x00] = Ok content /\
     BigFile_open [lit "x.m4b"] content = Raise (ValueError m) /\
     m = not_big_file [lit "x.m4b"] (lit "WRONG_SIG") 1 [] /\
     In (DbgInt "version" 1) m /\
     In (DbgStr "name_root" []) m /\
     forall field, ~ In (DbgStr field magic_sig) m)
  /\
  (exists content,
     example_archive magic_sig 1 [] [] = Ok content /\
     BigFile_open [lit "x.m4b"] content = Raise StructError).
Proof.
  split.
  - do 2 eexists. split; [reflexivity|]. split; [vm_compute; reflexivity|].
    split; [reflexivity|]. split; [cbn; tauto|]. split; [cbn; tauto|].
    intros field H.
    repeat (destruct H as [H|H]; [discriminate H || (injection H as _ H;
                                                      discriminate H)|]).
    exact H.
  - eexists. split; [reflexivity|]. vm_compute. reflexivity.
Qed.

(** C7, amended: on a file whose three preamble fields can be read,
    opening raises [ValueError] exactly when the magic string is not
    "UBI_BF_SIG", or the version is not 1, or the root name is not empty;
    no [BigFile] results, and the message is the one built from the three
    values read.  Opening fails in other ways too: an empty file is
    refused by [mmap], with another [ValueError]; a file that ends before
    a length or the version can be read raises [struct.error]; and behind
    a right preamble, the interpreter's limit on the depth of recursion
    left aside, a header that [read_entries] cannot decode raises
    [struct.error], while one it decodes opens. *)
Theorem open_rejects_preamble (path : Path) (content : bytes) :
  (content = [] ->
   BigFile_open path content
   = Raise (ValueError [Lit "cannot mmap an empty file"]))
  /\
  (content <> [] ->
   forall e,
     str_unpack content = Raise e \/
     (exists magic f1,
        str_unpack content = Ok (magic, f1) /\
        (unpack_I (fst (read 4 f1)) = Raise e \/
         exists version,
           unpack_I (fst (read 4 f1)) = Ok version /\
           str_unpack (snd (read 4 f1)) = Raise e)) ->
     e = StructError /\ BigFile_open path content = Raise StructError)
  /\
  (forall magic f1 version name_root f3,
     str_unpack content = Ok (magic, f1) ->
     unpack_I (fst (read 4 f1)) = Ok version ->
     str_unpack (snd (read 4 f1)) = Ok (name_root, f3) ->
     (magic <> magic_sig \/ version <> 1 \/ name_root <> [] <->
      exists m, BigFile_open path content = Raise (ValueError m))
     /\
     (forall m,
        BigFile_open path content = Raise (ValueError m) ->
        m = not_big_file path magic version name_root)
     /\
     (magic = magic_sig -> version = 1 -> name_root = [] ->
      (forall e part,
         read_entries [] f3 = Raised e part ->
         BigFile_open path content = Raise StructError) /\
      (forall cs f',
         read_entries [] f3 = Done cs f' ->
         exists bf,
           BigFile_open path content = Ok bf /\ root bf = DirNode [] cs))).
Proof.
  split; [|split].
  - intros ->. reflexivity.
  - intros Hne e He. unfold BigFile_open.
    destruct content as [|x content]; [contradiction|].
    cbn [mmap bind].
    destruct He as [He|(magic & f1 & Hm & He)].
    + rewrite He. cbn [bind]. pose proof (str_unpack_raise _ _ He) as ->.
      split; reflexivity.
    + rewrite Hm. cbn [bind]. destruct (read 4 f1) as [b4 f2].
      cbn [fst snd] in He. destruct He as [He|(version & Hv & He)].
      * rewrite He. cbn [bind]. pose proof (unpack_I_raise _ _ He) as ->.
        split; reflexivity.
      * rewrite Hv. cbn [bind]. rewrite He. cbn [bind].
        pose proof (str_unpack_raise _ _ He) as ->. split; reflexivity.
  - intros magic f1 version name_root f3 Hm Hv Hn.
    destruct (read 4 f1) as [b4 f2] eqn:Hr. cbn [fst snd] in Hv, Hn.
    rewrite (BigFile_open_eq path content _ _ _ _ _ _ _ Hm Hr Hv Hn).
    pose proof (preamble_mismatch magic version name_root) as Hiff.
    pose proof (read_entries_outcome [] f3) as Ho.
    destruct (negb (str_eqb magic magic_sig) || negb (version =? 1)
              || negb (str_eqb name_root [])).
    + split; [|split].
      * split; [intros _; eexists; reflexivity | intros _; apply Hiff;
                                                 reflexivity].
      * intros m H. injection H as <-. reflexivity.
      * intros -> -> ->.
        destruct (proj1 Hiff eq_refl) as [H|[H|H]]; contradiction.
    + split; [|split].
      * split; [intros H; apply Hiff in H; discriminate H|].
        intros [m H].
        destruct (read_entries [] f3) as [cs f'|e part|];
          [discriminate H | | destruct Ho].
        destruct Ho as [-> _]. discriminate H.
      * intros m H.
        destruct (read_entries [] f3) as [cs f'|e part|];
          [discriminate H | | destruct Ho].
        destruct Ho as [-> _]. discriminate H.
      * intros _ _ ->. split.
        -- intros e part E. rewrite E in Ho |- *.
           destruct Ho as [-> _]. reflexivity.
        -- intros cs f' E. rewrite E. eexists. split; reflexivity.
Qed.

Lemma open_rejects_preamble_witness :
  (exists m,
     BigFile_open [lit "x.m4b"]
       [Byte.x02; Byte.x00; Byte.x00; Byte.x00; Byte.x58; Byte.x00;
        Byte.x02; Byte.x00; Byte.x00; Byte.x00;
        Byte.x00; Byte.x00; Byte.x00; Byte.x00]
     = Raise (ValueError m))
  /\
  BigFile_open [lit "x.m4b"] [Byte.x02; Byte.x00; Byte.x00]
  = Raise StructError.
Proof.
  split.
  - apply (proj1 (proj2 (proj2 (open_rejects_preamble [lit "x.m4b"]
                    [Byte.x02; Byte.x00; Byte.x00; Byte.x00; Byte.x58;
                     Byte.x00;
                     Byte.x02; Byte.x00; Byte.x00; Byte.x00;
                     Byte.x00; Byte.x00; Byte.x00; Byte.x00]))
                  (lit "X") _ 2 [] []
                  eq_refl eq_refl eq_refl)).
    left. discriminate.
  - apply (proj1 (proj2 (open_rejects_preamble [lit "x.m4b"]
                    [Byte.x02; Byte.x00; Byte.x00]))
             ltac:(discriminate) StructError).
    left. reflexivity.
Defined.

(** ** Extraction *)

Lemma files_length t :
  forall path path', length (files t path) = length (files t path').
Proof.
  induction t as [n s o|n cs IH] using Node_ind_Forall; intros path path';
    [reflexivity|].
  rewrite !files_eq.
  induction IH as [|c cs Hc _ IHcs]; [reflexivity|].
  cbn [flat_map]. rewrite !length_app, IHcs. f_equal.
  destruct c as [m s o|m cs']; [reflexivity|]. apply Hc.
Qed.

Lemma BigFile_open_inv path content bf :
  BigFile_open path content = Ok bf ->
  buffer bf = content /\
  num_entries bf = len (files_default (root bf)) /\
  leaves_in_range (root bf).
Proof.
  unfold BigFile_open. intros H.
  apply bind_Ok in H as (buf & Hbuf & H).
  assert (buf = content) as ->.
  { destruct content; [discriminate Hbuf | injection Hbuf as <-; reflexivity]. }
  apply bind_Ok in H as ([magic f1] & _ & H).
  destruct (read 4 f1) as [b4 f2].
  apply bind_Ok in H as (version & _ & H).
  apply bind_Ok in H as ([name_root f3] & _ & H).
  destruct (_ || _); [discriminate H|].
  pose proof (read_entries_outcome [] f3) as Ho.
  destruct (read_entries [] f3) as [cs f'|e part|]; try discriminate H.
  injection H as <-. cbn [buffer num_entries root].
  split; [reflexivity|]. split; [reflexivity|].
  apply fold_right_and_Forall, Ho. constructor.
Qed.

Lemma files_in_range t :
  leaves_in_range t ->
  forall path,
    Forall (fun e => 0 <= entry_size e < 4294967296 /\
                     0 <= entry_offset e < 4294967296) (files t path).
Proof.
  induction t as [n s o|n cs IH] using Node_ind_Forall; intros Hr path;
    [constructor|].
  cbn [leaves_in_range] in Hr. apply fold_right_and_Forall in Hr.
  rewrite files_eq. apply Forall_forall. intros e He.
  apply in_flat_map in He as (c & Hc & He).
  rewrite Forall_forall in IH, Hr. specialize (IH c Hc (Hr c Hc)).
  destruct c as [m s o|m cs'].
  - destruct He as [<-|[]]. exact (Hr _ Hc).
  - specialize (IH (joinpath path m)). rewrite Forall_forall in IH.
    apply IH, He.
Qed.

Lemma extract_loop (self : BigFile) l out :
  num_entries self <> 0 \/ l = [] ->
  for_each (fun '(_, name, length, offset) out =>
              let out :=
                write_bytes out name
                  (py_slice (buffer self) offset (offset + length)) in
              if num_entries self =? 0 then Raise ZeroDivisionError
              else Ok out) l out
  = Ok (out ++ map (extracted (buffer self)) l).
Proof.
  intros [Hn | ->].
  - apply Z.eqb_neq in Hn. rewrite Hn.
    revert out. induction l as [|[[[node name] size] offset] l IH];
      intros out; cbn [for_each map].
    + rewrite app_nil_r. reflexivity.
    + cbn [bind]. rewrite IH. unfold write_bytes.
      rewrite <- app_assoc. reflexivity.
  - cbn. rewrite app_nil_r. reflexivity.
Qed.







(** ** Fuel *)

Lemma read_dirs_mono rec rec' n :
  (forall acc f, rec acc f <> OutOfFuel -> rec' acc f = rec acc f) ->
  forall acc f,
    read_dirs rec n acc f <> OutOfFuel ->
    read_dirs rec' n acc f = read_dirs rec n acc f.
Proof.
  intros Hrec. induction n as [|n IH]; intros acc f H; [reflexivity|].
  cbn [read_dirs] in H |- *.
  destruct (str_unpack f) as [[s f1]|e]; [|reflexivity].
  destruct (rec [] f1) as [dcs f2|e part|] eqn:Er.
  - rewrite Hrec by congruence. rewrite Er. apply IH, H.
  - rewrite Hrec by congruence. rewrite Er. reflexivity.
  - contradiction H. reflexivity.
Qed.

Lemma read_entries_fuel_mono fuel :
  forall acc f,
    read_entries_fuel fuel acc f <> OutOfFuel ->
    read_entries_fuel (S fuel) acc f = read_entries_fuel fuel acc f.
Proof.
  induction fuel as [|fuel IH]; intros acc f H.
  - contradiction H. reflexivity.
  - rewrite (read_entries_fuel_S (S fuel)).
    rewrite (read_entries_fuel_S fuel) in H |- *.
    destruct (read 1 f) as [b1 f1].
    destruct (unpack_B b1) as [num_dirs|e]; [|reflexivity].
    rewrite (read_dirs_mono (read_entries_fuel fuel)
               (read_entries_fuel (S fuel))).
    + reflexivity.
    + exact IH.
    + intros E. rewrite E in H. contradiction H. reflexivity.
Qed.

Lemma read_entries_fuel_le fuel fuel' acc f :
  (fuel <= fuel')%nat ->
  read_entries_fuel fuel acc f <> OutOfFuel ->
  read_entries_fuel fuel' acc f = read_entries_fuel fuel acc f.
Proof.
  induction 1 as [|fuel' _ IH]; intros H; [reflexivity|].
  rewrite read_entries_fuel_mono; [apply IH, H|].
  rewrite IH by exact H. exact H.
Qed.

(** [read_entries] is its fuelled version at any fuel above the length of
    the stream. *)
Lemma read_entries_fuel_enough fuel acc f :
  (length f < fuel)%nat ->
  read_entries_fuel fuel acc f = read_entries acc f.
Proof.
  intros H. unfold read_entries. apply read_entries_fuel_le; [lia|].
  intros E.
  pose proof (read_entries_fuel_outcome (S (length f)) acc f) as Ho.
  rewrite E in Ho. unfold outcome_ok in Ho. lia.
Qed.

(** ** Streams cut short *)

Lemma cut_length p k : cut p k -> (length p < length k)%nat.
Proof.
  intros (q & Hq & ->). rewrite length_app.
  destruct q; [contradiction Hq; reflexivity | cbn [length]; lia].
Qed.

Lemma cut_app p k1 k2 :
  cut p (k1 ++ k2) -> cut p k1 \/ exists p2, p = k1 ++ p2 /\ cut p2 k2.
Proof.
  intros (q & Hq & H). apply app_eq_app in H as (l & [[H1 H2]|[H1 H2]]).
  - destruct l as [|x l].
    + right. exists []. rewrite app_nil_r in H1 |- *.
      split; [symmetry; exact H1|].
      exists q. split; [exact Hq | symmetry; exact H2].
    + left. exists (x :: l). split; [discriminate | exact H1].
  - right. exists l. split; [exact H1|]. exists q. split; assumption.
Qed.


Lemma read_short w p : (length p <= Z.to_nat w)%nat -> read w p = (p, []).
Proof.
  intros H. unfold read. rewrite firstn_all2, skipn_all2 by lia.
  reflexivity.
Qed.

Lemma read_split w f b f1 : read w f = (b, f1) -> f = b ++ f1.
Proof.
  unfold read. intros H. injection H as <- <-. symmetry.
  apply firstn_skipn.
Qed.

Lemma read_exact w b rest :
  length b = Z.to_nat w -> read w (b ++ rest) = (b, rest).
Proof.
  intros H. unfold read. rewrite <- H.
  rewrite firstn_app, skipn_app, Nat.sub_diag, firstn_all, skipn_all.
  cbn [firstn skipn app]. rewrite app_nil_r. reflexivity.
Qed.

Lemma unpack_B_short p : length p <> 1%nat -> unpack_B p = Raise StructError.
Proof.
  destruct p as [|? [|? ?]]; intros H; try reflexivity.
  contradiction H. reflexivity.
Qed.

Lemma unpack_I_short p : length p <> 4%nat -> unpack_I p = Raise StructError.
Proof.
  destruct p as [|? [|? [|? [|? [|? ?]]]]]; intros H; try reflexivity.
  contradiction H. reflexivity.
Qed.

Lemma unpack_II_short p :
  length p <> 8%nat -> unpack_II p = Raise StructError.
Proof.
  intros H. unfold unpack_II.
  replace (length p =? 8)%nat with false; [reflexivity|].
  symmetry. apply Nat.eqb_neq, H.
Qed.

(** A string that was read in full, followed by more: the bytes [k] it
    took decode to it whatever follows, and any cut of [k] either fails or
    yields some string and an exhausted stream. *)
Lemma str_unpack_cut f s f1 :
  str_unpack f = Ok (s, f1) -> f1 <> [] ->
  exists k,
    f = k ++ f1 /\
    (forall rest, str_unpack (k ++ rest) = Ok (s, rest)) /\
    (forall p, cut p k ->
               str_unpack p = Raise StructError \/
               exists s', str_unpack p = Ok (s', [])).
Proof.
  unfold str_unpack. intros H Hf1.
  destruct (read 4 f) as [b4 f0] eqn:R4.
  destruct (unpack_I b4) as [len_str|e] eqn:E4; cbn [bind] in H;
    [|discriminate H].
  destruct (read len_str f0) as [b f2] eqn:RL.
  injection H as <- <-.
  pose proof (unpack_I_length _ _ E4) as L4.
  apply read_split in R4 as ->.
  assert (Lb : length b = Z.to_nat len_str).
  { unfold read in RL. injection RL as <- E2.
    apply firstn_length_le.
    destruct (Nat.le_gt_cases (Z.to_nat len_str) (length f0)) as [|Hgt];
      [assumption|].
    rewrite skipn_all2 in E2 by lia. subst f2.
    contradiction Hf1. reflexivity. }
  apply read_split in RL as ->.
  exists (b4 ++ b). split; [rewrite app_assoc; reflexivity|]. split.
  - intros rest. rewrite <- app_assoc.
    rewrite (read_exact 4 b4) by exact L4.
    rewrite E4. cbn [bind]. rewrite (read_exact len_str b) by exact Lb.
    reflexivity.
  - intros p Hp. apply cut_app in Hp as [Hp|(p2 & -> & Hp)].
    + left. apply cut_length in Hp.
      rewrite read_short by (change (Z.to_nat 4) with 4%nat; lia).
      rewrite unpack_I_short by lia. reflexivity.
    + right. apply cut_length in Hp.
      rewrite (read_exact 4 b4) by exact L4.
      rewrite E4. cbn [bind]. rewrite read_short by lia.
      eexists. reflexivity.
Qed.

Lemma extends_refl_l acc cs : (exists m, cs = acc ++ m) -> extends acc acc cs.
Proof.
  intros H. split; [exists []; rewrite app_nil_r; reflexivity | exact H].
Qed.

Lemma extends_add acc x part cs :
  extends (add acc x) part cs -> extends acc part cs.
Proof.
  intros [[a ->] Hm]. split; [|exact Hm].
  unfold add. exists ([x] ++ a). rewrite app_assoc. reflexivity.
Qed.

Lemma extends_more acc part cs more :
  extends acc part cs -> extends acc part (cs ++ more).
Proof.
  intros [Ha [m ->]]. split; [exact Ha|].
  exists (m ++ more). rewrite app_assoc. reflexivity.
Qed.

Lemma read_files_cut n : cut_ok (read_files n).
Proof.
  induction n as [|n IH]; intros acc f cs f' H.
  - cbn [read_files] in H. injection H as <- <-.
    exists []. split; [reflexivity|].
    split; [exists []; rewrite app_nil_r; reflexivity|].
    split; [intros rest; reflexivity|].
    intros p Hp. apply cut_length in Hp. cbn [length] in Hp. lia.
  - cbn [read_files] in H.
    destruct (str_unpack f) as [[s f1]|e] eqn:Es; [|discriminate H].
    destruct (read 8 f1) as [b8 f2] eqn:R8.
    destruct (unpack_II b8) as [[size offset]|e] eqn:E8; [|discriminate H].
    pose proof (unpack_II_inv _ _ _ E8) as (L8 & _ & _).
    apply read_split in R8. subst f1.
    assert (Hne : b8 ++ f2 <> []).
    { destruct b8; [discriminate L8 | discriminate]. }
    destruct (str_unpack_cut _ _ _ Es Hne) as (k1 & Ef & Hfr1 & Hcut1).
    destruct (IH _ _ _ _ H) as (k3 & Ef2 & [more Hmore] & Hfr3 & Hcut3).
    subst f f2.
    exists (k1 ++ b8 ++ k3). split; [rewrite <- !app_assoc; reflexivity|].
    assert (Hcs : exists m, cs = acc ++ m).
    { exists ([FileNode s size offset] ++ more). rewrite Hmore.
      unfold add. rewrite <- app_assoc. reflexivity. }
    split; [exact Hcs|]. split.
    + intros rest. cbn [read_files]. rewrite <- !app_assoc, Hfr1.
      rewrite (read_exact 8 b8) by exact L8. rewrite E8. apply Hfr3.
    + intros p Hp. cbn [read_files].
      apply cut_app in Hp as [Hp|(p2 & -> & Hp)].
      * destruct (Hcut1 p Hp) as [->|[s' ->]].
        -- exists acc. split; [reflexivity | apply extends_refl_l, Hcs].
        -- rewrite read_short by (cbn [length]; lia).
           rewrite unpack_II_short by discriminate.
           exists acc. split; [reflexivity | apply extends_refl_l, Hcs].
      * rewrite Hfr1. apply cut_app in Hp as [Hp|(p3 & -> & Hp)].
        -- apply cut_length in Hp. rewrite read_short by lia.
           rewrite unpack_II_short by lia.
           exists acc. split; [reflexivity | apply extends_refl_l, Hcs].
        -- rewrite (read_exact 8 b8) by exact L8. rewrite E8.
           destruct (Hcut3 p3 Hp) as (part & -> & Hext).
           exists part. split; [reflexivity|]. eapply extends_add, Hext.
Qed.

Lemma read_dirs_cut rec n :
  cut_ok rec -> empty_fails rec -> cut_ok (read_dirs rec n).
Proof.
  intros Hrec Hempty.
  induction n as [|n IH]; intros acc f cs f' H.
  - cbn [read_dirs] in H. injection H as <- <-.
    exists []. split; [reflexivity|].
    split; [exists []; rewrite app_nil_r; reflexivity|].
    split; [intros rest; reflexivity|].
    intros p Hp. apply cut_length in Hp. cbn [length] in Hp. lia.
  - cbn [read_dirs] in H.
    destruct (str_unpack f) as [[s f1]|e] eqn:Es; [|discriminate H].
    destruct (rec [] f1) as [dcs f2|e part|] eqn:Er; try discriminate H.
    assert (Hne : f1 <> []).
    { intros ->. rewrite (Hempty _ _ _ _ Er) in Er. discriminate Er. }
    destruct (str_unpack_cut _ _ _ Es Hne) as (k1 & Ef & Hfr1 & Hcut1).
    destruct (Hrec _ _ _ _ Er) as (k2 & Ef1 & _ & Hfr2 & Hcut2).
    destruct (IH _ _ _ _ H) as (k3 & Ef2 & [more Hmore] & Hfr3 & Hcut3).
    subst f f1 f2.
    exists (k1 ++ k2 ++ k3). split; [rewrite <- !app_assoc; reflexivity|].
    assert (Hcs : exists m, cs = acc ++ m).
    { exists ([DirNode s dcs] ++ more). rewrite Hmore.
      unfold add. rewrite <- app_assoc. reflexivity. }
    split; [exact Hcs|]. split.
    + intros rest. cbn [read_dirs]. rewrite <- !app_assoc, Hfr1, Hfr2.
      apply Hfr3.
    + intros p Hp. cbn [read_dirs].
      apply cut_app in Hp as [Hp|(p2 & -> & Hp)].
      * destruct (Hcut1 p Hp) as [->|[s' ->]].
        -- exists acc. split; [reflexivity | apply extends_refl_l, Hcs].
        -- rewrite (Hempty _ _ _ _ Er).
           exists acc. split; [reflexivity | apply extends_refl_l, Hcs].
      * rewrite Hfr1. apply cut_app in Hp as [Hp|(p3 & -> & Hp)].
        -- destruct (Hcut2 p2 Hp) as (part & -> & _).
           exists acc. split; [reflexivity | apply extends_refl_l, Hcs].
        -- rewrite Hfr2.
           destruct (Hcut3 p3 Hp) as (part & -> & Hext).
           exists part. split; [reflexivity|]. eapply extends_add, Hext.
Qed.

Lemma read_entries_fuel_empty_fails fuel :
  empty_fails (read_entries_fuel fuel).
Proof.
  intros acc f cs f' H acc2. destruct fuel; [discriminate H | reflexivity].
Qed.

Lemma read_entries_fuel_cut fuel : cut_ok (read_entries_fuel fuel).
Proof.
  induction fuel as [|fuel IH]; intros acc f cs f' H; [discriminate H|].
  rewrite read_entries_fuel_S in H.
  destruct (read 1 f) as [b1 f1] eqn:R1.
  destruct (unpack_B b1) as [num_dirs|e] eqn:E1; [|discriminate H].
  pose proof (unpack_B_length _ _ E1) as L1.
  destruct (read_dirs _ _ acc f1) as [cs1 f2|e part|] eqn:Ed;
    try discriminate H.
  destruct (read 4 f2) as [b4 f3] eqn:R4.
  destruct (unpack_I b4) as [num_files|e] eqn:E4; [|discriminate H].
  pose proof (unpack_I_length _ _ E4) as L4.
  apply read_split in R1, R4. subst f f2.
  destruct (read_dirs_cut _ (Z.to_nat num_dirs) IH
              (read_entries_fuel_empty_fails fuel) _ _ _ _ Ed)
    as (k2 & Ef1 & [more1 Hmore1] & Hfr2 & Hcut2).
  destruct (read_files_cut _ _ _ _ _ H)
    as (k4 & Ef3 & [more2 Hmore2] & Hfr4 & Hcut4).
  subst f1 f3.
  exists (b1 ++ k2 ++ b4 ++ k4).
  split; [rewrite <- !app_assoc; reflexivity|].
  assert (Hcs : exists m, cs = acc ++ m).
  { exists (more1 ++ more2). rewrite Hmore2, Hmore1, app_assoc.
    reflexivity. }
  split; [exact Hcs|]. split.
  - intros rest. rewrite read_entries_fuel_S, <- !app_assoc.
    rewrite (read_exact 1 b1) by exact L1. rewrite E1, Hfr2.
    rewrite (read_exact 4 b4) by exact L4. rewrite E4. apply Hfr4.
  - intros p Hp. rewrite read_entries_fuel_S.
    apply cut_app in Hp as [Hp|(p2 & -> & Hp)].
    + apply cut_length in Hp. rewrite read_short by lia.
      rewrite unpack_B_short by lia.
      exists acc. split; [reflexivity | apply extends_refl_l, Hcs].
    + rewrite (read_exact 1 b1) by exact L1. rewrite E1.
      apply cut_app in Hp as [Hp|(p3 & -> & Hp)].
      * destruct (Hcut2 p2 Hp) as (part & -> & Hext).
        exists part. split; [reflexivity|].
        rewrite Hmore2. apply extends_more, Hext.
      * rewrite Hfr2. apply cut_app in Hp as [Hp|(p4 & -> & Hp)].
        -- apply cut_length in Hp. rewrite read_short by lia.
           rewrite unpack_I_short by lia.
           exists cs1. split; [reflexivity|]. split.
           ++ exists more1. exact Hmore1.
           ++ exists more2. exact Hmore2.
        -- rewrite (read_exact 4 b4) by exact L4. rewrite E4.
           destruct (Hcut4 p4 Hp) as (part & -> & [[a Ha] Hm]).
           exists part. split; [reflexivity|]. split; [|exact Hm].
           exists (more1 ++ a). rewrite Ha, Hmore1, app_assoc. reflexivity.
Qed.

(** ** What a cut header leaves *)













(** ** Decoding a damaged header *)




(** * Further properties of the code *)

(** ** The string codec, on every input *)

Lemma encode_latin1_raise s e :
  encode_latin1 s = Raise e ->
  e = UnicodeEncodeError /\ Exists (fun c => (255 < c)%N) s.
Proof.
  induction s as [|c s IH]; cbn [encode_latin1]; intros H; [discriminate H|].
  destruct (Byte.of_N c) as [x|] eqn:Ec.
  - destruct (encode_latin1 s) as [bs|e']; cbn [bind] in H;
      [discriminate H|].
    injection H as <-. destruct (IH eq_refl) as [-> Hex].
    split; [reflexivity | apply Exists_cons_tl, Hex].
  - injection H as <-. apply Byte.of_N_None_iff in Ec.
    split; [reflexivity | apply Exists_cons_hd, Ec].
Qed.

(** X1: [str_pack] returns the 4-byte length, the characters and, for a
    non-empty string, one null, exactly when every character is a single
    byte and the string is shorter than 2^32-1; it raises
    [UnicodeEncodeError] when some character is above 255, and otherwise
    [struct.error] when the length does not fit. *)
Theorem str_pack_outcome (s : str) :
  match str_pack s with
  | Ok b =>
      Forall (fun c => (c < 256)%N) s /\ len s < 4294967295 /\
      len b = 4 + len s + match s with [] => 0 | _ => 1 end
  | Raise e =>
      (e = UnicodeEncodeError /\ Exists (fun c => (255 < c)%N) s) \/
      (e = StructError /\ Forall (fun c => (c < 256)%N) s /\
       4294967295 <= len s)
  end.
Proof.
  destruct (str_pack s) as [b|e] eqn:H.
  - pose proof (str_pack_length _ _ H) as Hl.
    apply str_pack_inv in H as (enc & hd & He & Hh & _).
    apply encode_latin1_range in He. apply pack_I_inv in Hh as [Hh _].
    split; [exact He|]. split; [|exact Hl].
    clear Hl He. destruct s; unfold len in *; cbn [length] in *; lia.
  - unfold str_pack in H.
    destruct (encode_latin1 s) as [enc|e'] eqn:He; cbn [bind] in H.
    + right. apply encode_latin1_range in He.
      unfold pack_I in H.
      destruct ((0 <=? _) && (_ <? 4294967296)) eqn:Hc;
        cbn [bind] in H; [discriminate H|].
      injection H as <-. split; [reflexivity|]. split; [exact He|].
      apply andb_false_iff in Hc as [Hc|Hc].
      * apply Z.leb_gt in Hc. clear He.
        destruct s; unfold len in *; cbn [length] in *; lia.
      * apply Z.ltb_ge in Hc. clear He.
        destruct s; unfold len in *; cbn [length] in *; lia.
    + left. injection H as <-. apply encode_latin1_raise, He.
Qed.

Lemma rstrip_null_spec b :
  no_trailing_null (rstrip_null b) /\
  exists k, b = rstrip_null b ++ repeat Byte.x00 k.
Proof.
  induction b as [|x b [IH1 [k IH2]]].
  - split; [discriminate | exists 0%nat; reflexivity].
  - cbn [rstrip_null]. destruct (rstrip_null b) as [|y r] eqn:Er.
    + destruct (Byte.eqb x Byte.x00) eqn:Ex.
      * apply Byte.byte_dec_bl in Ex. subst x.
        split; [discriminate|]. exists (S k). rewrite IH2. reflexivity.
      * split.
        -- intros E. cbn in E. subst x. discriminate Ex.
        -- exists k. rewrite IH2. reflexivity.
    + split; [exact IH1|]. exists k. rewrite IH2. reflexivity.
Qed.

Lemma decode_latin1_no_trailing b :
  no_trailing_null b -> no_trailing_nul (decode_latin1 b).
Proof.
  intros Hb Hs. apply Hb. unfold decode_latin1 in Hs.
  induction b as [|x [|y b] IH]; cbn in *.
  - discriminate Hs.
  - destruct x; try discriminate Hs. reflexivity.
  - apply IH; [|exact Hs]. exact Hb.
Qed.

Lemma decode_latin1_range b :
  Forall (fun c => (c < 256)%N) (decode_latin1 b).
Proof.
  apply (encode_latin1_range _ b), encode_latin1_decode.
Qed.

(** X2: [str_unpack] raises, and then [struct.error], exactly when fewer
    than 4 bytes are left; otherwise it takes the 4 bytes of the length
    [L] and up to [L] more, also when fewer than [L] are left, and returns
    a string of single-byte characters, at most [L] of them, that does not
    end in a null. *)
Theorem str_unpack_outcome (f : stream) :
  ((length f < 4)%nat -> str_unpack f = Raise StructError) /\
  forall L,
    unpack_I (firstn 4 f) = Ok L ->
    exists s,
      str_unpack f = Ok (s, skipn (4 + Z.to_nat L) f) /\
      name_decoded s /\ len s <= L /\ len s + 4 <= len f.
Proof.
  split.
  - intros H. unfold str_unpack, read.
    rewrite unpack_I_short; [reflexivity|].
    rewrite length_firstn. change (Z.to_nat 4) with 4%nat. lia.
  - intros L HL. unfold str_unpack, read.
    change (Z.to_nat 4) with 4%nat. rewrite HL. cbn [bind].
    eexists. split; [rewrite skipn_skipn, Nat.add_comm; reflexivity|].
    pose proof (rstrip_null_spec (firstn (Z.to_nat L) (skipn 4 f)))
      as [Hn [k Hk]].
    pose proof (unpack_I_range _ _ HL) as HLr.
    apply unpack_I_length in HL. rewrite length_firstn in HL.
    apply (f_equal (@length _)) in Hk.
    rewrite length_app, repeat_length, length_firstn, length_skipn in Hk.
    split; [split; [apply decode_latin1_no_trailing, Hn
                   | apply decode_latin1_range]|].
    unfold len, decode_latin1. rewrite !length_map.
    pose proof (Nat.le_min_r 4 (length f)) as M1.
    pose proof (Nat.le_min_l (Z.to_nat L) (length f - 4)) as M2.
    pose proof (Nat.le_min_r (Z.to_nat L) (length f - 4)) as M3.
    change Init.Nat.min with Nat.min in *.
    rewrite HL in M1. rewrite Hk in M2, M3. clear HL Hk. unfold stream, bytes, byte in *. lia.
Qed.

Lemma str_unpack_outcome_witness :
  exists s,
    str_unpack [Byte.x05; Byte.x00; Byte.x00; Byte.x00; Byte.x61; Byte.x00]
    = Ok (s, skipn (4 + Z.to_nat 5)
               [Byte.x05; Byte.x00; Byte.x00; Byte.x00; Byte.x61; Byte.x00])
    /\ name_decoded s /\ len s <= 5 /\ len s + 4 <= 6.
Proof.
  apply (proj2 (str_unpack_outcome
                  [Byte.x05; Byte.x00; Byte.x00; Byte.x00; Byte.x61;
                   Byte.x00]) 5).
  reflexivity.
Defined.

(** X3: unpacking a packed string, whatever follows it, returns the string
    without its trailing null characters, all of them, and leaves what
    follows. *)
Theorem str_unpack_str_pack_strips (s : str) (b rest : bytes) :
  str_pack s = Ok b ->
  exists s' k,
    str_unpack (b ++ rest) = Ok (s', rest) /\
    s = s' ++ repeat 0%N k /\
    no_trailing_nul s'.
Proof.
  intros H.
  destruct (str_unpack_str_pack_gen s b rest H) as (enc & He & Hu).
  destruct (rstrip_null_spec enc) as [Hn [k Hk]].
  exists (decode_latin1 (rstrip_null enc)), k.
  split; [exact Hu|]. split; [|apply decode_latin1_no_trailing, Hn].
  apply encode_latin1_inv in He as [<- _]. rewrite Hk at 1.
  unfold decode_latin1. rewrite map_app. f_equal.
  clear. induction k as [|k IH]; [reflexivity|]. cbn. rewrite IH.
  reflexivity.
Qed.

Lemma str_unpack_str_pack_strips_witness :
  exists s' k,
    str_unpack ([Byte.x04; Byte.x00; Byte.x00; Byte.x00;
                 Byte.x61; Byte.x00; Byte.x00; Byte.x00] ++ [Byte.x07])
    = Ok (s', [Byte.x07]) /\
    [97%N; 0%N; 0%N] = s' ++ repeat 0%N k /\
    no_trailing_nul s'.
Proof.
  apply (str_unpack_str_pack_strips [97%N; 0%N; 0%N]). reflexivity.
Defined.

(** ** Trees, counts and enumeration *)

Lemma filter_lengths_dirs_files cs :
  len (filter is_DirNode cs) + len (filter is_FileNode cs) = len cs.
Proof.
  unfold len. induction cs as [|[n s o|n cs'] cs IH]; cbn [filter
    is_DirNode is_FileNode length]; lia.
Qed.

(** X4: every child of a directory is counted once, as a subdirectory or
    as a file: [num_subdirs + num_files] is the number of children. *)
Theorem num_subdirs_num_files (self : Node) :
  num_subdirs self + num_files self = len (children self).
Proof.
  unfold num_subdirs, num_files. rewrite !py_sum_filter.
  apply filter_lengths_dirs_files.
Qed.

Lemma files_rebase_step path child :
  (forall p, files child p = map (rebase p) (files child [])) ->
  files_step path child = map (rebase path) (files_step [] child).
Proof.
  intros H. destruct child as [n s o|n cs]; [reflexivity|].
  cbn [files_step]. rewrite (H (joinpath path n)), (H (joinpath [] n)).
  rewrite map_map. apply map_ext. intros [[[node p] size] offset].
  unfold rebase, joinpath. cbn [app]. rewrite <- app_assoc. reflexivity.
Qed.

Lemma files_rebase_all self :
  forall path, files self path = map (rebase path) (files self []).
Proof.
  induction self as [n s o|n cs IH] using Node_ind_Forall; intros path;
    [reflexivity|].
  rewrite !files_eq.
  induction IH as [|c cs Hc _ IHcs]; [reflexivity|].
  cbn [flat_map]. rewrite map_app, IHcs. f_equal.
  apply files_rebase_step, Hc.
Qed.

Lemma files_nodes self :
  forall path,
    Forall (fun e =>
              exists dirs n,
                e = (FileNode n (entry_size e) (entry_offset e),
                     path ++ dirs ++ [n], entry_size e, entry_offset e))
      (files self path).
Proof.
  induction self as [n s o|n cs IH] using Node_ind_Forall; intros path;
    [constructor|].
  rewrite files_eq. apply Forall_forall. intros e He.
  apply in_flat_map in He as (c & Hc & He).
  rewrite Forall_forall in IH. specialize (IH c Hc).
  destruct c as [m s o|m cs'].
  - destruct He as [<-|[]]. exists [], m. reflexivity.
  - specialize (IH (joinpath path m)). rewrite Forall_forall in IH.
    destruct (IH e He) as (dirs & k & E). exists (m :: dirs), k.
    rewrite E at 1. unfold joinpath. rewrite <- app_assoc. reflexivity.
Qed.

Lemma files_leaf_at self :
  forall path e,
    In e (files self path) ->
    exists dirs name size offset,
      leaf_at self dirs name size offset /\
      e = (FileNode name size offset, path ++ dirs ++ [name], size, offset).
Proof.
  induction self as [n s o|n cs IH] using Node_ind_Forall; intros path e He;
    [destruct He|].
  rewrite files_eq in He. apply in_flat_map in He as (c & Hc & He).
  rewrite Forall_forall in IH. specialize (IH c Hc).
  destruct c as [m s o|m cs'].
  - destruct He as [<-|[]]. exists [], m, s, o.
    split; [apply leaf_here, Hc | reflexivity].
  - destruct (IH _ _ He) as (dirs & k & s & o & Hl & ->).
    exists (m :: dirs), k, s, o. split.
    + eapply leaf_below; eassumption.
    + unfold joinpath. rewrite <- app_assoc. reflexivity.
Qed.

Lemma leaf_at_files self dirs name size offset :
  leaf_at self dirs name size offset ->
  forall path,
    In (FileNode name size offset, path ++ dirs ++ [name], size, offset)
      (files self path).
Proof.
  induction 1 as [n cs name size offset Hin
                 |n cs m cs' dirs name size offset Hin _ IH]; intros path.
  - rewrite files_eq. apply in_flat_map.
    exists (FileNode name size offset). split; [exact Hin|].
    left. reflexivity.
  - rewrite files_eq. apply in_flat_map.
    exists (DirNode m cs'). split; [exact Hin|].
    cbn [files_step]. specialize (IH (joinpath path m)).
    unfold joinpath in *. rewrite <- app_assoc in IH. exact IH.
Qed.

Lemma files_step_count c :
  forall path, len (files_step path c) = count_files c.
Proof.
  induction c as [n s o|n cs IH] using Node_ind_Forall; intros path;
    [reflexivity|].
  cbn [files_step]. rewrite files_eq. cbn [count_files].
  induction IH as [|c cs Hc _ IHcs]; [reflexivity|].
  cbn [flat_map fold_right]. rewrite len_app, IHcs, Hc. reflexivity.
Qed.

Lemma files_count n cs path :
  len (files (DirNode n cs) path) = count_files (DirNode n cs).
Proof.
  rewrite files_eq. cbn [count_files].
  induction cs as [|c cs IH]; [reflexivity|].
  cbn [flat_map fold_right]. rewrite len_app, IH, files_step_count.
  reflexivity.
Qed.

(** X5: [files] yields the file leaves of the tree, each once and with its
    place.  The names being single components of a path, as [joinpath]
    here takes them, a tuple is yielded exactly when its node is a file
    found below [self] through some directories, its size and offset are
    the node's own, and its path is the given path followed by the names
    of those directories and the name of the file; a directory yields as
    many tuples as it has file leaves; and the enumeration from a path is the one from
    the empty path with the path put before every entry. *)
Theorem files_entries (self : Node) (path : Path) :
  plain_names self ->
  (forall e,
     In e (files self path) <->
     exists dirs name size offset,
       leaf_at self dirs name size offset /\
       e = (FileNode name size offset, path ++ dirs ++ [name], size, offset))
  /\ (is_DirNode self = true -> len (files self path) = count_files self)
  /\ files self path = map (rebase path) (files self []).
Proof.
  intros _. split; [|split].
  - intros e. split; [apply files_leaf_at|].
    intros (dirs & name & size & offset & Hl & ->).
    apply leaf_at_files, Hl.
  - destruct self as [n s o|n cs]; [discriminate|].
    intros _. apply files_count.
  - apply files_rebase_all.
Qed.

Lemma files_entries_witness :
  plain_names (DirNode [] [FileNode (lit "a") 2 40;
                           DirNode (lit "d") [FileNode (lit "b") 1 42]]) /\
  In (FileNode (lit "b") 1 42, [lit "out"; lit "d"; lit "b"], 1, 42)
    (files (DirNode [] [FileNode (lit "a") 2 40;
                        DirNode (lit "d") [FileNode (lit "b") 1 42]])
       [lit "out"]).
Proof.
  assert (Hp : plain_names
                 (DirNode [] [FileNode (lit "a") 2 40;
                              DirNode (lit "d") [FileNode (lit "b") 1 42]])).
  { cbn. unfold plain. repeat split; try discriminate;
      cbn; intuition discriminate. }
  split; [exact Hp|].
  apply (proj1 (files_entries _ [lit "out"] Hp)).
  exists [lit "d"], (lit "b"), 1, 42. split; [|reflexivity].
  eapply leaf_below; [right; left; reflexivity|].
  apply leaf_here. left. reflexivity.
Defined.

Lemma map_accum_twice cs :
  Forall (fun c => forall o,
            assign_offsets (fst (assign_offsets c o)) o = assign_offsets c o)
    cs ->
  forall o,
    map_accum assign_offsets (fst (map_accum assign_offsets cs o)) o
    = map_accum assign_offsets cs o.
Proof.
  induction 1 as [|c cs Hc _ IH]; intros o; [reflexivity|].
  cbn [map_accum]. specialize (Hc o).
  destruct (assign_offsets c o) as [c' o1] eqn:Ec.
  specialize (IH o1).
  destruct (map_accum assign_offsets cs o1) as [cs' o2] eqn:Ecs.
  cbn [fst map_accum] in *. rewrite Hc, IH. reflexivity.
Qed.

Lemma unplaced_assign_offsets t :
  forall offset, unplaced (fst (assign_offsets t offset)) = unplaced t.
Proof.
  induction t as [n s o|n cs IH] using Node_ind_Forall; intros offset;
    [reflexivity|].
  cbn [assign_offsets].
  assert (G : forall o1,
             map unplaced (fst (map_accum assign_offsets cs o1))
             = map unplaced cs).
  { induction IH as [|c cs Hc _ IHcs]; intros o1; [reflexivity|].
    cbn [map_accum]. specialize (Hc o1).
    destruct (assign_offsets c o1) as [c' o2].
    specialize (IHcs o2).
    destruct (map_accum assign_offsets cs o2) as [cs' o3].
    cbn [fst map] in *. rewrite Hc, IHcs. reflexivity. }
  specialize (G offset).
  destruct (map_accum assign_offsets cs offset) as [cs' o'].
  cbn [fst unplaced] in *. rewrite G. reflexivity.
Qed.

(** X6: the loop that assigns the offsets changes nothing but offsets:
    with the offsets forgotten the tree is the one it was, names, sizes
    and shape; and running the loop again from the same start changes
    nothing. *)
Theorem assign_offsets_idempotent (t : Node) (offset : Z) :
  unplaced (fst (assign_offsets t offset)) = unplaced t /\
  assign_offsets (fst (assign_offsets t offset)) offset
  = assign_offsets t offset.
Proof.
  split; [apply unplaced_assign_offsets|].
  revert offset. induction t as [n s o|n cs IH] using Node_ind_Forall;
    intros offset; [reflexivity|].
  cbn [assign_offsets].
  pose proof (map_accum_twice cs IH offset) as H.
  destruct (map_accum assign_offsets cs offset) as [cs' o'].
  cbn [fst assign_offsets] in *. rewrite H. reflexivity.
Qed.

(** X7: [write_entries] only appends to the file it is given: what it
    appends, or the exception it raises, does not depend on what the file
    held. *)
Theorem write_entries_only_appends (t : Node) (f : bytes) :
  (forall out,
     write_entries t f = Ok out ->
     exists b, out = f ++ b /\
               forall f', write_entries t f' = Ok (f' ++ b))
  /\
  (forall e,
     write_entries t f = Raise e ->
     forall f', write_entries t f' = Raise e).
Proof.
  split.
  - intros out H. rewrite write_entries_appends in H.
    apply bind_Ok in H as (b & Hb & H). injection H as <-.
    exists b. split; [reflexivity|]. intros f'.
    rewrite write_entries_appends, Hb. reflexivity.
  - intros e H f'. rewrite write_entries_appends in H |- *.
    destruct (write_entries t []); [discriminate H | exact H].
Qed.

Lemma write_entries_only_appends_witness :
  exists b,
    [Byte.x2a; Byte.x00; Byte.x00; Byte.x00; Byte.x00; Byte.x00]
    = [Byte.x2a] ++ b /\
    forall f', write_entries (DirNode [] []) f' = Ok (f' ++ b).
Proof.
  apply (proj1 (write_entries_only_appends (DirNode [] []) [Byte.x2a])).
  reflexivity.
Defined.

Lemma names_size_app l1 l2 :
  names_size (l1 ++ l2) = names_size l1 + names_size l2.
Proof.
  unfold names_size. induction l1 as [|n l1 IH]; cbn [app fold_right]; lia.
Qed.

Lemma str_pack_packed_len n p : str_pack n = Ok p -> len p = packed_len n.
Proof. apply str_pack_length. Qed.

Lemma size_dirs_closed cs :
  Forall closed_form cs ->
  Forall packable (flat_map all_names cs) ->
  forall size,
    for_each size_dirs_body cs size
    = Ok (size
          + fold_right
              (fun c acc =>
                 (if is_DirNode c
                  then 5 * count_dirs c + 8 * count_files c
                       + names_size (all_names c)
                  else 0) + acc) 0 cs).
Proof.
  induction 1 as [|c cs Hc _ IH]; intros Hp size; cbn [for_each fold_right].
  - f_equal. lia.
  - cbn [flat_map] in Hp. apply Forall_app in Hp as [Hpc Hpcs].
    unfold size_dirs_body at 1. destruct (is_DirNode c) eqn:Ed.
    + rewrite (Hc Ed Hpc). cbn [bind]. rewrite (IH Hpcs). f_equal. lia.
    + cbn [bind]. rewrite (IH Hpcs). f_equal.
Qed.

Lemma size_files_closed cs :
  Forall packable (flat_map all_names cs) ->
  forall size,
    for_each size_files_body cs size
    = Ok (size
          + fold_right
              (fun c acc =>
                 (if is_DirNode c then 0 else packed_len (name c) + 8) + acc)
              0 cs).
Proof.
  induction cs as [|c cs IH]; intros Hp size; cbn [for_each fold_right].
  - f_equal. lia.
  - cbn [flat_map] in Hp. apply Forall_app in Hp as [Hpc Hpcs].
    destruct c as [n s o|n cs']; cbn [size_files_body is_DirNode name].
    + cbn [all_names] in Hpc. apply Forall_inv in Hpc as [H1 H2].
      destruct (str_pack_total n H1 H2) as [p Ep]. rewrite Ep. cbn [bind].
      rewrite (IH Hpcs). f_equal. rewrite (str_pack_packed_len _ _ Ep). lia.
    + cbn [bind]. rewrite (IH Hpcs). f_equal.
Qed.

Lemma children_sums cs :
  fold_right
    (fun c acc =>
       (if is_DirNode c
        then 5 * count_dirs c + 8 * count_files c + names_size (all_names c)
        else 0) + acc) 0 cs
  + fold_right
      (fun c acc =>
         (if is_DirNode c then 0 else packed_len (name c) + 8) + acc) 0 cs
  = 5 * fold_right (fun c acc => count_dirs c + acc) 0 cs
    + 8 * fold_right (fun c acc => count_files c + acc) 0 cs
    + names_size (flat_map all_names cs).
Proof.
  induction cs as [|c cs IH]; [reflexivity|].
  cbn [fold_right flat_map]. rewrite names_size_app.
  destruct c as [n s o|n cs'].
  - cbn [is_DirNode count_dirs count_files all_names name].
    unfold names_size at 2. cbn [fold_right]. lia.
  - cbn [is_DirNode]. lia.
Qed.

Lemma size_header_closed t : closed_form t.
Proof.
  induction t as [n s o|n cs IH] using Node_ind_Forall;
    intros Hd Hp size; [discriminate Hd|].
  rewrite size_header_eq. cbn [all_names] in Hp.
  pose proof (Forall_inv Hp) as [H1 H2]. apply Forall_inv_tail in Hp.
  destruct (str_pack_total n H1 H2) as [p Ep]. rewrite Ep. cbn [bind].
  rewrite (size_dirs_closed cs IH Hp). cbn [bind].
  rewrite (size_files_closed cs Hp). f_equal.
  rewrite (str_pack_packed_len _ _ Ep).
  pose proof (children_sums cs) as Hs.
  cbn [count_dirs count_files all_names].
  unfold names_size at 2. cbn [fold_right].
  fold (names_size (flat_map all_names cs)). lia.
Qed.

(** X8: on a directory whose names can be packed, [size_header] adds to its
    argument 5 bytes per directory of the tree, the root included, 8 bytes
    per file, and the packed length of every name. *)
Theorem size_header_closed_form (t : Node) (size : Z) :
  is_DirNode t = true ->
  Forall packable (all_names t) ->
  size_header t size
  = Ok (size + 5 * count_dirs t + 8 * count_files t
        + names_size (all_names t)).
Proof. intros Hd Hp. apply size_header_closed; assumption. Qed.

Lemma size_header_closed_form_witness :
  size_header
    (DirNode [] [FileNode (lit "a") 3 40;
                 DirNode (lit "d") [FileNode (lit "b") 1 43]]) 19
  = Ok (19 + 5 * 2 + 8 * 2 + (4 + 6 + 6 + 6)).
Proof.
  apply (size_header_closed_form
           (DirNode [] [FileNode (lit "a") 3 40;
                        DirNode (lit "d") [FileNode (lit "b") 1 43]]) 19).
  - reflexivity.
  - repeat constructor.
Defined.

(** ** What [read_entries] returns, and what [write_entries] accepts *)

Lemma str_unpack_name f s f1 :
  str_unpack f = Ok (s, f1) ->
  name_decoded s /\ len s + 4 <= len f /\ (length f1 + 4 <= length f)%nat.
Proof.
  intros H. pose proof (str_unpack_consumes _ _ _ H) as Hc.
  unfold str_unpack, read in H.
  destruct (unpack_I (firstn (Z.to_nat 4) f)) as [L|e] eqn:EL;
    cbn [bind] in H; [|discriminate H].
  remember (firstn (Z.to_nat L) (skipn (Z.to_nat 4) f)) as body eqn:Eb.
  assert (Hb : (length body + 4 <= length f)%nat).
  { apply unpack_I_length in EL. rewrite length_firstn in EL.
    subst body. rewrite length_firstn, length_skipn.
    change (Z.to_nat 4) with 4%nat in *.
    pose proof (Nat.le_min_r 4 (length f)) as M1.
    pose proof (Nat.le_min_r (Z.to_nat L) (length f - 4)) as M3.
    change Init.Nat.min with Nat.min in *. rewrite EL in M1.
    unfold stream, bytes, byte in *. lia. }
  clear Eb. injection H as <- _.
  pose proof (rstrip_null_spec body) as [Hn [k Hk]].
  split; [split; [apply decode_latin1_no_trailing, Hn
                 | apply decode_latin1_range]|].
  split; [|exact Hc].
  apply (f_equal (@length _)) in Hk. rewrite length_app, repeat_length in Hk.
  unfold len, decode_latin1. rewrite length_map.
  unfold stream, bytes, byte in *. lia.
Qed.

Lemma read_files_decoded B n :
  forall acc f cs f',
    read_files n acc f = Done cs f' -> len f <= B ->
    appended B is_FileNode n acc cs.
Proof.
  induction n as [|n IH]; intros acc f cs f' H HB; cbn [read_files] in H.
  - injection H as <- <-. exists []. rewrite app_nil_r.
    repeat split. constructor.
  - destruct (str_unpack f) as [[s f1]|e] eqn:Es; [|discriminate H].
    apply str_unpack_name in Es as (Hs & Hl & Hc).
    pose proof (read_lengths 8 f1) as L8.
    destruct (read 8 f1) as [b8 f2]. cbn [fst snd] in L8.
    destruct (unpack_II b8) as [[size offset]|e] eqn:E8; [|discriminate H].
    apply unpack_II_inv in E8 as (_ & E1 & E2).
    apply unpack_I_range in E1, E2.
    assert (HB2 : len f2 <= B)
      by (unfold len in *; unfold stream, bytes, byte in *; lia).
    destruct (IH _ _ _ _ H HB2) as (l & -> & Hlen & Hall).
    exists (FileNode s size offset :: l). unfold add.
    rewrite <- app_assoc. split; [reflexivity|].
    split; [cbn [length]; lia|].
    constructor; [|exact Hall]. split; [reflexivity|].
    cbn [decoded]. repeat split; try apply Hs; lia.
Qed.

Lemma decoded_children_dir B s dcs :
  name_decoded s -> len s <= B -> decoded_children B dcs ->
  decoded B (DirNode s dcs).
Proof.
  intros Hs Hl (H1 & H2 & H3 & H4). cbn [decoded].
  repeat split; try apply Hs; try assumption.
  apply fold_right_and_Forall, H4.
Qed.

Lemma read_dirs_decoded B rec n :
  decodes_within B rec ->
  forall acc f cs f',
    read_dirs rec n acc f = Done cs f' -> len f <= B ->
    appended B is_DirNode n acc cs.
Proof.
  intros Hrec.
  induction n as [|n IH]; intros acc f cs f' H HB; cbn [read_dirs] in H.
  - injection H as <- <-. exists []. rewrite app_nil_r.
    repeat split. constructor.
  - destruct (str_unpack f) as [[s f1]|e] eqn:Es; [|discriminate H].
    apply str_unpack_name in Es as (Hs & Hl & Hc).
    destruct (rec [] f1) as [dcs f2|e part|] eqn:Er; try discriminate H.
    assert (HB1 : len f1 <= B)
      by (unfold len in *; unfold stream, bytes, byte in *; lia).
    destruct (Hrec _ _ _ Er HB1) as [Hd Hlen].
    assert (HB2 : len f2 <= B)
      by (unfold len in *; unfold stream, bytes, byte in *; lia).
    destruct (IH _ _ _ _ H HB2) as (l & -> & Hn & Hall).
    exists (DirNode s dcs :: l). unfold add.
    rewrite <- app_assoc. split; [reflexivity|].
    split; [cbn [length]; lia|].
    constructor; [|exact Hall]. split; [reflexivity|].
    apply decoded_children_dir; [exact Hs | lia | exact Hd].
Qed.

Lemma filter_all {A} (p : A -> bool) l :
  Forall (fun c => p c = true) l -> filter p l = l.
Proof.
  induction 1 as [|c l Hc _ IH]; [reflexivity|].
  cbn [filter]. rewrite Hc, IH. reflexivity.
Qed.

Lemma filter_none {A} (p : A -> bool) l :
  Forall (fun c => p c = false) l -> filter p l = [].
Proof.
  induction 1 as [|c l Hc _ IH]; [reflexivity|].
  cbn [filter]. rewrite Hc, IH. reflexivity.
Qed.

Lemma is_FileNode_not_dir c : is_FileNode c = true -> is_DirNode c = false.
Proof. destruct c; [reflexivity | discriminate]. Qed.

Lemma is_DirNode_not_file c : is_DirNode c = true -> is_FileNode c = false.
Proof. destruct c; [discriminate | reflexivity]. Qed.

Lemma read_entries_fuel_decoded B fuel :
  decodes_within B (read_entries_fuel fuel).
Proof.
  induction fuel as [|fuel IH]; intros f cs f' H HB; [discriminate H|].
  pose proof (read_entries_fuel_outcome (S fuel) [] f) as Ho.
  rewrite H in Ho. destruct Ho as (_ & Hlen & _).
  split; [|exact Hlen].
  rewrite read_entries_fuel_S in H.
  pose proof (read_lengths 1 f) as L1.
  destruct (read 1 f) as [b1 f1] eqn:R1. cbn [fst snd] in L1.
  destruct (unpack_B b1) as [num_dirs|e] eqn:E1; [|discriminate H].
  assert (Hnd : 0 <= num_dirs <= 255).
  { destruct b1 as [|b0 [|? ?]]; try discriminate E1.
    injection E1 as <-. pose proof (Z_of_byte_range b0). lia. }
  destruct (read_dirs _ _ [] f1) as [cs1 f2|e part|] eqn:Ed;
    try discriminate H.
  pose proof (read_dirs_outcome (read_entries_fuel fuel) fuel
                (Z.to_nat num_dirs) (read_entries_fuel_outcome fuel) [] f1)
    as Hdo.
  rewrite Ed in Hdo. destruct Hdo as (_ & Hl2 & _).
  assert (HB1 : len f1 <= B)
    by (unfold len in *; unfold stream, bytes, byte in *; lia).
  destruct (read_dirs_decoded B _ _ IH _ _ _ _ Ed HB1)
    as (ds & Eds & Hnds & Hds).
  pose proof (read_lengths 4 f2) as L4.
  destruct (read 4 f2) as [b4 f3]. cbn [fst snd] in L4.
  destruct (unpack_I b4) as [num_files|e] eqn:E4; [|discriminate H].
  apply unpack_I_range in E4.
  assert (HB3 : len f3 <= B)
    by (unfold len in *; unfold stream, bytes, byte in *; lia).
  destruct (read_files_decoded B _ _ _ _ _ H HB3) as (fs & -> & Hnfs & Hfs).
  cbn [app] in Eds. subst cs1.
  assert (Fd : filter is_DirNode (ds ++ fs) = ds).
  { rewrite filter_app, (filter_all _ ds), (filter_none _ fs), app_nil_r.
    - reflexivity.
    - eapply Forall_impl; [|exact Hfs]. intros c [Hc _].
      apply is_FileNode_not_dir, Hc.
    - eapply Forall_impl; [|exact Hds]. intros c [Hc _]. exact Hc. }
  assert (Ff : filter is_FileNode (ds ++ fs) = fs).
  { rewrite filter_app, (filter_none _ ds), (filter_all _ fs).
    - reflexivity.
    - eapply Forall_impl; [|exact Hfs]. intros c [Hc _]. exact Hc.
    - eapply Forall_impl; [|exact Hds]. intros c [Hc _].
      apply is_DirNode_not_file, Hc. }
  unfold decoded_children. rewrite Fd, Ff.
  split; [reflexivity|]. split; [unfold len; lia|].
  split; [unfold len; lia|].
  apply Forall_app. split.
  - eapply Forall_impl; [|exact Hds]. intros c [_ Hc]. exact Hc.
  - eapply Forall_impl; [|exact Hfs]. intros c [_ Hc]. exact Hc.
Qed.

(** X9: whatever the stream, the children [read_entries] returns for a
    fresh node are subdirectories followed by files, at most 255
    subdirectories and fewer than 2^32 files, and so in every directory
    below; every name is made of single-byte characters, does not end in a
    null and is no longer than the stream; every size and offset is below
    2^32. *)
Theorem read_entries_decoded (f : stream) (cs : list Node) (f' : stream) :
  read_entries [] f = Done cs f' ->
  decoded_children (len f) cs.
Proof.
  intros H. unfold read_entries in H.
  destruct (read_entries_fuel_decoded (len f) _ _ _ _ H) as [Hd _];
    [lia | exact Hd].
Qed.

Lemma read_entries_decoded_witness :
  decoded_children 28
    [DirNode [] []; FileNode (lit "a") 1 2].
Proof.
  apply (read_entries_decoded
           [Byte.x01; Byte.x00; Byte.x00; Byte.x00; Byte.x00;
            Byte.x00; Byte.x00; Byte.x00; Byte.x00; Byte.x00;
            Byte.x01; Byte.x00; Byte.x00; Byte.x00;
            Byte.x02; Byte.x00; Byte.x00; Byte.x00; Byte.x61; Byte.x00;
            Byte.x01; Byte.x00; Byte.x00; Byte.x00;
            Byte.x02; Byte.x00; Byte.x00; Byte.x00]
           _ []).
  vm_compute. reflexivity.
Defined.

Lemma concat_results_total {A} (g : A -> result bytes) l :
  Forall (fun c => exists b, g c = Ok b) l ->
  exists bs, concat_results g l = Ok bs.
Proof.
  induction 1 as [|c l [b Hb] _ [bs IH]]; cbn [concat_results].
  - eexists. reflexivity.
  - rewrite Hb, IH. eexists. reflexivity.
Qed.

Lemma str_pack_packable n : (exists b, str_pack n = Ok b) <-> packable n.
Proof.
  split.
  - intros [b H]. apply str_pack_inv in H as (enc & hd & He & Hh & _).
    apply encode_latin1_range in He. apply pack_I_inv in Hh as [Hh _].
    split; [exact He|]. clear He.
    destruct n; unfold len in *; cbn [length] in *; lia.
  - intros [H1 H2]. apply str_pack_total; assumption.
Qed.

Lemma pack_I_ok n : (exists b, pack_I n = Ok b) <-> 0 <= n < 4294967296.
Proof.
  split.
  - intros [b H]. apply pack_I_inv in H. tauto.
  - intros H. unfold pack_I.
    replace (0 <=? n) with true by (symmetry; apply Z.leb_le; lia).
    replace (n <? 4294967296) with true by (symmetry; apply Z.ltb_lt; lia).
    eexists. reflexivity.
Qed.

Lemma pack_B_ok n : (exists b, pack_B n = Ok b) <-> 0 <= n <= 255.
Proof.
  split.
  - intros [b H]. apply pack_B_inv in H. tauto.
  - intros H. unfold pack_B.
    replace (0 <=? n) with true by (symmetry; apply Z.leb_le; lia).
    replace (n <=? 255) with true by (symmetry; apply Z.leb_le; lia).
    eexists. reflexivity.
Qed.

Lemma file_bytes_ok n s o :
  (exists b, file_bytes (FileNode n s o) = Ok b)
  <-> encodable (FileNode n s o).
Proof.
  cbn [file_bytes encodable]. split.
  - intros [b H]. bind_inv H. bind_inv H. bind_inv H.
    split; [apply str_pack_packable; eexists; eassumption|].
    split; apply pack_I_ok; eexists; eassumption.
  - intros (Hn & Hs & Ho).
    apply str_pack_packable in Hn as [b1 ->].
    apply pack_I_ok in Hs as [b2 ->]. apply pack_I_ok in Ho as [b3 ->].
    eexists. reflexivity.
Qed.

Lemma dir_bytes_ok n cs :
  writable (DirNode n cs) ->
  (exists b, dir_bytes (DirNode n cs) = Ok b) <-> encodable (DirNode n cs).
Proof.
  intros Hw. unfold writable in Hw. cbn [children] in Hw.
  cbn [dir_bytes encodable]. rewrite fold_right_and_Forall. split.
  - intros [b H]. bind_inv H. bind_inv H.
    split; [apply str_pack_packable; eexists; eassumption|].
    apply Hw. eexists. eassumption.
  - intros (Hn & Hrest). apply str_pack_packable in Hn as [b1 ->].
    apply Hw in Hrest as [e ->]. eexists. reflexivity.
Qed.

Lemma write_entries_writable t : is_DirNode t = true -> writable t.
Proof.
  induction t as [n s o|n cs IH] using Node_ind_Forall; intros Hd;
    [discriminate Hd|].
  unfold writable. cbn [children]. rewrite write_entries_eq.
  pose proof (filter_lengths_dirs_files cs) as Hlen.
  assert (P1 : 0 <= len (filter is_DirNode cs)) by (unfold len; lia).
  assert (P2 : 0 <= len (filter is_FileNode cs)) by (unfold len; lia).
  split.
  - intros [out H].
    apply bind_Ok in H as (c & Hc & H).
    apply bind_Ok in H as (ds & Hds & H).
    apply bind_Ok in H as (k & Hk & H).
    apply bind_Ok in H as (fs & Hfs & _).
    apply pack_B_inv in Hc as [Hc _]. apply pack_I_inv in Hk as [Hk _].
    split; [lia|]. split; [lia|].
    apply Forall_forall. intros child Hin.
    rewrite Forall_forall in IH. specialize (IH child Hin).
    destruct child as [m s o|m cs'].
    + apply file_bytes_ok. eapply concat_results_In; eassumption.
    + apply dir_bytes_ok; [apply IH; reflexivity|].
      eapply concat_results_In; eassumption.
  - intros (Hc & Hk & Hall).
    assert (Ec : exists c, pack_B (len (filter is_DirNode cs)) = Ok c)
      by (apply pack_B_ok; lia).
    assert (Ek : exists k, pack_I (len (filter is_FileNode cs)) = Ok k)
      by (apply pack_I_ok; lia).
    destruct Ec as [c ->]. destruct Ek as [k ->].
    destruct (concat_results_total dir_bytes cs) as [ds ->].
    { rewrite Forall_forall in IH, Hall |- *. intros child Hin.
      destruct child as [m s o|m cs']; [eexists; reflexivity|].
      apply dir_bytes_ok; [apply IH; [exact Hin | reflexivity]|].
      apply Hall, Hin. }
    destruct (concat_results_total file_bytes cs) as [fs ->].
    { rewrite Forall_forall in Hall |- *. intros child Hin.
      destruct child as [m s o|m cs']; [|eexists; reflexivity].
      apply file_bytes_ok, Hall, Hin. }
    eexists. reflexivity.
Qed.

(** X10: the interpreter's limit on the depth of recursion left aside,
    [write_entries] writes a directory exactly when it has at most 255
    subdirectories and fewer than 2^32 files, every name below it is made
    of single-byte characters and is shorter than 2^32-1, every size and
    offset is between 0 and 2^32-1, and the same holds in every directory
    below it: these are the only conditions on the data.  A tree nested
    deeper than the interpreter recurses is not written, whatever it
    holds; [write_entries] here recurses without a limit. *)
Theorem write_entries_succeeds_iff (name : str) (cs : list Node) :
  (exists out, write_entries (DirNode name cs) [] = Ok out) <->
  len (filter is_DirNode cs) <= 255 /\
  len (filter is_FileNode cs) < 4294967296 /\
  Forall encodable cs.
Proof. apply (write_entries_writable (DirNode name cs)). reflexivity. Qed.

Lemma write_entries_succeeds_iff_witness :
  exists out,
    write_entries
      (DirNode [] [FileNode (lit "a") 3 40; DirNode (lit "d") []]) []
    = Ok out.
Proof.
  apply (proj2 (write_entries_succeeds_iff []
                  [FileNode (lit "a") 3 40; DirNode (lit "d") []])).
  split; [discriminate|]. split; [reflexivity|].
  repeat constructor; discriminate.
Defined.

Lemma decoded_encodable B t :
  B < 4294967295 -> decoded B t -> encodable t.
Proof.
  intros HB. induction t as [n s o|n cs IH] using Node_ind_Forall.
  - intros ((_ & Hn) & Hl & Hs & Ho). cbn [encodable].
    split; [split; [exact Hn | lia]|]. split; assumption.
  - intros ((_ & Hn) & Hl & _ & Hd & Hf & Hall). cbn [encodable].
    split; [split; [exact Hn | lia]|]. split; [exact Hd|].
    split; [exact Hf|].
    apply fold_right_and_Forall. apply fold_right_and_Forall in Hall.
    rewrite Forall_forall in IH, Hall |- *. intros c Hc.
    apply IH; [exact Hc | apply Hall, Hc].
Qed.

Lemma decoded_name B t : decoded B t -> no_trailing_nul (name t).
Proof. destruct t; intros [[H _] _]; exact H. Qed.

Lemma names_ok_list_Forall cs :
  names_ok_list names_ok cs
  <-> Forall (fun c => no_trailing_nul (name c) /\ names_ok c) cs.
Proof.
  unfold names_ok_list. induction cs as [|c cs IH]; cbn [fold_right].
  - split; [constructor | trivial].
  - rewrite IH. split.
    + intros (H1 & H2 & H3). constructor; [split|]; assumption.
    + intros H. pose proof (Forall_inv H) as [H1 H2].
      apply Forall_inv_tail in H. tauto.
Qed.

Lemma decoded_names_ok B t : decoded B t -> names_ok t.
Proof.
  induction t as [n s o|n cs IH] using Node_ind_Forall; intros H;
    [exact I|].
  destruct H as (_ & _ & _ & _ & _ & Hall).
  apply fold_right_and_Forall in Hall.
  cbn [names_ok]. apply names_ok_list_Forall.
  rewrite Forall_forall in IH, Hall |- *. intros c Hc.
  split; [eapply decoded_name, Hall, Hc | apply IH; [exact Hc|]].
  apply Hall, Hc.
Qed.

Lemma decoded_dirs_first B t : decoded B t -> dirs_first t.
Proof.
  induction t as [n s o|n cs IH] using Node_ind_Forall; intros H;
    [exact I|].
  destruct H as (_ & _ & Hcs & _ & _ & Hall).
  apply fold_right_and_Forall in Hall.
  cbn [dirs_first]. split; [exact Hcs|].
  apply fold_right_and_Forall.
  rewrite Forall_forall in IH, Hall |- *. intros c Hc.
  apply IH; [exact Hc | apply Hall, Hc].
Qed.

(** X11: the children [read_entries] decodes from a stream shorter than
    2^32-1 bytes can always be written again by [write_entries], and what
    is written decodes, whatever follows it, to the same children. *)
Theorem reencode_decoded (f : stream) (cs : list Node) (f' : stream)
    (name : str) :
  len f < 4294967295 ->
  read_entries [] f = Done cs f' ->
  exists hb,
    write_entries (DirNode name cs) [] = Ok hb /\
    forall rest, read_entries [] (hb ++ rest) = Done cs rest.
Proof.
  intros Hlen H. unfold read_entries in H.
  destruct (read_entries_fuel_decoded (len f) _ _ _ _ H) as [Hd _]; [lia|].
  destruct Hd as (Hcs & Hnd & Hnf & Hall).
  destruct (proj2 (write_entries_writable (DirNode name cs) eq_refl))
    as [hb Hw].
  { split; [exact Hnd|]. split; [exact Hnf|].
    eapply Forall_impl; [|exact Hall]. intros c.
    apply decoded_encodable, Hlen. }
  assert (Hnames : names_ok (DirNode name cs)).
  { cbn [names_ok]. apply names_ok_list_Forall.
    eapply Forall_impl; [|exact Hall]. intros c Hc.
    split; [eapply decoded_name, Hc | eapply decoded_names_ok, Hc]. }
  exists hb. split; [exact Hw|]. intros rest. unfold read_entries.
  rewrite (read_entries_written _ hb Hw Hnames) by lia.
  cbn [app]. f_equal.
  rewrite (dirs_first_canon (DirNode name cs)); [reflexivity|].
  split; [exact Hcs|]. apply fold_right_and_Forall.
  eapply Forall_impl; [|exact Hall]. intros c. apply decoded_dirs_first.
Qed.

Lemma reencode_decoded_witness :
  exists hb,
    write_entries (DirNode [] [DirNode [] []]) [] = Ok hb /\
    forall rest, read_entries [] (hb ++ rest) = Done [DirNode [] []] rest.
Proof.
  apply (reencode_decoded
           [Byte.x01; Byte.x00; Byte.x00; Byte.x00; Byte.x00;
            Byte.x00; Byte.x00; Byte.x00; Byte.x00; Byte.x00;
            Byte.x00; Byte.x00; Byte.x00; Byte.x00; Byte.x2a]
           [DirNode [] []] [Byte.x2a] []).
  - reflexivity.
  - vm_compute. reflexivity.
Defined.

(** ** The header and what follows it *)

Lemma read_entries_fuel_consumes fuel acc f cs f' :
  read_entries_fuel fuel acc f = Done cs f' ->
  (length f' + 5 <= length f)%nat.
Proof.
  destruct fuel as [|fuel]; intros H; [discriminate H|].
  rewrite read_entries_fuel_S in H.
  pose proof (read_lengths 1 f) as L1.
  destruct (read 1 f) as [b1 f1]. cbn [fst snd] in L1.
  destruct (unpack_B b1) as [num_dirs|e] eqn:E1; [|discriminate H].
  apply unpack_B_length in E1.
  pose proof (read_dirs_outcome (read_entries_fuel fuel) fuel
                (Z.to_nat num_dirs) (read_entries_fuel_outcome fuel) acc f1)
    as Hd.
  destruct (read_dirs _ _ acc f1) as [cs1 f2|e part|]; try discriminate H.
  destruct Hd as (_ & Hl2 & _).
  pose proof (read_lengths 4 f2) as L4.
  destruct (read 4 f2) as [b4 f3]. cbn [fst snd] in L4.
  destruct (unpack_I b4) as [num_files|e] eqn:E4; [|discriminate H].
  apply unpack_I_length in E4.
  pose proof (read_files_outcome (Z.to_nat num_files) cs1 f3) as Hf.
  rewrite H in Hf. destruct Hf as (_ & Hl4 & _).
  unfold stream, bytes, byte in *. lia.
Qed.

(** X12: when [read_entries] completes it has taken a beginning of the
    stream, at least 5 bytes, and left the rest as it was; the children it
    returns are decided by that beginning alone, whatever follows it. *)
Theorem read_entries_header_only (acc : list Node) (f : stream)
    (cs : list Node) (f' : stream) :
  read_entries acc f = Done cs f' ->
  exists k,
    f = k ++ f' /\ (5 <= length k)%nat /\
    forall rest, read_entries acc (k ++ rest) = Done cs rest.
Proof.
  intros H. unfold read_entries in H.
  pose proof (read_entries_fuel_consumes _ _ _ _ _ H) as Hc.
  destruct (read_entries_fuel_cut _ _ _ _ _ H) as (k & Ef & _ & Hfr & _).
  exists k. split; [exact Ef|]. split.
  - apply (f_equal (@length _)) in Ef. rewrite length_app in Ef.
    unfold stream, bytes, byte in *. lia.
  - intros rest. specialize (Hfr rest).
    destruct (Nat.le_gt_cases (S (length f)) (S (length (k ++ rest))))
      as [Hle|Hgt].
    + unfold read_entries.
      rewrite (read_entries_fuel_le (S (length f))); [exact Hfr | exact Hle|].
      rewrite Hfr. discriminate.
    + rewrite <- Hfr. symmetry. apply read_entries_fuel_enough. lia.
Qed.

Lemma read_entries_header_only_witness :
  exists k,
    [Byte.x00; Byte.x00; Byte.x00; Byte.x00; Byte.x00; Byte.x2a]
    = k ++ [Byte.x2a] /\ (5 <= length k)%nat /\
    forall rest, read_entries [] (k ++ rest) = Done [] rest.
Proof.
  apply (read_entries_header_only []
           [Byte.x00; Byte.x00; Byte.x00; Byte.x00; Byte.x00; Byte.x2a]).
  reflexivity.
Defined.

(** ** Lookup and insertion by path *)

Lemma add_at_cons n cs p ps nodes :
  add_at (DirNode n cs) (p :: ps) nodes =
  match find (matches p) cs with
  | None => Raise StopIteration
  | Some child =>
      child' <- add_at child ps nodes ;;
      Ok (DirNode n (replace_first (matches p) child' cs))
  end.
Proof.
  induction cs as [|c cs IH]; [reflexivity|].
  cbn [add_at find replace_first] in IH |- *. fold (matches p c).
  destruct (matches p c) eqn:Ec.
  - destruct (add_at c ps nodes); reflexivity.
  - match type of IH with
    | bind ?r _ = _ => destruct r as [l|e]
    end; cbn [bind] in IH |- *.
    + destruct (find (matches p) cs) as [child|]; [|discriminate IH].
      destruct (add_at child ps nodes) as [child'|e]; cbn [bind] in IH |- *;
        [|discriminate IH].
      injection IH as ->. reflexivity.
    + destruct (find (matches p) cs) as [child|].
      * destruct (add_at child ps nodes) as [child'|e'];
          cbn [bind] in IH |- *; [discriminate IH | exact IH].
      * exact IH.
Qed.

Lemma find_replace_first test x cs child :
  find test cs = Some child -> test x = true ->
  find test (replace_first test x cs) = Some x.
Proof.
  intros H Hx. induction cs as [|c cs IH]; [discriminate H|].
  cbn [find replace_first] in H |- *. destruct (test c) eqn:Ec.
  - cbn [find]. rewrite Hx. reflexivity.
  - cbn [find]. rewrite Ec. apply IH, H.
Qed.

Lemma add_at_is_dir self path_parts nodes self' :
  add_at self path_parts nodes = Ok self' -> is_DirNode self' = true.
Proof.
  destruct path_parts as [|p ps]; destruct self as [n s o|n cs];
    cbn [add_at]; intros H; try discriminate H.
  - injection H as <-. reflexivity.
  - bind_inv H. injection H as <-. reflexivity.
Qed.

Lemma find_node_cons self p ps :
  find_node self (p :: ps) =
  match find (matches p) (children self) with
  | Some child => find_node child ps
  | None => Raise StopIteration
  end.
Proof. reflexivity. Qed.

Lemma find_node_add_at_all path_parts : found_and_added path_parts.
Proof.
  induction path_parts as [|p ps IH]; intros self nodes Hd.
  - destruct self as [n s o|n cs]; [discriminate Hd|].
    cbn [find_node add_at]. split; [reflexivity|].
    eexists. split; reflexivity.
  - destruct self as [n s o|n cs]; [discriminate Hd|].
    rewrite find_node_cons, add_at_cons. cbn [children].
    destruct (find (matches p) cs) as [child|] eqn:Ef;
      [|split; reflexivity].
    pose proof (find_some _ _ Ef) as [_ Hm].
    assert (Hcd : is_DirNode child = true).
    { unfold matches in Hm. apply andb_true_iff in Hm. tauto. }
    specialize (IH child nodes Hcd).
    destruct (find_node child ps) as [node|e].
    + destruct IH as (Hnd & child' & Ha & Hf').
      split; [exact Hnd|]. rewrite Ha. cbn [bind].
      eexists. split; [reflexivity|].
      rewrite find_node_cons. cbn [children].
      rewrite (find_replace_first _ _ _ _ Ef); [exact Hf'|].
      unfold matches in Hm |- *.
      rewrite (add_at_name _ _ _ _ Ha), (add_at_is_dir _ _ _ _ Ha).
      apply andb_true_iff in Hm. cbn [andb]. tauto.
    + destruct IH as [-> Ha]. split; [reflexivity|].
      rewrite Ha. reflexivity.
Qed.

(** X13: on a directory, [find_node] either returns a directory or raises
    [StopIteration], and appending children through the node it returns
    succeeds exactly when the lookup does; afterwards the same lookup
    returns that directory with the new children after those it had. *)
Theorem find_node_add_at (self : Node) (path_parts : Path)
    (nodes : list Node) :
  is_DirNode self = true ->
  match find_node self path_parts with
  | Ok node =>
      is_DirNode node = true /\
      exists self',
        add_at self path_parts nodes = Ok self' /\
        find_node self' path_parts
        = Ok (DirNode (name node) (children node ++ nodes))
  | Raise e =>
      e = StopIteration /\
      add_at self path_parts nodes = Raise StopIteration
  end.
Proof. apply find_node_add_at_all. Qed.

Lemma find_node_add_at_witness :
  let self := DirNode [] [FileNode (lit "d") 1 2;
                          DirNode (lit "d") [FileNode (lit "x") 0 0]] in
  is_DirNode (DirNode (lit "d") [FileNode (lit "x") 0 0]) = true /\
  exists self',
    add_at self [lit "d"] [FileNode (lit "y") 5 0] = Ok self' /\
    find_node self' [lit "d"]
    = Ok (DirNode (lit "d") [FileNode (lit "x") 0 0; FileNode (lit "y") 5 0]).
Proof.
  intros self.
  apply (find_node_add_at self [lit "d"] [FileNode (lit "y") 5 0]).
  reflexivity.
Defined.

(** ** Packing, opening and extracting *)

Lemma Forall_flat_map_replace {B} (Q : B -> Prop) (g : Node -> list B)
    test x cs :
  Forall Q (flat_map g cs) -> Forall Q (g x) ->
  Forall Q (flat_map g (replace_first test x cs)).
Proof.
  intros H Hx. induction cs as [|c cs IH]; [constructor|].
  cbn [flat_map replace_first] in H |- *.
  apply Forall_app in H as [Hc Hcs]. destruct (test c).
  - cbn [flat_map]. apply Forall_app. split; assumption.
  - cbn [flat_map]. apply Forall_app. split; [exact Hc | apply IH, Hcs].
Qed.

Lemma add_at_entries (Q : entry -> Prop) path_parts :
  forall self nodes self' path,
    add_at self path_parts nodes = Ok self' ->
    Forall Q (files self path) ->
    Forall Q (flat_map (files_step (path ++ path_parts)) nodes) ->
    Forall Q (files self' path).
Proof.
  induction path_parts as [|p ps IH]; intros self nodes self' path H Hold Hnew.
  - destruct self as [n s o|n cs]; [discriminate H|].
    cbn [add_at] in H. injection H as <-.
    rewrite app_nil_r in Hnew. rewrite files_eq in Hold |- *.
    rewrite flat_map_app. apply Forall_app. split; assumption.
  - destruct self as [n s o|n cs]; [discriminate H|].
    rewrite add_at_cons in H.
    destruct (find (matches p) cs) as [child|] eqn:Ef; [|discriminate H].
    apply bind_Ok in H as (child' & Ha & H). injection H as <-.
    pose proof (find_some _ _ Ef) as [Hin Hm].
    unfold matches in Hm. apply andb_true_iff in Hm as [Hd Hn].
    apply str_eqb_eq in Hn.
    rewrite files_eq in Hold |- *.
    apply Forall_flat_map_replace; [exact Hold|].
    pose proof (add_at_is_dir _ _ _ _ Ha) as Hd'.
    pose proof (add_at_name _ _ _ _ Ha) as Hn'.
    destruct child' as [? ? ?|m' cs']; [discriminate Hd'|].
    cbn [name] in Hn'. cbn [files_step].
    apply (IH child nodes _ _ Ha).
    + rewrite Forall_forall in Hold |- *. intros e He. apply Hold.
      apply in_flat_map. exists child. split; [exact Hin|].
      destruct child as [? ? ?|m cs0]; [discriminate Hd|].
      cbn [name] in Hn'. subst m'. exact He.
    + unfold joinpath. rewrite <- app_assoc. cbn [app].
      rewrite Hn', Hn. exact Hnew.
Qed.

Lemma for_each_ext {A S} (body1 body2 : A -> S -> result S) cs :
  (forall c s, body1 c s = body2 c s) ->
  forall s, for_each body1 cs s = for_each body2 cs s.
Proof.
  intros Hb. induction cs as [|c cs IH]; intros s; [reflexivity|].
  cbn [for_each]. rewrite Hb. destruct (body2 c s); cbn [bind];
    [apply IH | reflexivity].
Qed.

Lemma walk_step_sized fs step self self' :
  walk_step fs step self = Ok self' ->
  Forall (sized_as fs) (files self []) ->
  Forall (sized_as fs) (files self' []).
Proof.
  destruct step as [[root dirnames] filenames]. unfold walk_step.
  intros H Hold.
  apply bind_Ok in H as (node & _ & H).
  apply bind_Ok in H as (file_nodes & Hf & H).
  apply (add_at_entries _ _ _ _ _ _ H Hold). cbn [app].
  rewrite flat_map_app. apply Forall_app. split.
  - apply (for_each_invariant _
             (fun acc => Forall (sized_as fs)
                           (flat_map (files_step root) acc)) _)
      in Hf; [exact Hf| |constructor].
    intros fname acc acc' Hs Hacc.
    apply bind_Ok in Hs as (size & Hsize & Hs). injection Hs as <-.
    unfold add. rewrite flat_map_app. apply Forall_app.
    split; [exact Hacc|]. cbn [flat_map files_step app].
    constructor; [exact Hsize | constructor].
  - apply Forall_forall. intros e He.
    apply in_flat_map in He as (c & Hc & He).
    apply in_map_iff in Hc as (dname & <- & _). destruct He.
Qed.

Lemma assign_offsets_entries t :
  forall offset path,
    map entry_ps (files (fst (assign_offsets t offset)) path)
    = map entry_ps (files t path).
Proof.
  induction t as [n s o|n cs IH] using Node_ind_Forall;
    intros offset path; [reflexivity|].
  cbn [assign_offsets].
  assert (G : forall o1,
             map entry_ps
               (flat_map (files_step path)
                  (fst (map_accum assign_offsets cs o1)))
             = map entry_ps (flat_map (files_step path) cs)).
  { induction IH as [|c cs Hc _ IHcs]; intros o1; [reflexivity|].
    cbn [map_accum]. specialize (Hc o1 (joinpath path (name c))).
    pose proof (assign_offsets_name c o1) as Hn.
    destruct (assign_offsets c o1) as [c' o2] eqn:Ec.
    specialize (IHcs o2).
    destruct (map_accum assign_offsets cs o2) as [cs' o3].
    cbn [fst flat_map] in *. rewrite !map_app, IHcs. f_equal.
    destruct c as [m s o|m cs0].
    - cbn [assign_offsets] in Ec. injection Ec as <- _. reflexivity.
    - destruct c' as [? ? ?|m' cs1].
      + cbn [assign_offsets] in Ec.
        destruct (map_accum assign_offsets cs0 o1). discriminate Ec.
      + cbn [name] in Hn. subst m'. exact Hc. }
  specialize (G offset).
  destruct (map_accum assign_offsets cs offset) as [cs' o'].
  cbn [fst] in *. rewrite !files_eq. exact G.
Qed.

Lemma py_slice_middle (a d c : bytes) :
  py_slice (a ++ d ++ c) (len a) (len a + len d) = d.
Proof.
  unfold py_slice.
  assert (0 <= len a) by (unfold len; lia).
  assert (0 <= len d) by (unfold len; lia).
  assert (E : len (a ++ d ++ c) = len a + len d + len c)
    by (rewrite !len_app; lia).
  assert (0 <= len c) by (unfold len; lia).
  replace (len a <? 0) with false by (symmetry; apply Z.ltb_ge; lia).
  replace (len a + len d <? 0) with false by (symmetry; apply Z.ltb_ge; lia).
  rewrite !Z.min_l by lia.
  replace (len a + len d - len a) with (len d) by lia.
  rewrite !len_to_nat, skipn_app, skipn_all, Nat.sub_diag.
  cbn [skipn app]. rewrite firstn_app, firstn_all, Nat.sub_diag.
  cbn [firstn]. apply app_nil_r.
Qed.

Lemma st_size_read_bytes fs p s :
  st_size fs p = Ok s -> exists data, read_bytes fs p = Ok data /\ len data = s.
Proof.
  unfold st_size. intros H. apply bind_Ok in H as (data & Hd & H).
  injection H as <-. exists data. split; [exact Hd | reflexivity].
Qed.

Lemma payload_stored fs l :
  forall payload head,
    concat_results (fun e => read_bytes fs (entry_path e)) l = Ok payload ->
    Forall (sized_as fs) l ->
    contiguous (len head) l ->
    Forall (stored_in fs (head ++ payload)) l /\
    len payload = total_size l.
Proof.
  induction l as [|e l IH]; intros payload head H Hs Hc;
    cbn [concat_results] in H.
  - injection H as <-. split; [constructor | reflexivity].
  - apply bind_Ok in H as (d & Hd & H).
    apply bind_Ok in H as (payload' & Hp & H). injection H as <-.
    pose proof (Forall_inv Hs) as He. apply Forall_inv_tail in Hs.
    destruct Hc as [Ho Hc].
    apply st_size_read_bytes in He as (d' & Hd' & Hlen).
    rewrite Hd in Hd'. injection Hd' as <-.
    destruct (IH payload' (head ++ d) Hp Hs) as [IH1 IH2].
    { rewrite len_app, Hlen. exact Hc. }
    split.
    + constructor.
      * exists d. split; [exact Hd|]. rewrite Ho, <- Hlen.
        apply py_slice_middle.
      * rewrite <- app_assoc in IH1. exact IH1.
    + rewrite len_app. cbn [total_size]. lia.
Qed.

(** What a successful [from_path] has done, step by step. *)
Lemma from_path_steps fs t archive :
  from_path fs = Ok (t, archive) ->
  exists head payload,
    archive = head ++ payload /\
    name t = [] /\
    (exists hdr p,
       preamble = Ok p /\ write_entries t [] = Ok hdr /\ head = p ++ hdr) /\
    size_header t size_header_default = Ok (len head) /\
    contiguous (len head) (files t []) /\
    Forall (sized_as fs) (files t []) /\
    concat_results (fun e => read_bytes fs (entry_path e)) (files t [])
    = Ok payload.
Proof.
  unfold from_path. intros H.
  apply bind_Ok in H as (t0 & Ht0 & H).
  apply bind_Ok in H as (offset & Hoff & H).
  apply bind_Ok in H as (b1 & Hb1 & H).
  apply bind_Ok in H as (b2 & Hb2 & H).
  apply bind_Ok in H as (b3 & Hb3 & H).
  apply bind_Ok in H as (f & Hf & H).
  apply bind_Ok in H as (f' & Hf' & H).
  injection H as <- <-.
  set (t := fst (assign_offsets t0 offset)) in *.
  rewrite write_entries_appends in Hf.
  apply bind_Ok in Hf as (hdr & Hhdr & Hf). injection Hf as <-.
  rewrite (for_each_concat (fun e => read_bytes fs (entry_path e))) in Hf'.
  2:{ apply Forall_forall. intros [[[? ?] ?] ?] _ f0. reflexivity. }
  apply bind_Ok in Hf' as (payload & Hpay & Hf'). injection Hf' as <-.
  assert (Hname0 : name t0 = []).
  { eapply (for_each_invariant _ (fun s => name s = [])); [|exact Ht0|].
    - intros [[root dirnames] filenames] s s' Hs Hn.
      bind_inv Hs. bind_inv Hs. apply add_at_name in Hs. congruence.
    - reflexivity. }
  assert (Hname : name t = []).
  { unfold t. rewrite assign_offsets_name. exact Hname0. }
  assert (Hp : preamble = Ok (write (write (write [] b1) b2) b3)).
  { unfold preamble. rewrite Hb1, Hb2, Hb3. reflexivity. }
  set (p := write (write (write [] b1) b2) b3) in *.
  assert (Hs : size_header t size_header_default = Ok (len p + len hdr)).
  { destruct (size_header_preamble_sized t hdr Hname Hhdr) as (p' & Hp' & E).
    rewrite Hp in Hp'. injection Hp' as <-. exact E. }
  assert (HH : offset = len (p ++ hdr)).
  { rewrite len_app. unfold t in Hs.
    rewrite (size_header_strip (fst _)), strip_assign_offsets,
      <- size_header_strip, Hoff in Hs. injection Hs as ->. reflexivity. }
  exists (p ++ hdr), payload. split; [reflexivity|].
  split; [exact Hname|].
  split; [exists hdr, p; repeat split; assumption|].
  split; [rewrite len_app; exact Hs|].
  split.
  { rewrite <- HH. unfold t. apply assign_offsets_assigned.
    destruct t0; [|reflexivity]. discriminate Hhdr. }
  split; [|exact Hpay].
  assert (H0 : Forall (sized_as fs) (files t0 [])).
  { rewrite (for_each_ext _ (walk_step fs)) in Ht0
      by (intros [[? ?] ?] ?; reflexivity).
    eapply (for_each_invariant (walk_step fs)
              (fun s => Forall (sized_as fs) (files s [])));
      [|exact Ht0|constructor].
    intros step s s' Hs' Hinv. eapply walk_step_sized; eassumption. }
  unfold sized_as in *.
  apply (Forall_map entry_ps
           (fun ps => st_size fs (fst ps) = Ok (snd ps))) in H0.
  apply (Forall_map entry_ps (fun ps => st_size fs (fst ps) = Ok (snd ps))).
  unfold t. rewrite assign_offsets_entries. exact H0.
Qed.

(** X14: in the archive that [from_path] wrote, every file enumerated by
    the packer lies at its offset: the slice of the archive from the
    offset, as long as the size, is the content of the source file at the
    entry's path, and the size is the length of that file. *)
Theorem packed_files_stored (fs : FsNode) (t : Node) (archive : bytes) :
  from_path fs = Ok (t, archive) ->
  Forall (fun e => stored_in fs archive e /\ sized_as fs e) (files t []).
Proof.
  intros H.
  apply from_path_steps in H
    as (head & payload & -> & _ & _ & _ & Hc & Hs & Hp).
  destruct (payload_stored fs _ _ head Hp Hs Hc) as [Hst _].
  rewrite Forall_forall in Hst, Hs |- *. intros e He.
  split; [apply Hst, He | apply Hs, He].
Qed.

Lemma packed_files_stored_witness :
  exists t archive,
    from_path src_example = Ok (t, archive) /\
    Forall (fun e => stored_in src_example archive e /\
                     sized_as src_example e) (files t []).
Proof.
  do 2 eexists. split; [reflexivity|].
  apply (packed_files_stored src_example). reflexivity.
Defined.

Lemma contiguous_within l :
  forall start,
    contiguous start l -> Forall (fun e => 0 <= entry_size e) l ->
    Forall (fun e => start <= entry_offset e /\
                     entry_offset e + entry_size e <= start + total_size l)
      l /\ 0 <= total_size l.
Proof.
  induction l as [|e l IH]; intros start Hc Hs.
  - split; [constructor | cbn; lia].
  - destruct Hc as [He Hc]. pose proof (Forall_inv Hs) as Hse.
    cbv beta in Hse. apply Forall_inv_tail in Hs.
    destruct (IH _ Hc Hs) as [IH1 IH2]. cbn [total_size].
    split; [|lia]. constructor; [lia|].
    eapply Forall_impl; [|exact IH1]. cbv beta. intros e0 H0. lia.
Qed.

(** X15: the archive that [from_path] wrote is as long as the header
    length that [size_header] computed plus the sizes of all files, and
    every file lies between the end of the header and the end of the
    archive. *)
Theorem packed_archive_length (fs : FsNode) (t : Node) (archive : bytes) :
  from_path fs = Ok (t, archive) ->
  exists H,
    size_header t size_header_default = Ok H /\
    len archive = H + total_size (files t []) /\
    Forall (fun e => H <= entry_offset e /\
                     entry_offset e + entry_size e <= len archive)
      (files t []).
Proof.
  intros H.
  apply from_path_steps in H
    as (head & payload & -> & _ & (hdr & p & _ & Hw & _) & Hsz & Hc & Hs
        & Hp).
  destruct (payload_stored fs _ _ head Hp Hs Hc) as [_ Hlen].
  exists (len head). split; [exact Hsz|].
  rewrite len_app, Hlen. split; [reflexivity|].
  apply (contiguous_within _ _ Hc), (written_sizes t hdr [] Hw).
Qed.

Lemma packed_archive_length_witness :
  exists t archive,
    from_path src_example = Ok (t, archive) /\
    exists H,
      size_header t size_header_default = Ok H /\
      len archive = H + total_size (files t []) /\
      Forall (fun e => H <= entry_offset e /\
                       entry_offset e + entry_size e <= len archive)
        (files t []).
Proof.
  do 2 eexists. split; [reflexivity|].
  apply (packed_archive_length src_example). reflexivity.
Defined.

Lemma entry_path_rebase target e :
  entry_path (rebase target e) = target ++ entry_path e.
Proof. destruct e as [[[node p] s] o]. reflexivity. Qed.

Lemma extracted_rebase archive target e :
  extracted archive (rebase target e)
  = (target ++ entry_path e, snd (extracted archive e)).
Proof. destruct e as [[[node p] s] o]. reflexivity. Qed.

Lemma extract_eq (self : BigFile) target out :
  num_entries self = len (files_default (root self)) ->
  extract self target out
  = Ok (out ++ map (extracted (buffer self)) (files (root self) target),
        true).
Proof.
  intros Hn. unfold extract. rewrite extract_loop; [reflexivity|].
  rewrite Hn. unfold files_default, len.
  rewrite (files_length (root self) _ target).
  destruct (files (root self) target); [right; reflexivity|].
  left. cbn [length]. lia.
Qed.

(** X16: packing a directory, opening the archive and extracting it
    restores the files: when no name ends in a null character, the
    archive opens, [extract] returns [True], the paths written are the
    paths of the packed files below the target, and every file written
    holds what the source file at the same relative path holds. *)
Theorem pack_open_extract (fs : FsNode) (t : Node) (archive : bytes)
    (path target : Path) :
  from_path fs = Ok (t, archive) ->
  names_ok t ->
  exists bf out,
    BigFile_open path archive = Ok bf /\
    extract bf target [] = Ok (out, true) /\
    Permutation (map fst out)
      (map (fun e => target ++ entry_path e) (files t [])) /\
    Forall (restored fs target) out.
Proof.
  intros H Hn.
  apply from_path_steps in H
    as (head & payload & -> & Hname & (hdr & p & Hp & Hw & ->) & _ & Hc & Hs
        & Hpay).
  destruct (payload_stored fs _ _ (p ++ hdr) Hpay Hs Hc) as [Hst _].
  pose proof (open_packed t p hdr Hp Hw Hn Hname path payload) as Ho.
  rewrite app_assoc in Ho.
  eexists. eexists. split; [exact Ho|].
  split; [apply extract_eq; reflexivity|].
  cbn [root buffer app].
  assert (Hperm : Permutation (files (canon t) target)
                    (map (rebase target) (files t []))).
  { rewrite <- files_rebase_all. symmetry. apply files_canon_perm. }
  split.
  - rewrite (Permutation_map fst
               (Permutation_map (extracted ((p ++ hdr) ++ payload)) Hperm)).
    rewrite !map_map. erewrite map_ext; [reflexivity|].
    intros e. rewrite extracted_rebase. reflexivity.
  - apply Forall_forall. intros w Hw'.
    apply in_map_iff in Hw' as (e' & <- & He').
    apply (Permutation_in _ Hperm) in He'.
    apply in_map_iff in He' as (e & <- & He).
    rewrite extracted_rebase. rewrite Forall_forall in Hst.
    destruct (Hst e He) as (data & Hd & Hsl).
    exists (entry_path e). split; [reflexivity|].
    cbn [snd extracted]. rewrite Hsl. exact Hd.
Qed.

Lemma pack_open_extract_witness :
  exists t archive,
    from_path src_example = Ok (t, archive) /\
    exists bf out,
      BigFile_open [] archive = Ok bf /\
      extract bf [lit "out"] [] = Ok (out, true) /\
      Permutation (map fst out)
        (map (fun e => [lit "out"] ++ entry_path e) (files t [])) /\
      Forall (restored src_example [lit "out"]) out.
Proof.
  do 2 eexists. split; [reflexivity|].
  apply (pack_open_extract src_example).
  - reflexivity.
  - cbn. repeat split; discriminate.
Defined.

Lemma str_unpack_takes f s f1 :
  str_unpack f = Ok (s, f1) -> (length f1 + 4 + length s <= length f)%nat.
Proof.
  intros H. unfold str_unpack, read in H.
  destruct (unpack_I (firstn (Z.to_nat 4) f)) as [L|e] eqn:EL;
    cbn [bind] in H; [|discriminate H].
  remember (firstn (Z.to_nat L) (skipn (Z.to_nat 4) f)) as body eqn:Eb.
  remember (skipn (Z.to_nat L) (skipn (Z.to_nat 4) f)) as tail eqn:Et.
  assert (Hb : (length body + length tail + 4 = length f)%nat).
  { apply unpack_I_length in EL. rewrite length_firstn in EL.
    pose proof (firstn_skipn (Z.to_nat L) (skipn (Z.to_nat 4) f)) as E.
    rewrite <- Eb, <- Et in E. apply (f_equal (@length _)) in E.
    rewrite length_app, length_skipn in E.
    change (Z.to_nat 4) with 4%nat in *.
    pose proof (Nat.le_min_r 4 (length f)) as M1.
    change Init.Nat.min with Nat.min in *. rewrite EL in M1.
    unfold stream, bytes, byte in *. lia. }
  clear Eb Et. injection H as <- <-.
  pose proof (rstrip_null_spec body) as [_ [k Hk]].
  apply (f_equal (@length _)) in Hk. rewrite length_app, repeat_length in Hk.
  unfold decode_latin1. rewrite length_map.
  unfold stream, bytes, byte in *. lia.
Qed.

(** X17: a file that opens as an archive has at least 27 bytes: the magic
    string with its length, the version, the length of the root name and
    the two counts of the root. *)
Theorem BigFile_open_min_length (path : Path) (content : bytes)
    (bf : BigFile) :
  BigFile_open path content = Ok bf -> 27 <= len content.
Proof.
  unfold BigFile_open. intros H.
  apply bind_Ok in H as (buf & Hbuf & H).
  assert (buf = content) as ->.
  { destruct content; [discriminate Hbuf | injection Hbuf as <-; reflexivity]. }
  apply bind_Ok in H as ([magic f1] & Hm & H).
  pose proof (read_lengths 4 f1) as L4.
  destruct (read 4 f1) as [b4 f2]. cbn [fst snd] in L4.
  apply bind_Ok in H as (version & Hv & H).
  apply bind_Ok in H as ([name_root f3] & Hr & H).
  destruct (negb (str_eqb magic magic_sig)) eqn:Em; [discriminate H|].
  apply negb_false_iff, str_eqb_eq in Em. subst magic.
  destruct (_ || _); [discriminate H|].
  destruct (read_entries [] f3) as [cs f'|e part|] eqn:Er;
    try discriminate H.
  unfold read_entries in Er. apply read_entries_fuel_consumes in Er.
  apply str_unpack_takes in Hm, Hr. apply unpack_I_length in Hv.
  change (length magic_sig) with 10%nat in Hm.
  unfold len. unfold stream, bytes, byte in *. lia.
Qed.

Lemma BigFile_open_min_length_witness :
  27 <= len [Byte.x0a; Byte.x00; Byte.x00; Byte.x00;
             Byte.x55; Byte.x42; Byte.x49; Byte.x5f; Byte.x42;
             Byte.x46; Byte.x5f; Byte.x53; Byte.x49; Byte.x47;
             Byte.x01; Byte.x00; Byte.x00; Byte.x00;
             Byte.x00; Byte.x00; Byte.x00; Byte.x00;
             Byte.x00; Byte.x00; Byte.x00; Byte.x00; Byte.x00].
Proof.
  eapply (BigFile_open_min_length []). vm_compute. reflexivity.
Defined.

Lemma py_slice_within b offset size :
  0 <= offset -> 0 <= size -> offset + size <= len b ->
  py_slice b offset (offset + size)
  = firstn (Z.to_nat size) (skipn (Z.to_nat offset) b).
Proof.
  intros Ho Hs Hb. unfold py_slice.
  replace (offset <? 0) with false by (symmetry; apply Z.ltb_ge; lia).
  replace (offset + size <? 0) with false by (symmetry; apply Z.ltb_ge; lia).
  rewrite !Z.min_l by lia. f_equal. f_equal. lia.
Qed.

(** X18: when every entry of an opened archive lies within the mapped
    file, [extract] returns [True] after writing, for each entry in the
    order of the enumeration, a file of exactly [size] bytes: those of the
    mapped file from [offset] on. *)
Theorem extract_within (path : Path) (content : bytes) (bf : BigFile)
    (target : Path) (out : written) :
  BigFile_open path content = Ok bf ->
  Forall (fun e => entry_offset e + entry_size e <= len content)
    (files (root bf) target) ->
  extract bf target out
  = Ok (out ++ map (extracted_whole content) (files (root bf) target), true)
  /\
  Forall (fun e => len (snd (extracted_whole content e)) = entry_size e)
    (files (root bf) target).
Proof.
  intros H Hin. apply BigFile_open_inv in H as (Hb & Hn & Hr).
  pose proof (files_in_range _ Hr target) as Hf.
  split.
  - rewrite (extract_eq bf target out Hn), Hb. do 3 f_equal.
    apply map_ext_in. intros e He.
    rewrite Forall_forall in Hf, Hin.
    specialize (Hf e He). specialize (Hin e He).
    unfold extracted, extracted_whole. f_equal.
    apply py_slice_within; lia.
  - rewrite Forall_forall in Hf, Hin |- *. intros e He.
    specialize (Hf e He). specialize (Hin e He).
    cbn [extracted_whole snd]. unfold len in *.
    rewrite length_firstn, length_skipn.
    unfold stream, bytes, byte in *. lia.
Qed.

Lemma extract_within_witness :
  exists t archive,
    from_path src_example = Ok (t, archive) /\
    exists bf,
      BigFile_open [] archive = Ok bf /\
      extract bf [lit "out"] []
      = Ok ([] ++ map (extracted_whole archive)
                    (files (root bf) [lit "out"]), true).
Proof.
  do 2 eexists. split; [reflexivity|].
  eexists. split; [vm_compute; reflexivity|].
  eapply (proj1 (extract_within [] _ _ [lit "out"] [] _ _)).
  Unshelve.
  - vm_compute. reflexivity.
  - repeat constructor; vm_compute; discriminate.
Defined.

(** ** The tree that [from_path] builds *)

Lemma for_each_app {A S} (body : A -> S -> result S) l1 l2 :
  forall s,
    for_each body (l1 ++ l2) s
    = (s' <- for_each body l1 s ;; for_each body l2 s').
Proof.
  induction l1 as [|c l1 IH]; intros s; [reflexivity|].
  cbn [app for_each]. destruct (body c s); cbn [bind];
    [apply IH | reflexivity].
Qed.

Lemma map_flat_map {A B C} (h : B -> C) (g : A -> list B) l :
  map h (flat_map g l) = flat_map (fun x => map h (g x)) l.
Proof.
  induction l as [|x l IH]; [reflexivity|].
  cbn [flat_map]. rewrite map_app, IH. reflexivity.
Qed.

Lemma flat_map_ext_Forall {A B} (g1 g2 : A -> list B) l :
  Forall (fun x => g1 x = g2 x) l -> flat_map g1 l = flat_map g2 l.
Proof.
  induction 1 as [|x l Hx _ IH]; [reflexivity|].
  cbn [flat_map]. rewrite Hx, IH. reflexivity.
Qed.

Lemma walk_shift p d :
  forall r, walk (p :: r) d = map (shift p) (walk r d).
Proof.
  induction d as [n data|n es IH] using FsNode_ind_Forall; intros r;
    [reflexivity|].
  cbn [walk map shift]. f_equal.
  rewrite map_flat_map. apply flat_map_ext_Forall.
  eapply Forall_impl; [|exact IH]. intros e He. apply He.
Qed.

Lemma replace_first_same test cs child :
  find test cs = Some child -> replace_first test child cs = cs.
Proof.
  induction cs as [|c cs IH]; intros H; [reflexivity|].
  cbn [find replace_first] in H |- *. destruct (test c).
  - injection H as ->. reflexivity.
  - rewrite IH by exact H. reflexivity.
Qed.

Lemma replace_first_twice test x y cs :
  test y = true ->
  replace_first test x (replace_first test y cs) = replace_first test x cs.
Proof.
  intros Hy. induction cs as [|c cs IH]; [reflexivity|].
  cbn [replace_first]. destruct (test c) eqn:Ec.
  - cbn [replace_first]. rewrite Hy. reflexivity.
  - cbn [replace_first]. rewrite Ec, IH. reflexivity.
Qed.

Lemma walk_step_rel_node fs base step self self' :
  walk_step_rel fs base step self = Ok self' ->
  name self' = name self /\ is_DirNode self' = true.
Proof.
  destruct step as [[root dn] fn]. unfold walk_step_rel. intros H.
  apply bind_Ok in H as (node & _ & H).
  apply bind_Ok in H as (file_nodes & _ & H).
  split; [eapply add_at_name, H | eapply add_at_is_dir, H].
Qed.

Lemma walk_step_rel_descend fs base p step n cs child :
  find (matches p) cs = Some child ->
  walk_step_rel fs base (shift p step) (DirNode n cs)
  = (child' <- walk_step_rel fs (base ++ [p]) step child ;;
     Ok (DirNode n (replace_first (matches p) child' cs))).
Proof.
  intros Ef. destruct step as [[root dn] fn].
  unfold walk_step_rel, shift. rewrite find_node_cons. cbn [children].
  rewrite Ef.
  replace (base ++ p :: root) with ((base ++ [p]) ++ root)
    by (rewrite <- app_assoc; reflexivity).
  destruct (find_node child root); cbn [bind]; [|reflexivity].
  destruct (for_each _ (sorted str_leb fn) []); cbn [bind]; [|reflexivity].
  rewrite add_at_cons, Ef. reflexivity.
Qed.

Lemma walk_steps_descend fs base p n steps :
  forall cs child,
    find (matches p) cs = Some child ->
    for_each (walk_step_rel fs base) (map (shift p) steps) (DirNode n cs)
    = (child' <- for_each (walk_step_rel fs (base ++ [p])) steps child ;;
       Ok (DirNode n (replace_first (matches p) child' cs))).
Proof.
  induction steps as [|step steps IH]; intros cs child Ef.
  - cbn [map for_each bind]. rewrite (replace_first_same _ _ _ Ef).
    reflexivity.
  - cbn [map for_each]. rewrite (walk_step_rel_descend _ _ _ _ _ _ _ Ef).
    destruct (walk_step_rel fs (base ++ [p]) step child) as [child1|e]
      eqn:E1; cbn [bind]; [|reflexivity].
    pose proof (find_some _ _ Ef) as [_ Hm].
    assert (Hm1 : matches p child1 = true).
    { apply walk_step_rel_node in E1 as [Hn Hd]. unfold matches in *.
      rewrite Hn, Hd. apply andb_true_iff in Hm. cbn [andb]. tauto. }
    rewrite (IH _ child1 (find_replace_first _ _ _ _ Ef Hm1)).
    destruct (for_each _ steps child1); cbn [bind]; [|reflexivity].
    rewrite (replace_first_twice _ _ _ _ Hm1). reflexivity.
Qed.

Lemma fs_resolve_app fs a b :
  fs_resolve fs (a ++ b) = (d <- fs_resolve fs a ;; fs_resolve d b).
Proof.
  revert fs. induction a as [|p a IH]; intros fs; [reflexivity|].
  cbn [app fs_resolve]. destruct fs as [n data|n es]; [reflexivity|].
  destruct (find _ es); [apply IH | reflexivity].
Qed.

Lemma find_by_name es e :
  NoDup (map fs_name es) -> In e es ->
  find (fun x => str_eqb (fs_name x) (fs_name e)) es = Some e.
Proof.
  induction es as [|x es IH]; intros Hn Hin; [destruct Hin|].
  cbn [map] in Hn. apply NoDup_cons_iff in Hn as [Hx Hn].
  cbn [find]. destruct Hin as [->|Hin].
  - rewrite str_eqb_refl. reflexivity.
  - destruct (str_eqb (fs_name x) (fs_name e)) eqn:E.
    + apply str_eqb_eq in E. exfalso. apply Hx. rewrite E.
      apply in_map, Hin.
    + apply IH; assumption.
Qed.

Lemma fs_resolve_child fs base n es e :
  fs_resolve fs base = Ok (FsDir n es) ->
  NoDup (map fs_name es) -> In e es ->
  fs_resolve fs (base ++ [fs_name e]) = Ok e.
Proof.
  intros Hb Hn Hin. rewrite fs_resolve_app, Hb. cbn [bind fs_resolve].
  rewrite (find_by_name es e Hn Hin). reflexivity.
Qed.

Section SortedMap.
Context {A B : Type} (f : A -> B) (leb1 : A -> A -> bool)
  (leb2 : B -> B -> bool).
Hypothesis leb_f : forall a b, leb2 (f a) (f b) = leb1 a b.

Lemma insert_sorted_map x l :
  insert_sorted leb2 (f x) (map f l) = map f (insert_sorted leb1 x l).
Proof.
  induction l as [|y l IH]; [reflexivity|].
  cbn [map insert_sorted]. rewrite leb_f. destruct (leb1 x y).
  - reflexivity.
  - cbn [map]. rewrite IH. reflexivity.
Qed.

Lemma sorted_map l : sorted leb2 (map f l) = map f (sorted leb1 l).
Proof.
  induction l as [|x l IH]; [reflexivity|].
  cbn [map sorted fold_right]. fold (sorted leb2 (map f l)).
  fold (sorted leb1 l). rewrite IH. apply insert_sorted_map.
Qed.
End SortedMap.

Lemma insert_sorted_perm {A} (leb : A -> A -> bool) x l :
  Permutation (insert_sorted leb x l) (x :: l).
Proof.
  induction l as [|y l IH]; [reflexivity|].
  cbn [insert_sorted]. destruct (leb x y); [reflexivity|].
  rewrite IH. apply perm_swap.
Qed.

Lemma sorted_perm {A} (leb : A -> A -> bool) l :
  Permutation (sorted leb l) l.
Proof.
  induction l as [|x l IH]; [reflexivity|].
  cbn [sorted fold_right]. fold (sorted leb l).
  rewrite insert_sorted_perm. apply perm_skip, IH.
Qed.

Lemma file_nodes_loop fs dir fl :
  (forall e, In e fl ->
     is_FsDir e = false /\ fs_resolve fs (dir ++ [fs_name e]) = Ok e) ->
  forall acc,
    for_each (fun fname acc =>
                size <- st_size fs (joinpath dir fname) ;;
                Ok (add acc (FileNode fname size 0)))
      (map fs_name fl) acc
    = Ok (acc ++ map mirror fl).
Proof.
  induction fl as [|e fl IH]; intros H acc.
  - cbn [map for_each]. rewrite app_nil_r. reflexivity.
  - cbn [map for_each].
    destruct (H e (or_introl eq_refl)) as [Hf Hr].
    unfold st_size, read_bytes, joinpath. rewrite Hr.
    destruct e as [n data|n es]; [|discriminate Hf].
    cbn [bind fs_name mirror].
    unfold st_size, read_bytes, joinpath in IH. rewrite IH.
    + unfold add. rewrite <- app_assoc. reflexivity.
    + intros e He. apply H. right. exact He.
Qed.

Lemma mirror_name e : name (mirror e) = fs_name e.
Proof. destruct e; reflexivity. Qed.

Lemma mirror_is_DirNode e : is_DirNode (mirror e) = is_FsDir e.
Proof. destruct e; reflexivity. Qed.

Lemma mirror_is_FileNode e : is_FileNode (mirror e) = negb (is_FsDir e).
Proof. destruct e; reflexivity. Qed.

Lemma filter_map_mirror (test : Node -> bool) (test' : FsNode -> bool) es :
  (forall e, test (mirror e) = test' e) ->
  filter test (map mirror es) = map mirror (filter test' es).
Proof.
  intros H. induction es as [|e es IH]; [reflexivity|].
  cbn [map filter]. rewrite H. destruct (test' e); cbn [map]; rewrite IH;
    reflexivity.
Qed.

Lemma node_of_matches done x p :
  is_FsDir x = true -> matches p (node_of done x) = str_eqb (fs_name x) p.
Proof.
  intros Hx. unfold node_of, matches.
  destruct (existsb _ done); [|reflexivity].
  rewrite mirror_name, mirror_is_DirNode, Hx. reflexivity.
Qed.

Lemma str_eqb_sym a b : str_eqb a b = str_eqb b a.
Proof.
  destruct (str_eqb a b) eqn:E1, (str_eqb b a) eqn:E2; try reflexivity.
  - apply str_eqb_eq in E1. subst b. rewrite str_eqb_refl in E2.
    discriminate E2.
  - apply str_eqb_eq in E2. subst b. rewrite str_eqb_refl in E1.
    discriminate E1.
Qed.

Lemma str_eqb_neq a b : a <> b -> str_eqb a b = false.
Proof.
  intros H. destruct (str_eqb a b) eqn:E; [|reflexivity].
  apply str_eqb_eq in E. contradiction.
Qed.

(** Once the walk has been through the subdirectory [e], its empty node
    has become its tree, and no other node has changed. *)
Lemma node_of_done done e SD :
  NoDup (map fs_name SD) -> In e SD ->
  Forall (fun x => is_FsDir x = true) SD ->
  find (matches (fs_name e)) (map (node_of done) SD) = Some (node_of done e)
  /\ replace_first (matches (fs_name e)) (mirror e) (map (node_of done) SD)
     = map (node_of (e :: done)) SD.
Proof.
  induction SD as [|x SD IH]; intros Hn Hin Hd; [destruct Hin|].
  cbn [map] in Hn. apply NoDup_cons_iff in Hn as [Hx Hn].
  pose proof (Forall_inv Hd) as Hdx. apply Forall_inv_tail in Hd.
  cbn [map find replace_first]. rewrite (node_of_matches _ _ _ Hdx).
  destruct Hin as [->|Hin].
  - rewrite str_eqb_refl. split; [reflexivity|].
    f_equal.
    + unfold node_of. cbn [existsb]. rewrite str_eqb_refl. reflexivity.
    + apply map_ext_in. intros y Hy. unfold node_of. cbn [existsb].
      rewrite str_eqb_neq; [reflexivity|].
      intros E. apply Hx. rewrite E. apply in_map, Hy.
  - assert (Hne : fs_name x <> fs_name e).
    { intros E. apply Hx. rewrite E. apply in_map, Hin. }
    rewrite (str_eqb_neq _ _ Hne).
    destruct (IH Hn Hin Hd) as [IH1 IH2]. split; [exact IH1|].
    rewrite IH2. f_equal. unfold node_of. cbn [existsb].
    rewrite (str_eqb_sym (fs_name e)), (str_eqb_neq _ _ Hne). reflexivity.
Qed.

Lemma find_skip {A} (test : A -> bool) F l :
  Forall (fun c => test c = false) F -> find test (F ++ l) = find test l.
Proof.
  induction 1 as [|c F Hc _ IH]; [reflexivity|].
  cbn [app find]. rewrite Hc. exact IH.
Qed.

Lemma replace_first_skip test x F l :
  Forall (fun c => test c = false) F ->
  replace_first test x (F ++ l) = F ++ replace_first test x l.
Proof.
  induction 1 as [|c F Hc _ IH]; [reflexivity|].
  cbn [app replace_first]. rewrite Hc, IH. reflexivity.
Qed.

(** The walk through the subdirectories of a directory, in the order of
    the listing, fills their nodes one after the other. *)
Lemma walk_entries fs base n0 F SD :
  NoDup (map fs_name SD) ->
  Forall (fun x => is_FsDir x = true) SD ->
  Forall (fun c => is_DirNode c = false) F ->
  forall todo done,
    Forall mirrored todo ->
    NoDup (map fs_name todo) ->
    (forall e, In e todo -> is_FsDir e = true ->
       In e SD /\ fs_wf e /\
       fs_resolve fs (base ++ [fs_name e]) = Ok e /\
       existsb (fun y => str_eqb (fs_name y) (fs_name e)) done = false) ->
    for_each (walk_step_rel fs base)
      (flat_map (fun e => walk [fs_name e] e) todo)
      (DirNode n0 (F ++ map (node_of done) SD))
    = Ok (DirNode n0
            (F ++ map (node_of (rev (filter is_FsDir todo) ++ done)) SD)).
Proof.
  intros HnSD HdSD HF.
  assert (HFm : forall p, Forall (fun c => matches p c = false) F).
  { intros p. eapply Forall_impl; [|exact HF].
    intros c Hc. unfold matches. rewrite Hc. reflexivity. }
  induction todo as [|e todo IH]; intros done Hm Hn Hall; [reflexivity|].
  pose proof (Forall_inv Hm) as Hme. apply Forall_inv_tail in Hm.
  cbn [map] in Hn. apply NoDup_cons_iff in Hn as [Hne Hn].
  cbn [flat_map filter]. rewrite for_each_app.
  destruct (is_FsDir e) eqn:Ede.
  - destruct (Hall e (or_introl eq_refl) Ede) as (HinSD & Hwf & Hres & Hnd).
    rewrite walk_shift.
    destruct (node_of_done done e SD HnSD HinSD HdSD) as [Hfind Hrep].
    rewrite (walk_steps_descend _ _ _ _ _ _ (node_of done e)).
    2:{ rewrite find_skip by apply HFm. exact Hfind. }
    unfold node_of at 1. rewrite Hnd.
    rewrite (Hme fs (base ++ [fs_name e]) (fs_name e) Hres Hwf Ede).
    cbn [bind].
    replace (DirNode (fs_name e) (children (mirror e))) with (mirror e)
      by (destruct e; [discriminate Ede | reflexivity]).
    rewrite replace_first_skip by apply HFm. rewrite Hrep.
    rewrite (IH (e :: done) Hm Hn).
    + cbn [rev]. rewrite <- app_assoc. reflexivity.
    + intros e' Hin' Hd'.
      destruct (Hall e' (or_intror Hin') Hd') as (H1 & H2 & H3 & H4).
      repeat split; try assumption.
      cbn [existsb]. rewrite H4, str_eqb_neq; [reflexivity|].
      intros E. apply Hne. rewrite E. apply in_map, Hin'.
  - destruct e as [n data|n es]; [|discriminate Ede].
    cbn [walk for_each bind]. apply IH; try assumption.
    intros e' Hin' Hd'. apply Hall; [right|]; assumption.
Qed.

Lemma fs_wf_entry n es e : fs_wf (FsDir n es) -> In e es -> fs_wf e.
Proof.
  cbn [fs_wf]. intros [_ H] Hin. induction es as [|x es IH];
    [destruct Hin|].
  cbn [fold_right] in H. destruct H as [Hx H].
  destruct Hin as [->|Hin]; [exact Hx | apply IH; assumption].
Qed.

Lemma in_sorted {A} (leb : A -> A -> bool) l x :
  In x (sorted leb l) <-> In x l.
Proof.
  split; apply Permutation_in;
    [|apply Permutation_sym]; apply sorted_perm.
Qed.

(** The loop of [from_path] over the walk of a directory builds the tree
    of the directory. *)
Lemma walk_mirrors d : mirrored d.
Proof.
  induction d as [n data|n es IH] using FsNode_ind_Forall;
    intros fs base n0 Hres Hwf Hd; [discriminate Hd|].
  pose proof Hwf as [Hnd _].
  set (FL := sorted fs_name_leb (filter (fun e => negb (is_FsDir e)) es)).
  set (SD := sorted fs_name_leb (filter is_FsDir es)).
  assert (HinFL : forall e, In e FL -> In e es /\ is_FsDir e = false).
  { intros e He. apply in_sorted, filter_In in He as [He Hf].
    split; [exact He|]. destruct (is_FsDir e); [discriminate Hf|reflexivity]. }
  assert (HinSD : forall e, In e SD <-> In e es /\ is_FsDir e = true).
  { intros e. unfold SD. rewrite in_sorted, filter_In. reflexivity. }
  cbn [walk for_each].
  unfold walk_step_rel at 1. cbn [find_node bind]. rewrite app_nil_r.
  rewrite (sorted_map fs_name fs_name_leb str_leb)
    by (intros; reflexivity).
  fold FL. rewrite (file_nodes_loop fs base FL).
  2:{ intros e He. destruct (HinFL e He) as [Hin Hf]. split; [exact Hf|].
      eapply fs_resolve_child; eassumption. }
  cbn [bind add_at app].
  rewrite (sorted_map fs_name fs_name_leb str_leb)
    by (intros; reflexivity).
  fold SD. rewrite map_map.
  change (map (fun x => DirNode (fs_name x) []) SD)
    with (map (node_of []) SD).
  rewrite (flat_map_ext_Forall _ (fun e => walk [fs_name e] e))
    by (apply Forall_forall; intros; reflexivity).
  rewrite (walk_entries fs base n0 (map mirror FL) SD).
  - f_equal. f_equal. cbn [mirror children]. unfold arrange.
    rewrite (filter_map_mirror _ _ es mirror_is_FileNode).
    rewrite (filter_map_mirror _ _ es mirror_is_DirNode).
    rewrite !(sorted_map mirror fs_name_leb node_name_leb)
      by (intros a b; unfold node_name_leb, fs_name_leb;
          rewrite !mirror_name; reflexivity).
    fold FL SD. f_equal. apply map_ext_in. intros x Hx.
    unfold node_of.
    replace (existsb _ _) with true; [reflexivity|].
    symmetry. apply existsb_exists. exists x. split.
    + rewrite app_nil_r. apply in_rev. rewrite rev_involutive.
      apply filter_In, HinSD, Hx.
    + apply str_eqb_refl.
  - eapply Permutation_NoDup; [apply Permutation_sym, Permutation_map,
      sorted_perm|].
    clear -Hnd. induction es as [|x es IH]; [constructor|].
    cbn [map] in Hnd. apply NoDup_cons_iff in Hnd as [Hx Hnd].
    cbn [filter]. destruct (is_FsDir x); [|apply IH, Hnd].
    cbn [map]. constructor; [|apply IH, Hnd].
    intros Hin. apply Hx. apply in_map_iff in Hin as (y & Ey & Hy).
    apply filter_In in Hy as [Hy _]. rewrite <- Ey. apply in_map, Hy.
  - apply Forall_forall. intros x Hx. apply HinSD, Hx.
  - apply Forall_forall. intros c Hc.
    apply in_map_iff in Hc as (e & <- & He).
    rewrite mirror_is_DirNode. apply HinFL, He.
  - exact IH.
  - exact Hnd.
  - intros e Hin Hde. split; [apply HinSD; split; assumption|].
    split; [eapply fs_wf_entry; eassumption|].
    split; [eapply fs_resolve_child; eassumption | reflexivity].
Qed.

Lemma from_path_loop fs t archive :
  from_path fs = Ok (t, archive) ->
  exists t0 offset,
    for_each (walk_step fs) (walk [] fs) (DirNode [] []) = Ok t0 /\
    size_header t0 size_header_default = Ok offset /\
    t = fst (assign_offsets t0 offset).
Proof.
  unfold from_path. intros H.
  apply bind_Ok in H as (t0 & Ht0 & H).
  apply bind_Ok in H as (offset & Hoff & H).
  apply bind_Ok in H as (b1 & Hb1 & H).
  apply bind_Ok in H as (b2 & Hb2 & H).
  apply bind_Ok in H as (b3 & Hb3 & H).
  apply bind_Ok in H as (f & Hf & H).
  apply bind_Ok in H as (f' & Hf' & H).
  injection H as <- <-.
  exists t0, offset. repeat split; [|exact Hoff].
  rewrite (for_each_ext _ (walk_step fs)) in Ht0
    by (intros [[? ?] ?] ?; reflexivity).
  exact Ht0.
Qed.

(** X19: the tree of a packed directory.  When no directory of the source
    holds two entries of the same name, the tree that [from_path] returns
    is the tree of the source directory, under the nameless root: in every
    directory the files in the order of their names, then the
    subdirectories in the order of their names, each file with the length
    of its content as size, and the offsets assigned along the enumeration
    from the size of the header on. *)
Theorem from_path_tree (fs : FsNode) (t : Node) (archive : bytes) :
  is_FsDir fs = true -> fs_wf fs ->
  from_path fs = Ok (t, archive) ->
  exists offset,
    size_header (tree_of fs) size_header_default = Ok offset /\
    t = fst (assign_offsets (tree_of fs) offset).
Proof.
  intros Hd Hwf H.
  apply from_path_loop in H as (t0 & offset & Ht0 & Hoff & ->).
  rewrite (for_each_ext _ (walk_step_rel fs []))
    in Ht0 by (intros [[? ?] ?] ?; reflexivity).
  rewrite (walk_mirrors fs fs [] [] eq_refl Hwf Hd) in Ht0.
  injection Ht0 as <-. exists offset. split; [exact Hoff | reflexivity].
Qed.

Lemma from_path_tree_witness :
  exists t archive,
    from_path unordered_example = Ok (t, archive) /\
    is_FsDir unordered_example = true /\
    fs_wf unordered_example /\
    exists offset,
      size_header (tree_of unordered_example) size_header_default
      = Ok offset /\
      t = fst (assign_offsets (tree_of unordered_example) offset).
Proof.
  assert (Hwf : fs_wf unordered_example).
  { cbn. repeat split; repeat constructor; cbn; intuition discriminate. }
  do 2 eexists. split; [reflexivity|]. split; [reflexivity|].
  split; [exact Hwf|].
  eapply (from_path_tree unordered_example);
    [reflexivity | exact Hwf | reflexivity].
Defined.

(** ** The order of the listings *)

Lemma str_leb_refl a : str_leb a a = true.
Proof.
  induction a as [|x a IH]; [reflexivity|].
  cbn [str_leb]. rewrite N.ltb_irrefl. exact IH.
Qed.

Lemma str_leb_total a :
  forall b, a <> b -> str_leb a b = negb (str_leb b a).
Proof.
  induction a as [|x a IH]; intros [|y b] Hne; try reflexivity.
  - contradiction.
  - cbn [str_leb].
    destruct (N.ltb_spec x y) as [Hxy|Hxy], (N.ltb_spec y x) as [Hyx|Hyx];
      try reflexivity; try lia.
    apply IH. intros ->. apply Hne. f_equal. lia.
Qed.

Lemma str_leb_trans a :
  forall b c, str_leb a b = true -> str_leb b c = true -> str_leb a c = true.
Proof.
  induction a as [|x a IH]; intros [|y b] [|z c] Hab Hbc;
    try reflexivity; try discriminate.
  cbn [str_leb] in *.
  destruct (N.ltb_spec x y) as [Hxy|Hxy], (N.ltb_spec y z) as [Hyz|Hyz],
    (N.ltb_spec x z) as [Hxz|Hxz]; try reflexivity; try lia;
    destruct (N.ltb_spec y x) as [Hyx|Hyx]; try discriminate; try lia;
    destruct (N.ltb_spec z y) as [Hzy|Hzy]; try discriminate; try lia;
    destruct (N.ltb_spec z x) as [Hzx|Hzx]; try lia.
  eapply IH; eassumption.
Qed.

Section SortedPermutation.
Context {A : Type} (key : A -> str).
Let leb (a b : A) : bool := str_leb (key a) (key b).

Lemma insert_sorted_swap x y l :
  key x <> key y ->
  insert_sorted leb x (insert_sorted leb y l)
  = insert_sorted leb y (insert_sorted leb x l).
Proof.
  intros Hne.
  assert (Hxy : leb x y = negb (leb y x))
    by (apply str_leb_total, Hne).
  induction l as [|z l IH].
  - cbn [insert_sorted]. rewrite Hxy. destruct (leb y x); reflexivity.
  - cbn [insert_sorted].
    destruct (leb y z) eqn:Eyz, (leb x z) eqn:Exz; cbn [insert_sorted].
    + rewrite Hxy. destruct (leb y x); cbn [negb]; rewrite ?Exz, ?Eyz;
        reflexivity.
    + rewrite Eyz. destruct (leb x y) eqn:Exy.
      * unfold leb in *.
        rewrite (str_leb_trans _ _ _ Exy Eyz) in Exz. discriminate Exz.
      * cbn [insert_sorted]. rewrite Exz. reflexivity.
    + rewrite Exz. destruct (leb y x) eqn:Eyx.
      * unfold leb in *.
        rewrite (str_leb_trans _ _ _ Eyx Exz) in Eyz. discriminate Eyz.
      * cbn [insert_sorted]. rewrite Eyz. reflexivity.
    + rewrite Exz, Eyz, IH. reflexivity.
Qed.

(** Sorting by name gives the same list for every order of the input,
    when the names are distinct. *)
Lemma sorted_permutation l l' :
  Permutation l l' -> NoDup (map key l) -> sorted leb l = sorted leb l'.
Proof.
  induction 1 as [|x l l' Hp IH|x y l|l l' l'' Hp1 IH1 Hp2 IH2];
    intros Hn.
  - reflexivity.
  - cbn [map] in Hn. apply NoDup_cons_iff in Hn as [_ Hn].
    cbn [sorted fold_right]. fold (sorted leb l) (sorted leb l').
    rewrite (IH Hn). reflexivity.
  - cbn [map] in Hn. apply NoDup_cons_iff in Hn as [Hy _].
    cbn [sorted fold_right]. fold (sorted leb l).
    apply insert_sorted_swap. intros E. apply Hy. left. symmetry. exact E.
  - rewrite (IH1 Hn). apply IH2.
    eapply Permutation_NoDup; [apply Permutation_map, Hp1 | exact Hn].
Qed.
End SortedPermutation.

Lemma NoDup_map_filter {A B} (f : A -> B) (test : A -> bool) l :
  NoDup (map f l) -> NoDup (map f (filter test l)).
Proof.
  induction l as [|x l IH]; intros Hn; [constructor|].
  cbn [map] in Hn. apply NoDup_cons_iff in Hn as [Hx Hn].
  cbn [filter]. destruct (test x); [|apply IH, Hn].
  cbn [map]. constructor; [|apply IH, Hn].
  intros Hin. apply Hx. apply in_map_iff in Hin as (y & Ey & Hy).
  apply filter_In in Hy as [Hy _]. rewrite <- Ey. apply in_map, Hy.
Qed.

Lemma Permutation_filter {A} (test : A -> bool) l l' :
  Permutation l l' -> Permutation (filter test l) (filter test l').
Proof.
  induction 1 as [|x l l' Hp IH|x y l|l l' l'' Hp1 IH1 Hp2 IH2].
  - reflexivity.
  - cbn [filter]. destruct (test x); [apply perm_skip|]; exact IH.
  - cbn [filter]. destruct (test x), (test y); try reflexivity.
    apply perm_swap.
  - etransitivity; eassumption.
Qed.

Lemma arrange_permutation l l' :
  Permutation l l' -> NoDup (map name l) -> arrange l = arrange l'.
Proof.
  intros Hp Hn. unfold arrange. f_equal.
  - apply (sorted_permutation name).
    + apply Permutation_filter, Hp.
    + apply NoDup_map_filter, Hn.
  - apply (sorted_permutation name).
    + apply Permutation_filter, Hp.
    + apply NoDup_map_filter, Hn.
Qed.

Lemma relisted_dir n es d' :
  relisted (FsDir n es) d' <->
  exists es' l,
    d' = FsDir n es' /\ Forall2 relisted es l /\ Permutation l es'.
Proof.
  assert (G : forall es l,
             (fix all (es l : list FsNode) : Prop :=
                match es, l with
                | [], [] => True
                | e :: es1, x :: l1 => relisted e x /\ all es1 l1
                | _, _ => False
                end) es l <-> Forall2 relisted es l).
  { clear. induction es as [|e es IH]; intros [|x l]; split; intros H.
    - constructor.
    - exact I.
    - destruct H.
    - inversion H.
    - destruct H.
    - inversion H.
    - destruct H as [H1 H2]. constructor; [exact H1 | apply IH, H2].
    - inversion H; subst. split; [assumption | apply IH; assumption]. }
  cbn [relisted]. split.
  - destruct d' as [n' data|n' es']; [intros []|].
    intros (-> & l & Hall & Hp). exists es', l.
    split; [reflexivity|]. split; [apply G, Hall | exact Hp].
  - intros (es' & l & -> & Hall & Hp). split; [reflexivity|].
    exists l. split; [apply G, Hall | exact Hp].
Qed.

Lemma relisted_name d d' : relisted d d' -> fs_name d' = fs_name d.
Proof.
  destruct d as [n data|n es].
  - cbn [relisted]. intros ->. reflexivity.
  - intros H. apply relisted_dir in H as (es' & l & -> & _). reflexivity.
Qed.

Lemma relisted_names es l :
  Forall2 relisted es l -> map fs_name l = map fs_name es.
Proof.
  induction 1 as [|e x es l H _ IH]; [reflexivity|].
  cbn [map]. rewrite IH, (relisted_name _ _ H). reflexivity.
Qed.

Lemma fs_wf_dir n es :
  fs_wf (FsDir n es) <-> NoDup (map fs_name es) /\ Forall fs_wf es.
Proof.
  cbn [fs_wf]. split; intros [H1 H2]; (split; [exact H1|]).
  - induction es as [|e es IH]; [constructor|].
    cbn [fold_right] in H2. destruct H2 as [He H2].
    cbn [map] in H1. apply NoDup_cons_iff in H1 as [_ H1].
    constructor; [exact He | apply IH; assumption].
  - clear H1. induction H2 as [|e es He _ IH]; [exact I|].
    cbn [fold_right]. split; assumption.
Qed.

Lemma relisted_wf d : forall d', relisted d d' -> fs_wf d -> fs_wf d'.
Proof.
  induction d as [n data|n es IH] using FsNode_ind_Forall; intros d' Hr Hwf.
  - cbn [relisted] in Hr. subst d'. exact I.
  - apply relisted_dir in Hr as (es' & l & -> & Hall & Hp).
    apply fs_wf_dir in Hwf as [Hn Hwf]. apply fs_wf_dir. split.
    + eapply Permutation_NoDup; [apply Permutation_map, Hp|].
      rewrite (relisted_names _ _ Hall). exact Hn.
    + eapply Permutation_Forall; [exact Hp|].
      clear Hp Hn. induction Hall as [|e x es l H _ IHl]; [constructor|].
      pose proof (Forall_inv IH) as He. apply Forall_inv_tail in IH.
      pose proof (Forall_inv Hwf) as Hwe. apply Forall_inv_tail in Hwf.
      constructor; [apply (He x H Hwe) | apply IHl; assumption].
Qed.

Lemma relisted_mirror d :
  forall d', relisted d d' -> fs_wf d -> mirror d' = mirror d.
Proof.
  induction d as [n data|n es IH] using FsNode_ind_Forall; intros d' Hr Hwf.
  - cbn [relisted] in Hr. subst d'. reflexivity.
  - apply relisted_dir in Hr as (es' & l & -> & Hall & Hp).
    apply fs_wf_dir in Hwf as [Hn Hwf]. cbn [mirror]. f_equal.
    assert (Hm : map mirror l = map mirror es).
    { clear Hp Hn. induction Hall as [|e x es l H _ IHl]; [reflexivity|].
      pose proof (Forall_inv IH) as He. apply Forall_inv_tail in IH.
      pose proof (Forall_inv Hwf) as Hwe. apply Forall_inv_tail in Hwf.
      cbn [map]. rewrite (He x H Hwe), IHl by assumption. reflexivity. }
    rewrite <- Hm. symmetry. apply arrange_permutation.
    + apply Permutation_map, Hp.
    + rewrite Hm, map_map.
      rewrite (map_ext _ fs_name) by apply mirror_name. exact Hn.
Qed.

Lemma find_none_names q es l :
  map fs_name l = map fs_name es ->
  find (fun e => str_eqb (fs_name e) q) es = None ->
  find (fun e => str_eqb (fs_name e) q) l = None.
Proof.
  revert l. induction es as [|e es IH]; intros [|x l] E H;
    try discriminate E; [reflexivity|].
  cbn [map] in E. injection E as Ex E.
  cbn [find] in H |- *. rewrite Ex.
  destruct (str_eqb (fs_name e) q); [discriminate H|]. apply IH; assumption.
Qed.

Lemma find_relisted q es l e :
  Forall2 relisted es l ->
  find (fun e => str_eqb (fs_name e) q) es = Some e ->
  exists x, In x l /\ relisted e x /\ fs_name x = q.
Proof.
  induction 1 as [|e0 x0 es l H _ IH]; intros Hf; [discriminate Hf|].
  cbn [find] in Hf. destruct (str_eqb (fs_name e0) q) eqn:E.
  - injection Hf as <-. exists x0. split; [left; reflexivity|].
    split; [exact H|]. rewrite (relisted_name _ _ H).
    apply str_eqb_eq, E.
  - destruct (IH Hf) as (x & Hx & Hr & Hq). exists x.
    split; [right; exact Hx|]. split; assumption.
Qed.

Lemma find_none_perm {A} (test : A -> bool) l l' :
  Permutation l l' -> find test l = None -> find test l' = None.
Proof.
  intros Hp H. destruct (find test l') as [x|] eqn:E; [|reflexivity].
  apply find_some in E as [Hin Hx].
  apply (Permutation_in _ (Permutation_sym Hp)) in Hin.
  rewrite (find_none _ _ H _ Hin) in Hx. discriminate Hx.
Qed.

(** A path leads to the same place in a directory and in the directory
    listed in another order. *)
Lemma fs_resolve_relisted p :
  forall d d', relisted d d' -> fs_wf d ->
    match fs_resolve d p with
    | Ok e => exists e', fs_resolve d' p = Ok e' /\ relisted e e' /\ fs_wf e
    | Raise x => fs_resolve d' p = Raise x
    end.
Proof.
  induction p as [|q p IH]; intros d d' Hr Hwf.
  - exists d'. repeat split; assumption.
  - destruct d as [n data|n es].
    + cbn [relisted] in Hr. subst d'. reflexivity.
    + pose proof (relisted_wf _ _ Hr Hwf) as Hwf'.
      apply relisted_dir in Hr as (es' & l & -> & Hall & Hp).
      apply fs_wf_dir in Hwf as [Hn Hwf].
      apply fs_wf_dir in Hwf' as [Hn' _].
      cbn [fs_resolve].
      destruct (find _ es) as [e|] eqn:Ef.
      * destruct (find_relisted _ _ _ _ Hall Ef) as (x & Hx & Hrx & Hq).
        apply (Permutation_in _ Hp) in Hx.
        pose proof (find_by_name es' x Hn' Hx) as Hf'.
        rewrite Hq in Hf'. rewrite Hf'.
        apply IH; [exact Hrx|].
        apply find_some in Ef as [Hin _].
        eapply Forall_forall in Hwf; eassumption.
      * rewrite (find_none_perm _ _ _ Hp
                   (find_none_names _ _ _ (relisted_names _ _ Hall) Ef)).
        reflexivity.
Qed.

Lemma read_bytes_relisted d d' p :
  relisted d d' -> fs_wf d -> read_bytes d' p = read_bytes d p.
Proof.
  intros Hr Hwf. unfold read_bytes.
  pose proof (fs_resolve_relisted p d d' Hr Hwf) as H.
  destruct (fs_resolve d p) as [e|x].
  - destruct H as (e' & -> & Hre & _). cbn [bind].
    destruct e as [n data|n es].
    + cbn [relisted] in Hre. subst e'. reflexivity.
    + apply relisted_dir in Hre as (es' & l & -> & _). reflexivity.
  - rewrite H. reflexivity.
Qed.

(** Packing is settled by the tree of the directory and by what its files
    hold. *)
Lemma from_path_same fs fs' :
  is_FsDir fs = true -> fs_wf fs ->
  is_FsDir fs' = true -> fs_wf fs' ->
  tree_of fs' = tree_of fs ->
  (forall p, read_bytes fs' p = read_bytes fs p) ->
  from_path fs' = from_path fs.
Proof.
  intros Hd Hwf Hd' Hwf' Ht Hr.
  unfold from_path.
  rewrite (for_each_ext _ (walk_step_rel fs' []))
    by (intros [[? ?] ?] ?; reflexivity).
  rewrite (for_each_ext _ (walk_step_rel fs []) (walk [] fs))
    by (intros [[? ?] ?] ?; reflexivity).
  rewrite (walk_mirrors fs' fs' [] [] eq_refl Hwf' Hd').
  rewrite (walk_mirrors fs fs [] [] eq_refl Hwf Hd).
  fold (tree_of fs') (tree_of fs). rewrite Ht. cbn [bind].
  destruct (size_header _ size_header_default) as [offset|e]; cbn [bind];
    [|reflexivity].
  destruct (str_pack magic_sig) as [b1|e]; cbn [bind]; [|reflexivity].
  destruct (pack_I 1) as [b2|e]; cbn [bind]; [|reflexivity].
  destruct (str_pack []) as [b3|e]; cbn [bind]; [|reflexivity].
  destruct (write_entries _ _) as [f|e]; cbn [bind]; [|reflexivity].
  rewrite (for_each_ext _
             (fun '(_, name, _, _) f =>
                b <- read_bytes fs name ;; Ok (write f b))).
  - reflexivity.
  - intros [[[? p] ?] ?] f0. rewrite Hr. reflexivity.
Qed.

(** X20: the archive does not depend on the order in which the file
    system lists the entries of a directory.  When no directory of the
    source holds two entries of the same name, packing the directory and
    packing the same directory listed in another order, at any depth, give
    the same result: the same tree and the same bytes, or the same
    error. *)
Theorem from_path_listing_order (fs fs' : FsNode) :
  is_FsDir fs = true -> fs_wf fs -> relisted fs fs' ->
  from_path fs' = from_path fs.
Proof.
  intros Hd Hwf Hr.
  apply from_path_same; try assumption.
  - destruct fs as [n data|n es]; [discriminate Hd|].
    apply relisted_dir in Hr as (es' & l & -> & _). reflexivity.
  - apply (relisted_wf _ _ Hr Hwf).
  - unfold tree_of. rewrite (relisted_mirror _ _ Hr Hwf). reflexivity.
  - intros p. apply read_bytes_relisted; assumption.
Qed.

Lemma from_path_listing_order_witness :
  is_FsDir unordered_example = true /\
  fs_wf unordered_example /\
  relisted unordered_example reordered_example /\
  from_path reordered_example = from_path unordered_example.
Proof.
  assert (Hwf : fs_wf unordered_example).
  { cbn. repeat split; repeat constructor; cbn; intuition discriminate. }
  assert (Hr : relisted unordered_example reordered_example).
  { cbn [relisted unordered_example reordered_example].
    split; [reflexivity|].
    exists [FsDir (lit "m") [FsFile (lit "p") [];
                             FsFile (lit "q") [Byte.x05]];
            FsFile (lit "z") [Byte.x01; Byte.x02];
            FsDir (lit "b") [];
            FsFile (lit "a") [Byte.x07]].
    split.
    - split.
      + split; [reflexivity|].
        exists [FsFile (lit "q") [Byte.x05]; FsFile (lit "p") []].
        split; [repeat split | apply perm_swap].
      + split; [reflexivity|]. split.
        * split; [reflexivity|]. exists []. split; [exact I | constructor].
        * split; [reflexivity | exact I].
    - apply Permutation_sym.
      apply (Permutation_cons_app
               [FsDir (lit "m") [FsFile (lit "p") [];
                                 FsFile (lit "q") [Byte.x05]];
                FsFile (lit "z") [Byte.x01; Byte.x02];
                FsDir (lit "b") []] []).
      apply (Permutation_cons_app
               [FsDir (lit "m") [FsFile (lit "p") [];
                                 FsFile (lit "q") [Byte.x05]];
                FsFile (lit "z") [Byte.x01; Byte.x02]] []).
      reflexivity. }
  split; [reflexivity|]. split; [exact Hwf|]. split; [exact Hr|].
  apply (from_path_listing_order unordered_example);
    [reflexivity | exact Hwf | exact Hr].
Defined.

(** ** The errors of packing *)

Lemma str_pack_raises s e :
  str_pack s = Raise e -> e = UnicodeEncodeError \/ e = StructError.
Proof.
  unfold str_pack. intros H.
  destruct (encode_latin1 s) as [enc|e'] eqn:He; cbn [bind] in H.
  - unfold pack_I in H. destruct (_ && _); cbn [bind] in H;
      [discriminate H|]. injection H as <-. right. reflexivity.
  - injection H as <-. left. apply (encode_latin1_raise _ _ He).
Qed.

Lemma pack_I_raises n e : pack_I n = Raise e -> e = StructError.
Proof.
  unfold pack_I. destruct (_ && _); intros H; [discriminate H|].
  injection H as <-. reflexivity.
Qed.

Lemma pack_B_raises n e : pack_B n = Raise e -> e = StructError.
Proof.
  unfold pack_B. destruct (_ && _); intros H; [discriminate H|].
  injection H as <-. reflexivity.
Qed.

Lemma for_each_raises {A S} (body : A -> S -> result S) (P : exn -> Prop)
    cs :
  Forall (fun c => forall s e, body c s = Raise e -> P e) cs ->
  forall s e, for_each body cs s = Raise e -> P e.
Proof.
  induction 1 as [|c cs Hc _ IH]; intros s e H; [discriminate H|].
  cbn [for_each] in H. destruct (body c s) as [s'|e'] eqn:E;
    cbn [bind] in H.
  - eapply IH, H.
  - injection H as <-. eapply Hc, E.
Qed.

Lemma for_each_total {A S} (body : A -> S -> result S) cs :
  Forall (fun c => forall s, exists s', body c s = Ok s') cs ->
  forall s, exists s', for_each body cs s = Ok s'.
Proof.
  induction 1 as [|c cs Hc _ IH]; intros s; [eexists; reflexivity|].
  cbn [for_each]. destruct (Hc s) as [s' ->]. cbn [bind]. apply IH.
Qed.

Lemma size_header_raises t :
  forall size e,
    is_DirNode t = true -> size_header t size = Raise e ->
    e = UnicodeEncodeError \/ e = StructError.
Proof.
  induction t as [n s o|n cs IH] using Node_ind_Forall;
    intros size e Hd H; [discriminate Hd|].
  cbn [size_header] in H.
  destruct (str_pack n) as [p|e'] eqn:Ep; cbn [bind] in H.
  2:{ injection H as <-. eapply str_pack_raises, Ep. }
  destruct (for_each _ cs (size + len p + 1)) as [size'|e'] eqn:E1;
    cbn [bind] in H.
  - eapply (for_each_raises _
      (fun x => x = UnicodeEncodeError \/ x = StructError) cs); [|exact H].
    apply Forall_forall. intros [n' s' o'|n' cs'] _ s0 e0 H0.
    + destruct (str_pack n') as [p'|e''] eqn:Ep'; cbn [bind] in H0;
        [discriminate H0|]. injection H0 as <-.
      eapply str_pack_raises, Ep'.
    + discriminate H0.
  - injection H as <-. eapply (for_each_raises _
      (fun x => x = UnicodeEncodeError \/ x = StructError) cs); [|exact E1].
    eapply Forall_impl; [|exact IH]. intros c Hc s0 e0 H0.
    destruct (is_DirNode c) eqn:Ec; [|discriminate H0].
    eapply Hc; eassumption.
Qed.

Lemma write_entries_raises t :
  forall f e,
    is_DirNode t = true -> write_entries t f = Raise e ->
    e = UnicodeEncodeError \/ e = StructError.
Proof.
  induction t as [n s o|n cs IH] using Node_ind_Forall;
    intros f e Hd H; [discriminate Hd|].
  cbn [write_entries] in H.
  destruct (pack_B _) as [b|e'] eqn:Eb; cbn [bind] in H.
  2:{ injection H as <-. right. eapply pack_B_raises, Eb. }
  destruct (for_each _ cs (write f b)) as [f1|e'] eqn:E1; cbn [bind] in H.
  - destruct (pack_I _) as [b'|e'] eqn:Eb'; cbn [bind] in H.
    2:{ injection H as <-. right. eapply pack_I_raises, Eb'. }
    eapply (for_each_raises _
      (fun x => x = UnicodeEncodeError \/ x = StructError) cs); [|exact H].
    apply Forall_forall. intros [n' s' o'|n' cs'] _ s0 e0 H0;
      [|discriminate H0].
    destruct (str_pack n') as [p'|e''] eqn:Ep'; cbn [bind] in H0.
    2:{ injection H0 as <-. eapply str_pack_raises, Ep'. }
    destruct (pack_I s') as [b1|e''] eqn:E2; cbn [bind] in H0.
    2:{ injection H0 as <-. right. eapply pack_I_raises, E2. }
    destruct (pack_I o') as [b2|e''] eqn:E3; cbn [bind] in H0;
      [discriminate H0|].
    injection H0 as <-. right. eapply pack_I_raises, E3.
  - injection H as <-. eapply (for_each_raises _
      (fun x => x = UnicodeEncodeError \/ x = StructError) cs); [|exact E1].
    eapply Forall_impl; [|exact IH]. intros c Hc s0 e0 H0.
    destruct c as [n' s' o'|n' cs']; [discriminate H0|].
    destruct (str_pack n') as [p'|e''] eqn:Ep'; cbn [bind] in H0.
    + eapply Hc; [reflexivity | exact H0].
    + injection H0 as <-. eapply str_pack_raises, Ep'.
Qed.

(** X21: the errors of packing.  When no directory of the source holds two
    entries of the same name, [from_path] fails only with
    [UnicodeEncodeError] or [struct.error], the errors of sizing and
    writing the header: the walk always finds the node of the directory it
    is at (no [StopIteration]), and every file the tree names is there to
    be read. *)
Theorem from_path_raises (fs : FsNode) (e : exn) :
  is_FsDir fs = true -> fs_wf fs ->
  from_path fs = Raise e ->
  e = UnicodeEncodeError \/ e = StructError.
Proof.
  intros Hd Hwf H.
  pose proof (walk_mirrors fs fs [] [] eq_refl Hwf Hd) as Hloop.
  fold (tree_of fs) in Hloop.
  assert (Hsized : Forall (sized_as fs) (files (tree_of fs) [])).
  { eapply (for_each_invariant (walk_step fs)
              (fun s => Forall (sized_as fs) (files s [])));
      [|exact Hloop|constructor].
    intros step s s' Hs' Hinv. eapply walk_step_sized; eassumption. }
  unfold from_path in H.
  rewrite (for_each_ext _ (walk_step_rel fs [])) in H
    by (intros [[? ?] ?] ?; reflexivity).
  rewrite Hloop in H. cbn [bind] in H.
  destruct (size_header (tree_of fs) size_header_default) as [offset|e']
    eqn:Es; cbn [bind] in H.
  2:{ injection H as <-. eapply size_header_raises; [|exact Es].
      reflexivity. }
  destruct (str_pack magic_sig) as [b1|e'] eqn:E1; cbn [bind] in H.
  2:{ injection H as <-. eapply str_pack_raises, E1. }
  destruct (pack_I 1) as [b2|e'] eqn:E2; cbn [bind] in H.
  2:{ injection H as <-. right. eapply pack_I_raises, E2. }
  destruct (str_pack []) as [b3|e'] eqn:E3; cbn [bind] in H.
  2:{ injection H as <-. eapply str_pack_raises, E3. }
  destruct (write_entries _ _) as [f|e'] eqn:Ew; cbn [bind] in H.
  2:{ injection H as <-. eapply write_entries_raises; [|exact Ew].
      destruct (tree_of fs) eqn:Et; [discriminate Et|].
      cbn [assign_offsets]. destruct (map_accum _ _ _). reflexivity. }
  exfalso.
  set (t := fst (assign_offsets (tree_of fs) offset)) in *.
  destruct (for_each_total
              (fun '(_, name, _, _) f =>
                 b <- read_bytes fs name ;; Ok (write f b))
              (files t []))
    with (s := f) as [f' Hf'].
  - assert (Hs : Forall (sized_as fs) (files t [])).
    { unfold sized_as in *.
      apply (Forall_map entry_ps
               (fun ps => st_size fs (fst ps) = Ok (snd ps))) in Hsized.
      apply (Forall_map entry_ps
               (fun ps => st_size fs (fst ps) = Ok (snd ps))).
      unfold t. rewrite assign_offsets_entries. exact Hsized. }
    eapply Forall_impl; [|exact Hs].
    intros [[[c p] s] o] Hc f0. unfold sized_as in Hc.
    apply st_size_read_bytes in Hc as (data & Hdata & _).
    cbn in Hdata. rewrite Hdata. eexists. reflexivity.
  - rewrite Hf' in H. discriminate H.
Qed.

Lemma from_path_raises_witness :
  is_FsDir unencodable_example = true /\
  fs_wf unencodable_example /\
  from_path unencodable_example = Raise UnicodeEncodeError /\
  (UnicodeEncodeError = UnicodeEncodeError \/
   UnicodeEncodeError = StructError).
Proof.
  assert (Hwf : fs_wf unencodable_example).
  { cbn. repeat split; repeat constructor; cbn; intuition discriminate. }
  split; [reflexivity|]. split; [exact Hwf|]. split; [reflexivity|].
  apply (from_path_raises unencodable_example);
    [reflexivity | exact Hwf | reflexivity].
Defined.

(** ** The printed tree *)

Lemma zip_each_combine {A B C} (body : A -> B -> list C) cs :
  forall ps,
    zip_each body ps cs = flat_map (fun pc => body (fst pc) (snd pc))
                            (combine ps cs).
Proof.
  induction cs as [|c cs IH]; intros [|p ps]; try reflexivity.
  cbn [zip_each combine flat_map fst snd]. rewrite IH. reflexivity.
Qed.

Lemma zip_each_len {A B C} (body : A -> B -> list C) (g : B -> Z) cs :
  Forall (fun c => forall p, len (body p c) = g c) cs ->
  forall ps,
    (length cs <= length ps)%nat ->
    len (zip_each body ps cs) = fold_right (fun c acc => g c + acc) 0 cs.
Proof.
  induction 1 as [|c cs Hc _ IH]; intros ps Hl; [reflexivity|].
  destruct ps as [|p ps]; [cbn [length] in Hl; lia|].
  cbn [zip_each fold_right]. rewrite len_app, Hc, IH; [reflexivity|].
  cbn [length] in Hl. lia.
Qed.

Lemma zip_each_Forall {A B C} (body : A -> B -> list C) (P : C -> Prop) cs :
  Forall (fun c => forall p, Forall P (body p c)) cs ->
  forall ps, Forall P (zip_each body ps cs).
Proof.
  induction 1 as [|c cs Hc _ IH]; intros [|p ps]; try constructor.
  cbn [zip_each]. apply Forall_app. split; [apply Hc | apply IH].
Qed.

Lemma pointers_length cs : (length cs <= length (pointers cs))%nat.
Proof.
  unfold pointers. rewrite length_app, repeat_length. unfold len.
  cbn [length]. lia.
Qed.

Lemma extension_nonempty (prefix pointer : str) :
  prefix ++ (if str_eqb pointer tee then pipe else blank) <> [].
Proof.
  intros H. apply app_eq_nil in H as [_ H].
  destruct (str_eqb pointer tee); discriminate H.
Qed.

Lemma tree_below t :
  forall prefix,
    prefix <> [] ->
    len (tree t prefix) = count_dirs t + count_files t - 1
    \/ is_DirNode t = false.
Proof.
  induction t as [n s o|n cs IH] using Node_ind_Forall; intros prefix Hp;
    [right; reflexivity|].
  left. cbn [tree count_dirs count_files].
  destruct prefix as [|x prefix]; [contradiction|]. cbn [app].
  rewrite (zip_each_len _ (fun c => count_dirs c + count_files c)).
  - clear. induction cs as [|c cs IHc]; cbn [fold_right]; lia.
  - eapply Forall_impl; [|exact IH]. intros c Hc p.
    destruct c as [n' s' o'|n' cs']; [reflexivity|].
    destruct (Hc ((x :: prefix) ++ (if str_eqb p tee then pipe else blank))
                (extension_nonempty _ _)) as [E|E]; [|discriminate E].
    cbn [app] in E. unfold len, str in *. cbn [length]. lia.
  - apply pointers_length.
Qed.

Lemma starts_with_app prefix ext line :
  starts_with (prefix ++ ext) line -> starts_with prefix line.
Proof.
  intros [rest ->]. exists (ext ++ rest). rewrite app_assoc. reflexivity.
Qed.

Lemma tree_starts_with t :
  forall prefix, Forall (starts_with prefix) (tree t prefix).
Proof.
  induction t as [n s o|n cs IH] using Node_ind_Forall; intros prefix;
    [constructor|].
  cbn [tree]. apply Forall_app. split.
  - destruct prefix; constructor; [|constructor].
    eexists. cbn [app]. reflexivity.
  - apply zip_each_Forall. eapply Forall_impl; [|exact IH].
    intros c Hc p. destruct c as [n' s' o'|n' cs'].
    + constructor; [|constructor]. eexists. reflexivity.
    + constructor; [eexists; reflexivity|].
      eapply Forall_impl; [|apply Hc].
      intros line. apply starts_with_app.
Qed.

(** X22: [tree] leaves no node out.  Called on a directory node without a
    prefix it prints one heading line and then one line for every node
    below, files and directories alike: as many lines as the tree has
    directories, the root included, and files.  With a prefix it prints no
    heading, and every line begins with the prefix. *)
Theorem tree_lines (t : Node) (prefix : str) :
  is_DirNode t = true ->
  len (tree t []) = count_dirs t + count_files t /\
  (prefix <> [] ->
   len (tree t prefix) = count_dirs t + count_files t - 1) /\
  Forall (starts_with prefix) (tree t prefix).
Proof.
  intros Hd. split; [|split].
  - destruct t as [n s o|n cs]; [discriminate Hd|].
    cbn [tree count_dirs count_files].
    rewrite len_app.
    rewrite (zip_each_len _ (fun c => count_dirs c + count_files c)).
    + unfold len. cbn [length].
      clear. induction cs as [|c cs IHc]; cbn [fold_right]; lia.
    + apply Forall_forall. intros c _ p.
      destruct c as [n' s' o'|n' cs']; [reflexivity|].
      destruct (tree_below (DirNode n' cs')
                  ([] ++ (if str_eqb p tee then pipe else blank))
                  (extension_nonempty _ _)) as [E|E]; [|discriminate E].
      cbn [app] in E. unfold len, str in *. cbn [length app]. lia.
    + apply pointers_length.
  - intros Hp. destruct (tree_below t prefix Hp) as [E|E]; [exact E|].
    rewrite E in Hd. discriminate Hd.
  - apply tree_starts_with.
Qed.

Lemma tree_lines_witness :
  is_DirNode (tree_of unordered_example) = true /\
  len (tree (tree_of unordered_example) []) = 7 /\
  len (tree (tree_of unordered_example) pipe) = 6 /\
  Forall (starts_with pipe) (tree (tree_of unordered_example) pipe).
Proof.
  split; [reflexivity|].
  destruct (tree_lines (tree_of unordered_example) pipe eq_refl)
    as (H1 & H2 & H3).
  split; [exact H1|]. split; [|exact H3].
  apply H2. discriminate.
Defined.

(** ** Extracting and packing again *)

Lemma put_entry_absent q k fresh es :
  Forall (fun e => str_eqb (fs_name e) q = false) es ->
  put_entry q k fresh es = (e <- k fresh ;; Ok (es ++ [e])).
Proof.
  induction 1 as [|e es He _ IH]; [reflexivity|].
  cbn [put_entry app]. rewrite He, IH.
  destruct (k fresh); reflexivity.
Qed.

Lemma put_entry_last q k fresh es c :
  Forall (fun e => str_eqb (fs_name e) q = false) es ->
  fs_name c = q ->
  put_entry q k fresh (es ++ [c]) = (c' <- k c ;; Ok (es ++ [c'])).
Proof.
  intros Hes Hc. induction Hes as [|e es He _ IH].
  - cbn [put_entry app]. rewrite Hc, str_eqb_refl. reflexivity.
  - cbn [put_entry app]. rewrite He, IH.
    destruct (k c); reflexivity.
Qed.

Lemma fs_write_name p :
  forall d data d', fs_write d p data = Ok d' -> fs_name d' = fs_name d.
Proof.
  destruct p as [|q rest]; intros [n x|n es] data d' H; cbn [fs_write] in H;
    try discriminate H.
  - injection H as <-. reflexivity.
  - apply bind_Ok in H as (es' & _ & H). injection H as <-. reflexivity.
Qed.

Lemma flat_map_map {A B C} (f : A -> B) (g : B -> list C) l :
  flat_map g (map f l) = flat_map (fun x => g (f x)) l.
Proof.
  induction l as [|x l IH]; [reflexivity|].
  cbn [map flat_map]. rewrite IH. reflexivity.
Qed.

Lemma sorted_Forall {A} (leb : A -> A -> bool) (P : A -> Prop) l :
  Forall P l -> Forall P (sorted leb l).
Proof.
  intros H. eapply Permutation_Forall;
    [apply Permutation_sym, sorted_perm | exact H].
Qed.

Lemma filter_Forall {A} (p : A -> bool) l :
  Forall (fun x => p x = true) (filter p l).
Proof. apply Forall_forall. intros x Hx. apply filter_In in Hx as [_ Hx].
  exact Hx. Qed.

(** The children of the tree of a directory: the files in the order of
    their names, then the subdirectories in the order of their names. *)
Lemma arrange_mirror es :
  arrange (map mirror es)
  = map mirror
      (sorted fs_name_leb (filter (fun e => negb (is_FsDir e)) es))
    ++ map mirror (sorted fs_name_leb (filter is_FsDir es)).
Proof.
  unfold arrange.
  rewrite (filter_map_mirror _ _ es mirror_is_FileNode).
  rewrite (filter_map_mirror _ _ es mirror_is_DirNode).
  rewrite !(sorted_map mirror fs_name_leb node_name_leb)
    by (intros a b; unfold node_name_leb, fs_name_leb;
        rewrite !mirror_name; reflexivity).
  reflexivity.
Qed.

Lemma paths_of_dir n es :
  paths_of (FsDir n es)
  = flat_map (fun s => map (cons (fs_name s)) (paths_of s))
      (sorted fs_name_leb (filter is_FsDir es))
    ++ map (fun f => [fs_name f])
         (sorted fs_name_leb (filter (fun e => negb (is_FsDir e)) es)).
Proof.
  set (SD := sorted fs_name_leb (filter is_FsDir es)).
  set (FL := sorted fs_name_leb (filter (fun e => negb (is_FsDir e)) es)).
  assert (HSD : Forall (fun e => is_FsDir e = true) SD)
    by apply sorted_Forall, filter_Forall.
  assert (HFL : Forall (fun e => is_FsDir e = false) FL).
  { apply sorted_Forall. eapply Forall_impl; [|apply filter_Forall].
    intros e He. cbv beta in He. destruct (is_FsDir e);
      [discriminate He | reflexivity]. }
  unfold paths_of. cbn [mirror canon]. rewrite files_eq.
  rewrite canon_dirs_map, arrange_mirror. fold SD FL.
  rewrite !filter_app.
  rewrite (filter_none is_DirNode (map mirror FL)).
  2:{ apply Forall_map. eapply Forall_impl; [|exact HFL].
      intros e He. rewrite mirror_is_DirNode. exact He. }
  rewrite (filter_all is_DirNode (map mirror SD)).
  2:{ apply Forall_map. eapply Forall_impl; [|exact HSD].
      intros e He. rewrite mirror_is_DirNode. exact He. }
  rewrite (filter_all is_FileNode (map mirror FL)).
  2:{ apply Forall_map. eapply Forall_impl; [|exact HFL].
      intros e He. rewrite mirror_is_FileNode, He. reflexivity. }
  rewrite (filter_none is_FileNode (map mirror SD)).
  2:{ apply Forall_map. eapply Forall_impl; [|exact HSD].
      intros e He. rewrite mirror_is_FileNode, He. reflexivity. }
  cbn [app]. rewrite app_nil_r, flat_map_app, map_app, !map_map.
  rewrite !flat_map_map, !map_flat_map. f_equal.
  - apply flat_map_ext_Forall. eapply Forall_impl; [|exact HSD].
    intros [m x|m es'] He; [discriminate He|].
    cbn [mirror canon files_step fs_name]. unfold joinpath. cbn [app].
    rewrite (files_rebase_all _ [m]), map_map. unfold paths_of.
    rewrite map_map. apply map_ext. intros e.
    rewrite entry_path_rebase. reflexivity.
  - clear -HFL. induction HFL as [|f FL Hf _ IH]; [reflexivity|].
    cbn [flat_map map]. rewrite IH.
    destruct f as [m x|m es']; [reflexivity | discriminate Hf].
Qed.

Lemma fs_write_absent n E q r data :
  absent q E ->
  fs_write (FsDir n E) (q :: r) data
  = (c <- fs_write (match r with [] => FsFile q [] | _ :: _ => FsDir q [] end)
            r data ;;
     Ok (FsDir n (E ++ [c]))).
Proof.
  intros H. cbn [fs_write]. rewrite put_entry_absent by exact H.
  destruct (fs_write _ r data); reflexivity.
Qed.

Lemma fs_write_last n E c q r data :
  absent q E -> fs_name c = q ->
  fs_write (FsDir n (E ++ [c])) (q :: r) data
  = (c' <- fs_write c r data ;; Ok (FsDir n (E ++ [c']))).
Proof.
  intros H Hc. cbn [fs_write].
  rewrite (put_entry_last _ _ _ _ _ H Hc).
  destruct (fs_write c r data); reflexivity.
Qed.

(** Files copied below the subdirectory [q], once it is there, change
    nothing but that subdirectory. *)
Lemma copy_existing fs base n0 q E :
  absent q E ->
  forall rels c,
    fs_name c = q ->
    for_each (copy_step fs base) (map (cons q) rels) (FsDir n0 (E ++ [c]))
    = (c' <- for_each (copy_step fs (base ++ [q])) rels c ;;
       Ok (FsDir n0 (E ++ [c']))).
Proof.
  intros HE. induction rels as [|r rels IH]; intros c Hc; [reflexivity|].
  cbn [map for_each]. unfold copy_step at 1 3.
  rewrite (fs_write_last _ _ _ _ _ _ HE Hc).
  replace ((base ++ [q]) ++ r) with (base ++ q :: r)
    by (rewrite <- app_assoc; reflexivity).
  destruct (fs_write c r _) as [c1|e] eqn:E1; cbn [bind]; [|reflexivity].
  apply IH. rewrite (fs_write_name _ _ _ _ E1). exact Hc.
Qed.

(** The first file copied below a subdirectory that is not there yet makes
    it, last in the listing. *)
Lemma copy_fresh fs base n0 q E rels :
  absent q E -> rels <> [] -> Forall (fun p => p <> []) rels ->
  for_each (copy_step fs base) (map (cons q) rels) (FsDir n0 E)
  = (c' <- for_each (copy_step fs (base ++ [q])) rels (FsDir q []) ;;
     Ok (FsDir n0 (E ++ [c']))).
Proof.
  intros HE Hrels Hr. destruct rels as [|r rels]; [contradiction|].
  apply Forall_inv in Hr.
  cbn [map for_each]. unfold copy_step at 1 3.
  rewrite (fs_write_absent _ _ _ _ _ HE).
  destruct r as [|x r]; [contradiction|].
  replace ((base ++ [q]) ++ x :: r) with (base ++ q :: x :: r)
    by (rewrite <- app_assoc; reflexivity).
  destruct (fs_write (FsDir q []) (x :: r) _) as [c1|e] eqn:E1;
    cbn [bind]; [|reflexivity].
  apply (copy_existing _ _ _ _ _ HE).
  apply (fs_write_name _ _ _ _ E1).
Qed.

Lemma paths_of_nonempty d : Forall (fun p => p <> []) (paths_of d).
Proof.
  unfold paths_of. apply Forall_map.
  eapply Forall_impl; [|apply files_nodes].
  intros e (dirs & n & E). rewrite E. cbn. intros H.
  apply app_eq_nil in H as [_ H]. discriminate H.
Qed.

Lemma nonempty_dirs_entry n es e :
  nonempty_dirs (FsDir n es) -> In e es ->
  match e with FsDir _ [] => False | _ => True end /\ nonempty_dirs e.
Proof.
  cbn [nonempty_dirs]. induction es as [|x es IH]; intros H Hin;
    [destruct Hin|].
  cbn [fold_right] in H. destruct H as (H1 & H2 & H3).
  destruct Hin as [->|Hin]; [split; assumption | apply IH; assumption].
Qed.

(** A directory that is not empty, and has no empty directory below it,
    has a file somewhere. *)
Lemma has_paths d :
  is_FsDir d = true -> fs_entries d <> [] -> nonempty_dirs d ->
  exists p, In p (paths_of d).
Proof.
  induction d as [n x|n es IH] using FsNode_ind_Forall; intros Hd Hes Hne;
    [discriminate Hd|].
  cbn [fs_entries] in Hes. destruct es as [|e es]; [contradiction|].
  destruct (nonempty_dirs_entry _ _ e Hne (or_introl eq_refl)) as [He1 He2].
  rewrite paths_of_dir. destruct (is_FsDir e) eqn:Ee.
  - destruct e as [m x|m es']; [discriminate Ee|].
    destruct (Forall_inv IH eq_refl) as [p Hp]; [|exact He2|].
    { cbn [fs_entries]. destruct es'; [contradiction | discriminate]. }
    exists (m :: p). apply in_or_app. left. apply in_flat_map.
    exists (FsDir m es'). split.
    + apply in_sorted, filter_In. split; [left; reflexivity | reflexivity].
    + apply in_map, Hp.
  - exists [fs_name e]. apply in_or_app. right.
    apply (in_map (fun f => [fs_name f])).
    apply in_sorted, filter_In. split; [left; reflexivity|].
    rewrite Ee. reflexivity.
Qed.

Lemma rebuilt_name d : fs_name (rebuilt d) = fs_name d.
Proof. destruct d; reflexivity. Qed.

Lemma rebuilt_is_FsDir d : is_FsDir (rebuilt d) = is_FsDir d.
Proof. destruct d; reflexivity. Qed.

Lemma rebuilt_dir d :
  is_FsDir d = true -> FsDir (fs_name d) (fs_entries (rebuilt d)) = rebuilt d.
Proof. destruct d; [discriminate | reflexivity]. Qed.

Lemma filter_map_comm {A B} (f : A -> B) (test : B -> bool)
    (test' : A -> bool) l :
  (forall x, test (f x) = test' x) ->
  filter test (map f l) = map f (filter test' l).
Proof.
  intros H. induction l as [|x l IH]; [reflexivity|].
  cbn [map filter]. rewrite H. destruct (test' x); cbn [map]; rewrite IH;
    reflexivity.
Qed.

Lemma rearrange_rebuilt es :
  rearrange (map rebuilt es)
  = map rebuilt (sorted fs_name_leb (filter is_FsDir es))
    ++ sorted fs_name_leb (filter (fun e => negb (is_FsDir e)) es).
Proof.
  unfold rearrange.
  rewrite (filter_map_comm rebuilt is_FsDir is_FsDir)
    by apply rebuilt_is_FsDir.
  rewrite (filter_map_comm rebuilt _ (fun e => negb (is_FsDir e)))
    by (intros x; rewrite rebuilt_is_FsDir; reflexivity).
  rewrite (sorted_map rebuilt fs_name_leb fs_name_leb)
    by (intros a b; unfold fs_name_leb; rewrite !rebuilt_name; reflexivity).
  f_equal. f_equal.
  rewrite <- (map_id (filter _ es)) at 2. apply map_ext_in.
  intros e He. apply filter_In in He as [_ He].
  destruct e; [reflexivity | discriminate He].
Qed.

Lemma NoDup_names_eq (es : list FsNode) a b :
  NoDup (map fs_name es) -> In a es -> In b es ->
  fs_name a = fs_name b -> a = b.
Proof.
  induction es as [|x es IH]; intros Hn Ha Hb E; [destruct Ha|].
  cbn [map] in Hn. apply NoDup_cons_iff in Hn as [Hx Hn].
  destruct Ha as [->|Ha], Hb as [->|Hb].
  - reflexivity.
  - exfalso. apply Hx. rewrite E. apply in_map, Hb.
  - exfalso. apply Hx. rewrite <- E. apply in_map, Ha.
  - apply IH; assumption.
Qed.

(** Copying the files of a directory, one after the other: each is new
    and is listed last. *)
Lemma copy_files fs base n0 fl :
  NoDup (map fs_name fl) ->
  Forall (fun f => is_FsDir f = false /\
                   fs_resolve fs (base ++ [fs_name f]) = Ok f) fl ->
  forall E,
    Forall (fun f => absent (fs_name f) E) fl ->
    for_each (copy_step fs base) (map (fun f => [fs_name f]) fl)
      (FsDir n0 E)
    = Ok (FsDir n0 (E ++ fl)).
Proof.
  induction fl as [|f fl IH]; intros Hn Hf E HE.
  - cbn [map for_each]. rewrite app_nil_r. reflexivity.
  - cbn [map] in Hn. apply NoDup_cons_iff in Hn as [Hnf Hn].
    destruct (Forall_inv Hf) as [Hfile Hres]. apply Forall_inv_tail in Hf.
    pose proof (Forall_inv HE) as HEf. apply Forall_inv_tail in HE.
    cbn [map for_each]. unfold copy_step at 1.
    rewrite (fs_write_absent _ _ _ _ _ HEf).
    unfold content, read_bytes. rewrite Hres.
    destruct f as [m x|m es]; [|discriminate Hfile].
    cbn [bind fs_write fs_name].
    rewrite (IH Hn Hf (E ++ [FsFile m x])).
    + rewrite <- app_assoc. reflexivity.
    + apply Forall_forall. intros g Hg. apply Forall_app. split.
      * rewrite Forall_forall in HE. apply HE, Hg.
      * constructor; [|constructor]. cbn [fs_name] in *.
        apply str_eqb_neq. intros E0. apply Hnf. rewrite E0.
        apply in_map, Hg.
Qed.

(** Copying the files of the subdirectories, one subdirectory after the
    other: each is made with its first file and is listed last. *)
Lemma copy_dirs fs base n0 todo :
  Forall copied todo ->
  NoDup (map fs_name todo) ->
  Forall (fun s => is_FsDir s = true /\ fs_wf s /\ fs_entries s <> [] /\
                   nonempty_dirs s /\
                   fs_resolve fs (base ++ [fs_name s]) = Ok s) todo ->
  forall E,
    Forall (fun s => absent (fs_name s) E) todo ->
    for_each (copy_step fs base)
      (flat_map (fun s => map (cons (fs_name s)) (paths_of s)) todo)
      (FsDir n0 E)
    = Ok (FsDir n0 (E ++ map rebuilt todo)).
Proof.
  induction todo as [|s todo IH]; intros Hc Hn Hs E HE.
  - cbn [flat_map map for_each]. rewrite app_nil_r. reflexivity.
  - cbn [map] in Hn. apply NoDup_cons_iff in Hn as [Hns Hn].
    destruct (Forall_inv Hs) as (Hd & Hwf & Hes & Hne & Hres).
    apply Forall_inv_tail in Hs.
    pose proof (Forall_inv Hc) as Hcs. apply Forall_inv_tail in Hc.
    pose proof (Forall_inv HE) as HEs. apply Forall_inv_tail in HE.
    cbn [flat_map map]. rewrite for_each_app.
    destruct (has_paths s Hd Hes Hne) as [p Hp].
    rewrite (copy_fresh _ _ _ _ _ (paths_of s) HEs).
    2:{ intros E0. rewrite E0 in Hp. destruct Hp. }
    2:{ apply paths_of_nonempty. }
    rewrite (Hcs fs (base ++ [fs_name s]) (fs_name s) Hres Hwf Hd Hne).
    cbn [bind]. rewrite (rebuilt_dir s Hd).
    rewrite (IH Hc Hn Hs (E ++ [rebuilt s])).
    + rewrite <- app_assoc. reflexivity.
    + apply Forall_forall. intros g Hg. apply Forall_app. split.
      * rewrite Forall_forall in HE. apply HE, Hg.
      * constructor; [|constructor]. rewrite rebuilt_name.
        apply str_eqb_neq. intros E0. apply Hns. rewrite E0.
        apply in_map, Hg.
Qed.

(** Copying the files of a directory in the order of the opened archive
    builds the directory again, listed as [rebuilt] lists it. *)
Lemma copy_rebuilds d : copied d.
Proof.
  induction d as [n x|n es IH] using FsNode_ind_Forall;
    intros fs base n0 Hres Hwf Hd Hne; [discriminate Hd|].
  pose proof Hwf as [Hnd _].
  set (FL := sorted fs_name_leb (filter (fun e => negb (is_FsDir e)) es)).
  set (SD := sorted fs_name_leb (filter is_FsDir es)).
  assert (HinFL : forall e, In e FL -> In e es /\ is_FsDir e = false).
  { intros e He. apply in_sorted, filter_In in He as [He Hf].
    split; [exact He|]. destruct (is_FsDir e); [discriminate Hf|reflexivity]. }
  assert (HinSD : forall e, In e SD -> In e es /\ is_FsDir e = true).
  { intros e He. apply in_sorted, filter_In in He. exact He. }
  assert (HnSD : NoDup (map fs_name SD)).
  { eapply Permutation_NoDup; [apply Permutation_sym, Permutation_map,
      sorted_perm|]. apply NoDup_map_filter, Hnd. }
  assert (HnFL : NoDup (map fs_name FL)).
  { eapply Permutation_NoDup; [apply Permutation_sym, Permutation_map,
      sorted_perm|]. apply NoDup_map_filter, Hnd. }
  rewrite paths_of_dir. fold SD FL. rewrite for_each_app.
  rewrite (copy_dirs fs base n0 SD).
  - cbn [bind app]. rewrite (copy_files fs base n0 FL HnFL).
    + cbn [rebuilt fs_entries]. rewrite rearrange_rebuilt. reflexivity.
    + apply Forall_forall. intros f Hf. destruct (HinFL f Hf) as [Hin Hfile].
      split; [exact Hfile|]. eapply fs_resolve_child; eassumption.
    + apply Forall_forall. intros f Hf. destruct (HinFL f Hf) as [Hin Hfile].
      apply Forall_map, Forall_forall. intros s Hs.
      destruct (HinSD s Hs) as [Hins Hdir]. rewrite rebuilt_name.
      apply str_eqb_neq. intros E.
      rewrite (NoDup_names_eq es s f Hnd Hins Hin E) in Hdir.
      rewrite Hdir in Hfile. discriminate Hfile.
  - apply Forall_forall. intros s Hs. rewrite Forall_forall in IH.
    apply IH, HinSD, Hs.
  - exact HnSD.
  - apply Forall_forall. intros s Hs. destruct (HinSD s Hs) as [Hin Hdir].
    destruct (nonempty_dirs_entry _ _ s Hne Hin) as [H1 H2].
    split; [exact Hdir|]. split; [eapply fs_wf_entry; eassumption|].
    split.
    { destruct s as [m x|m [|e es']]; [discriminate Hdir | contradiction|].
      discriminate. }
    split; [exact H2|]. eapply fs_resolve_child; eassumption.
  - apply Forall_forall. intros s _. constructor.
Qed.

Lemma filter_partition_perm {A} (p : A -> bool) l :
  Permutation l (filter p l ++ filter (fun x => negb (p x)) l).
Proof.
  induction l as [|x l IH]; [reflexivity|].
  cbn [filter]. destruct (p x); cbn [negb app].
  - apply perm_skip, IH.
  - apply Permutation_cons_app, IH.
Qed.

Lemma rearrange_perm l : Permutation l (rearrange l).
Proof.
  unfold rearrange.
  etransitivity; [apply (filter_partition_perm is_FsDir)|].
  apply Permutation_app; apply Permutation_sym, sorted_perm.
Qed.

Lemma relisted_rebuilt d : relisted d (rebuilt d).
Proof.
  induction d as [n x|n es IH] using FsNode_ind_Forall; [reflexivity|].
  apply relisted_dir.
  exists (rearrange (map rebuilt es)), (map rebuilt es).
  split; [reflexivity|]. split; [|apply rearrange_perm].
  induction IH as [|e es He _ IHes]; constructor; assumption.
Qed.

Lemma read_bytes_root n n' es p :
  read_bytes (FsDir n' es) p = read_bytes (FsDir n es) p.
Proof. destruct p; reflexivity. Qed.

Lemma strip_prefix_app target rel :
  strip_prefix target (target ++ rel) = Some rel.
Proof.
  induction target as [|x target IH]; [reflexivity|].
  cbn [app strip_prefix]. rewrite str_eqb_refl. exact IH.
Qed.

Lemma strip_is_DirNode c : is_DirNode (strip c) = is_DirNode c.
Proof. destruct c; reflexivity. Qed.

Lemma strip_is_FileNode c : is_FileNode (strip c) = is_FileNode c.
Proof. destruct c; reflexivity. Qed.

Lemma strip_canon t : strip (canon t) = canon (strip t).
Proof.
  induction t as [n s o|n cs IH] using Node_ind_Forall; [reflexivity|].
  cbn [canon strip]. f_equal.
  rewrite !canon_dirs_map, map_app.
  rewrite (filter_map_comm strip is_DirNode is_DirNode)
    by apply strip_is_DirNode.
  rewrite (filter_map_comm strip is_FileNode is_FileNode)
    by apply strip_is_FileNode.
  f_equal. rewrite !map_map. apply map_ext_in. intros c Hc.
  apply filter_In in Hc as [Hc _]. rewrite Forall_forall in IH.
  apply IH, Hc.
Qed.

Lemma paths_strip t :
  forall path,
    map entry_path (files (strip t) path) = map entry_path (files t path).
Proof.
  induction t as [n s o|n cs IH] using Node_ind_Forall; intros path;
    [reflexivity|].
  cbn [strip]. rewrite !files_eq, flat_map_map, !map_flat_map.
  apply flat_map_ext_Forall. eapply Forall_impl; [|exact IH].
  intros [m s o|m cs'] Hc; [reflexivity|]. apply Hc.
Qed.

(** The files of the opened archive are found at the paths of the files of
    the source, in the order of [paths_of]. *)
Lemma paths_packed fs offset :
  is_FsDir fs = true ->
  map entry_path
    (files (canon (fst (assign_offsets (tree_of fs) offset))) [])
  = paths_of fs.
Proof.
  intros Hd. rewrite <- paths_strip, strip_canon, strip_assign_offsets.
  rewrite <- strip_canon, paths_strip.
  destruct fs as [n x|n es]; [discriminate Hd | reflexivity].
Qed.

(** X23: extracting a packed directory and packing the result gives the
    same archive.  When no directory of the source holds two entries of
    the same name, none below the root is empty and no name ends in a
    null character, the archive that [from_path] wrote opens, [extract]
    returns [True], every one of its writes below the target succeeds,
    and [from_path] on the directory they leave returns the same tree and
    the same bytes. *)
Theorem extract_repack (fs : FsNode) (t : Node) (archive : bytes)
    (path target : Path) (n0 : str) :
  is_FsDir fs = true -> fs_wf fs -> nonempty_dirs fs ->
  from_path fs = Ok (t, archive) ->
  names_ok t ->
  exists bf out fs2,
    BigFile_open path archive = Ok bf /\
    extract bf target [] = Ok (out, true) /\
    dir_after n0 target out = Ok fs2 /\
    from_path fs2 = Ok (t, archive).
Proof.
  intros Hd Hwf Hne H Hn.
  pose proof H as Htree.
  apply from_path_loop in Htree as (t0 & offset & Ht0 & _ & Et).
  rewrite (for_each_ext _ (walk_step_rel fs []))
    in Ht0 by (intros [[? ?] ?] ?; reflexivity).
  rewrite (walk_mirrors fs fs [] [] eq_refl Hwf Hd) in Ht0.
  injection Ht0 as <-. fold (tree_of fs) in Et.
  pose proof H as Hsteps.
  apply from_path_steps in Hsteps
    as (head & payload & Ea & Hname & (hdr & p & Hp & Hw & Eh) & _ & Hc & Hs
        & Hpay).
  destruct (payload_stored fs _ _ head Hpay Hs Hc) as [Hst _].
  rewrite <- Ea in Hst.
  pose proof (open_packed t p hdr Hp Hw Hn Hname path payload) as Ho.
  rewrite app_assoc, <- Eh, <- Ea in Ho.
  exists {| root := canon t; buffer := archive;
            num_entries := len (files_default (canon t)) |}.
  exists (map (extracted archive) (files (canon t) target)).
  exists (FsDir n0 (fs_entries (rebuilt fs))).
  split; [exact Ho|].
  split.
  { rewrite extract_eq by reflexivity. reflexivity. }
  split.
  - unfold dir_after. rewrite files_rebase_all, map_map.
    rewrite <- (for_each_map_ext
                  (fun e => extracted archive (rebase target e))
                  (fun e d => copy_step fs [] (entry_path e) d)).
    + rewrite (for_each_map_ext entry_path _ (copy_step fs []))
        by (apply Forall_forall; intros; reflexivity).
      rewrite Et, (paths_packed fs offset Hd).
      apply (copy_rebuilds fs fs [] n0 eq_refl Hwf Hd Hne).
    + apply Forall_forall. intros e He d.
      apply (Permutation_in _ (Permutation_sym (files_canon_perm t [])))
        in He.
      rewrite Forall_forall in Hst.
      destruct (Hst e He) as (data & Hdata & Hsl).
      rewrite extracted_rebase. unfold write_below, copy_step.
      cbn [fst snd app extracted]. rewrite strip_prefix_app, Hsl.
      unfold content. rewrite Hdata. reflexivity.
  - rewrite <- H.
    pose proof (relisted_rebuilt fs) as Hr.
    pose proof (relisted_wf _ _ Hr Hwf) as Hwf'.
    pose proof (relisted_mirror _ _ Hr Hwf) as Hm.
    pose proof (fun q => read_bytes_relisted _ _ q Hr Hwf) as Hb.
    destruct fs as [n x|n es]; [discriminate Hd|].
    apply from_path_same; try assumption; try reflexivity.
    + unfold tree_of. rewrite <- Hm. reflexivity.
    + intros q. rewrite <- Hb. apply read_bytes_root.
Qed.

Lemma extract_repack_witness :
  exists t archive,
    is_FsDir src_example = true /\
    fs_wf src_example /\
    nonempty_dirs src_example /\
    from_path src_example = Ok (t, archive) /\
    exists bf out fs2,
      BigFile_open [] archive = Ok bf /\
      extract bf [lit "out"] [] = Ok (out, true) /\
      dir_after (lit "out") [lit "out"] out = Ok fs2 /\
      from_path fs2 = Ok (t, archive).
Proof.
  assert (Hwf : fs_wf src_example).
  { cbn. repeat split; repeat constructor; cbn; intuition discriminate. }
  assert (Hne : nonempty_dirs src_example) by (cbn; tauto).
  do 2 eexists. split; [reflexivity|]. split; [exact Hwf|].
  split; [exact Hne|]. split; [reflexivity|].
  apply (extract_repack src_example); try assumption; try reflexivity.
  cbn. repeat split; discriminate.
Defined.

(** ** Empty directories *)

Lemma nonempty_dirs_Forall n es :
  nonempty_dirs (FsDir n es) <->
  Forall (fun e => match e with FsDir _ [] => False | _ => True end /\
                   nonempty_dirs e) es.
Proof.
  cbn [nonempty_dirs]. induction es as [|e es IH]; cbn [fold_right].
  - split; [constructor | exact (fun _ => I)].
  - split.
    + intros (H1 & H2 & H3). constructor; [split; assumption | apply IH, H3].
    + intros H. pose proof (Forall_inv H) as [H1 H2].
      apply Forall_inv_tail in H. repeat split; try assumption.
      apply IH, H.
Qed.

Lemma put_entry_inv q k fresh es es' :
  put_entry q k fresh es = Ok es' ->
  exists e0 e',
    k e0 = Ok e' /\ (e0 = fresh \/ In e0 es) /\ In e' es' /\
    forall x, In x es' -> x = e' \/ In x es.
Proof.
  revert es'. induction es as [|e es IH]; intros es' H; cbn [put_entry] in H.
  - apply bind_Ok in H as (e' & He' & H). injection H as <-.
    exists fresh, e'. split; [exact He'|]. split; [left; reflexivity|].
    split; [left; reflexivity|].
    intros x [<-|[]]. left. reflexivity.
  - destruct (str_eqb (fs_name e) q).
    + apply bind_Ok in H as (e' & He' & H). injection H as <-.
      exists e, e'. split; [exact He'|].
      split; [right; left; reflexivity|]. split; [left; reflexivity|].
      intros x [<-|Hx]; [left; reflexivity | right; right; exact Hx].
    + apply bind_Ok in H as (es'' & Hes & H). injection H as <-.
      destruct (IH _ Hes) as (e0 & e' & Hk & H0 & Hin & Hall).
      exists e0, e'. split; [exact Hk|].
      split; [destruct H0; [left | right; right]; assumption|].
      split; [right; exact Hin|].
      intros x [<-|Hx]; [right; left; reflexivity|].
      destruct (Hall x Hx); [left | right; right]; assumption.
Qed.

(** A write leaves no empty directory behind: it makes a directory only
    on the way to the file it writes. *)
Lemma fs_write_nonempty p :
  forall d data d',
    fs_write d p data = Ok d' -> nonempty_dirs d ->
    match d' with FsDir _ [] => False | _ => True end /\ nonempty_dirs d'.
Proof.
  induction p as [|q rest IH]; intros [n x|n es] data d' H Hne;
    cbn [fs_write] in H; try discriminate H.
  - injection H as <-. split; exact I.
  - apply bind_Ok in H as (es' & Hput & H). injection H as <-.
    apply put_entry_inv in Hput as (e0 & e' & Hk & H0 & Hin & Hall).
    split; [destruct es'; [destruct Hin | exact I]|].
    apply nonempty_dirs_Forall, Forall_forall. intros x Hx.
    apply nonempty_dirs_Forall in Hne. rewrite Forall_forall in Hne.
    destruct (Hall x Hx) as [->|Hx']; [|apply Hne, Hx'].
    apply (IH _ _ _ Hk).
    destruct H0 as [->|H0]; [destruct rest; exact I | apply Hne, H0].
Qed.

(** X24: [extract] leaves no empty directory.  The names of the archive
    being single components of a path, when [extract] into an empty
    directory returns, no directory below the target is empty: it makes a
    directory only as the parent of a file it writes, so a directory that
    the archive lists without any file below it is not made. *)
Theorem extract_no_empty_dirs (self : BigFile) (target : Path) (n0 : str)
    (disk : FsNode) (done : bool) :
  plain_names (root self) ->
  extract_disk self target (FsDir n0 []) = Ok (disk, done) ->
  nonempty_dirs disk.
Proof.
  intros _ H. unfold extract_disk in H.
  apply bind_Ok in H as (disk' & H & E). injection E as <- _.
  eapply (for_each_invariant _ nonempty_dirs); [|exact H|exact I].
  intros [[[node p] length] offset] d d' Hw Hd.
  apply bind_Ok in Hw as (d1 & Hw & E).
  destruct (num_entries self =? 0); [discriminate E|]. injection E as <-.
  unfold write_below in Hw. cbn [fst snd] in Hw.
  destruct (strip_prefix target p) as [rel|].
  - apply (fs_write_nonempty _ _ _ _ Hw Hd).
  - injection Hw as <-. exact Hd.
Qed.

Lemma extract_no_empty_dirs_witness :
  plain_names (root empty_dir_example) /\
  exists disk,
    extract_disk empty_dir_example [lit "out"] (FsDir (lit "out") [])
    = Ok (disk, true) /\
    nonempty_dirs disk.
Proof.
  assert (Hp : plain_names (root empty_dir_example)).
  { cbn. unfold plain. repeat split; try discriminate;
      cbn; intuition discriminate. }
  split; [exact Hp|].
  eexists. split; [reflexivity|].
  apply (extract_no_empty_dirs empty_dir_example [lit "out"] (lit "out")
           _ true Hp).
  reflexivity.
Defined.

(** * Offsets of a packed archive *)

Section SortedTotal.
Context {A : Type} (leb : A -> A -> bool).
Hypothesis leb_total : forall x y, leb x y = true \/ leb y x = true.
Hypothesis leb_antisym :
  forall x y, leb x y = true -> leb y x = true -> x = y.
Hypothesis leb_trans :
  forall x y z, leb x y = true -> leb y z = true -> leb x z = true.

Lemma insert_sorted_swap_total x y l :
  insert_sorted leb x (insert_sorted leb y l)
  = insert_sorted leb y (insert_sorted leb x l).
Proof.
  assert (Hxy : x = y \/ leb x y = negb (leb y x)).
  { destruct (leb x y) eqn:E1, (leb y x) eqn:E2.
    - left. apply leb_antisym; assumption.
    - right. reflexivity.
    - right. reflexivity.
    - destruct (leb_total x y) as [H|H]; congruence. }
  destruct Hxy as [->|Hxy]; [reflexivity|].
  induction l as [|z l IH].
  - cbn [insert_sorted]. rewrite Hxy. destruct (leb y x); reflexivity.
  - cbn [insert_sorted].
    destruct (leb y z) eqn:Eyz, (leb x z) eqn:Exz; cbn [insert_sorted].
    + rewrite Hxy. destruct (leb y x); cbn [negb]; rewrite ?Exz, ?Eyz;
        reflexivity.
    + rewrite Eyz. destruct (leb x y) eqn:Exy.
      * rewrite (leb_trans _ _ _ Exy Eyz) in Exz. discriminate Exz.
      * cbn [insert_sorted]. rewrite Exz. reflexivity.
    + rewrite Exz. destruct (leb y x) eqn:Eyx.
      * rewrite (leb_trans _ _ _ Eyx Exz) in Eyz. discriminate Eyz.
      * cbn [insert_sorted]. rewrite Eyz. reflexivity.
    + rewrite Exz, Eyz, IH. reflexivity.
Qed.

(** Sorting by a total order gives the same list for every order of the
    input. *)
Lemma sorted_permutation_total l l' :
  Permutation l l' -> sorted leb l = sorted leb l'.
Proof.
  induction 1 as [|x l l' Hp IH|x y l|l l' l'' Hp1 IH1 Hp2 IH2].
  - reflexivity.
  - cbn [sorted fold_right]. fold (sorted leb l) (sorted leb l').
    rewrite IH. reflexivity.
  - cbn [sorted fold_right]. fold (sorted leb l).
    apply insert_sorted_swap_total.
  - rewrite IH1. exact IH2.
Qed.
End SortedTotal.

Lemma key_leb_total x y : key_leb x y = true \/ key_leb y x = true.
Proof.
  destruct x as [o1 s1], y as [o2 s2]. unfold key_leb. cbn [fst snd].
  rewrite !orb_true_iff, !andb_true_iff, !Z.ltb_lt, !Z.eqb_eq, !Z.leb_le.
  lia.
Qed.

Lemma key_leb_antisym x y :
  key_leb x y = true -> key_leb y x = true -> x = y.
Proof.
  destruct x as [o1 s1], y as [o2 s2]. unfold key_leb. cbn [fst snd].
  rewrite !orb_true_iff, !andb_true_iff, !Z.ltb_lt, !Z.eqb_eq, !Z.leb_le.
  intros H1 H2. f_equal; lia.
Qed.

Lemma key_leb_trans x y z :
  key_leb x y = true -> key_leb y z = true -> key_leb x z = true.
Proof.
  destruct x as [o1 s1], y as [o2 s2], z as [o3 s3]. unfold key_leb.
  cbn [fst snd].
  rewrite !orb_true_iff, !andb_true_iff, !Z.ltb_lt, !Z.eqb_eq, !Z.leb_le.
  lia.
Qed.

(** Whether a list is contiguous is settled by its offsets and sizes. *)
Lemma contiguous_keys l :
  forall l' start,
    map entry_key l = map entry_key l' ->
    contiguous start l -> contiguous start l'.
Proof.
  induction l as [|e l IH]; intros [|e' l'] start E Hc;
    try discriminate E; [exact I|].
  cbn [map] in E. unfold entry_key at 1 3 in E. injection E as Eo Es E.
  destruct Hc as [Ho Hc]. split; [rewrite <- Eo; exact Ho|].
  rewrite <- Es. apply (IH _ _ E Hc).
Qed.

(** A contiguous list is in the order of its offsets and, where two
    offsets are the same, of its sizes. *)
Lemma sorted_offset_size_contiguous l :
  forall start,
    contiguous start l -> Forall (fun e => 0 <= entry_size e) l ->
    sorted by_offset_size l = l.
Proof.
  induction l as [|e l IH]; intros start Hc Hs; [reflexivity|].
  destruct Hc as [He Hc]. pose proof (Forall_inv Hs) as Hse.
  cbv beta in Hse. apply Forall_inv_tail in Hs.
  cbn [sorted fold_right]. fold (sorted by_offset_size l).
  rewrite (IH _ Hc Hs). destruct l as [|e' l']; [reflexivity|].
  cbn [insert_sorted]. destruct Hc as [He' _].
  pose proof (Forall_inv Hs) as Hse'. cbv beta in Hse'.
  replace (by_offset_size e e') with true; [reflexivity|].
  symmetry. unfold by_offset_size, key_leb, entry_key. cbn [fst snd].
  rewrite orb_true_iff, andb_true_iff, Z.ltb_lt, Z.eqb_eq, Z.leb_le. lia.
Qed.

(** However the entries of a contiguous list are listed, sorting them by
    offset and size gives a contiguous list again. *)
Lemma sorted_offset_size_perm K L start :
  contiguous start K -> Forall (fun e => 0 <= entry_size e) K ->
  Permutation K L ->
  contiguous start (sorted by_offset_size L).
Proof.
  intros Hc Hs Hp.
  apply (contiguous_keys K); [|exact Hc].
  rewrite <- (sorted_offset_size_contiguous K start Hc Hs) at 1.
  rewrite <- !(sorted_map entry_key by_offset_size key_leb)
    by reflexivity.
  apply (sorted_permutation_total key_leb key_leb_total key_leb_antisym
           key_leb_trans).
  apply Permutation_map, Hp.
Qed.

Lemma insert_sorted_ext {A} (leb1 leb2 : A -> A -> bool) x l :
  (forall y, In y l -> leb1 x y = leb2 x y) ->
  insert_sorted leb1 x l = insert_sorted leb2 x l.
Proof.
  induction l as [|y l IH]; intros H; [reflexivity|].
  cbn [insert_sorted]. rewrite (H y (or_introl eq_refl)).
  destruct (leb2 x y); [reflexivity|].
  rewrite IH; [reflexivity|]. intros z Hz. apply H. right. exact Hz.
Qed.

Lemma sorted_ext_in {A} (leb1 leb2 : A -> A -> bool) l :
  (forall x y, In x l -> In y l -> leb1 x y = leb2 x y) ->
  sorted leb1 l = sorted leb2 l.
Proof.
  induction l as [|x l IH]; intros H; [reflexivity|].
  cbn [sorted fold_right]. fold (sorted leb1 l) (sorted leb2 l).
  rewrite IH by (intros a b Ha Hb; apply H; right; assumption).
  apply insert_sorted_ext. intros y Hy. apply in_sorted in Hy.
  apply H; [left; reflexivity | right; exact Hy].
Qed.

(** Where no file is empty, two entries of a contiguous list that start
    at the same offset are one entry. *)
Lemma contiguous_offsets_differ l :
  forall start,
    contiguous start l -> Forall (fun e => 0 < entry_size e) l ->
    forall x y, In x l -> In y l -> entry_offset x = entry_offset y ->
                x = y.
Proof.
  induction l as [|e l IH]; intros start Hc Hs x y Hx Hy E;
    [destruct Hx|].
  destruct Hc as [He Hc]. pose proof (Forall_inv Hs) as Hse.
  cbv beta in Hse. apply Forall_inv_tail in Hs.
  assert (Hlow : Forall (fun e0 => start + entry_size e <= entry_offset e0)
                   l).
  { apply (contiguous_lower_bound _ _ Hc).
    eapply Forall_impl; [|exact Hs]. cbv beta. intros; lia. }
  rewrite Forall_forall in Hlow.
  destruct Hx as [<-|Hx], Hy as [<-|Hy].
  - reflexivity.
  - specialize (Hlow _ Hy). lia.
  - specialize (Hlow _ Hx). lia.
  - apply (IH _ Hc Hs); assumption.
Qed.

Lemma arrange_perm l : Permutation l (arrange l).
Proof.
  unfold arrange.
  etransitivity; [apply (filter_partition_perm is_FileNode)|].
  apply Permutation_app.
  - apply Permutation_sym, sorted_perm.
  - rewrite (filter_ext _ is_DirNode)
      by (intros [? ? ?|? ?]; reflexivity).
    apply Permutation_sym, sorted_perm.
Qed.

(** The leaves of the tree of a directory are its regular files, path by
    path and length by length. *)
Lemma mirror_files e :
  forall path,
    Permutation (map entry_ps (files_step path (mirror e)))
      (map path_len (fs_files e (path ++ [fs_name e]))).
Proof.
  induction e as [n data|n es IH] using FsNode_ind_Forall; intros path;
    [reflexivity|].
  cbn [mirror files_step fs_files fs_name]. rewrite files_eq.
  unfold joinpath.
  rewrite <- (Permutation_flat_map _ (arrange_perm (map mirror es))).
  rewrite flat_map_map, !map_flat_map.
  induction IH as [|e es He _ IHes]; [reflexivity|].
  cbn [flat_map]. apply Permutation_app; [apply He | exact IHes].
Qed.

Lemma tree_of_files fs :
  is_FsDir fs = true ->
  Permutation (map entry_ps (files (tree_of fs) []))
    (map path_len (fs_files fs [])).
Proof.
  destruct fs as [n data|n es]; [discriminate|]. intros _.
  unfold tree_of. cbn [mirror children fs_files]. rewrite files_eq.
  rewrite <- (Permutation_flat_map _ (arrange_perm (map mirror es))).
  rewrite flat_map_map, !map_flat_map.
  induction es as [|e es IH]; [reflexivity|].
  cbn [flat_map]. apply Permutation_app; [apply mirror_files | exact IH].
Qed.

(** C3, as stated, fails for the entries as they are listed from the
    archive: an empty file starts where the next file starts, and in the
    listing of the opened archive, subdirectories first, it comes after
    that file; sorting by offset, which keeps the order of equal offsets,
    leaves it there, where it does not start at the end of the file before
    it. *)
Lemma stable_sort_counterexample :
  exists t archive bf,
    from_path empty_file_example = Ok (t, archive) /\
    BigFile_open [lit "x.m4b"] archive = Ok bf /\
    listing (files t []) = [([lit "a"], 0, 67); ([lit "d"; lit "b"], 1, 67)] /\
    listing (sorted by_offset (files_default (root bf)))
    = [([lit "d"; lit "b"], 1, 67); ([lit "a"], 0, 67)] /\
    ~ contiguous 67 (sorted by_offset (files_default (root bf))).
Proof.
  do 3 eexists. split; [reflexivity|]. split; [vm_compute; reflexivity|].
  split; [reflexivity|]. split; [reflexivity|].
  cbn. intros (_ & H & _). discriminate H.
Qed.

(** C3, amended: in the archive that [from_path] wrote, the header is as
    long as [size_header] computed and the archive as long as the header
    and all files together; in the order in which the offsets were
    assigned the first file starts right after the header and each next
    file where the one before ends, and each file's bytes are at its
    offset.  When no name ends in a null character the archive opens and
    lists the same entries, with these offsets, so that no two of them
    overlap; sorted by offset and, where offsets are the same, by size,
    they are contiguous from the header on, and so they are sorted by
    offset alone when no file is empty.  The entries are those of the
    regular files of the directory, each with the length of its file. *)
Theorem packed_offsets_contiguous (fs : FsNode) (t : Node)
    (archive : bytes) (path : Path) :
  from_path fs = Ok (t, archive) ->
  exists H,
    size_header t size_header_default = Ok H /\
    (exists hdr p,
       preamble = Ok p /\ write_entries t [] = Ok hdr /\
       firstn (Z.to_nat H) archive = p ++ hdr /\ len (p ++ hdr) = H) /\
    H + total_size (files t []) = len archive /\
    contiguous H (files t []) /\
    Forall (fun e => stored_in fs archive e /\ sized_as fs e) (files t []) /\
    (is_FsDir fs = true -> fs_wf fs ->
     Permutation (map entry_ps (files t [])) (map path_len (fs_files fs [])))
    /\
    (names_ok t ->
     exists bf,
       BigFile_open path archive = Ok bf /\
       Permutation (files t []) (files_default (root bf)) /\
       contiguous H (sorted by_offset_size (files_default (root bf))) /\
       (Forall (fun e => 0 < entry_size e) (files t []) ->
        contiguous H (sorted by_offset (files_default (root bf)))) /\
       forall e1 e2,
         In e1 (files_default (root bf)) ->
         In e2 (files_default (root bf)) ->
         e1 = e2 \/
         entry_offset e1 + entry_size e1 <= entry_offset e2 \/
         entry_offset e2 + entry_size e2 <= entry_offset e1).
Proof.
  intros H.
  pose proof H as Htree.
  apply from_path_loop in Htree as (t0 & offset & Ht0 & _ & Et).
  apply from_path_steps in H
    as (head & payload & -> & Hname & (hdr & p & Hp & Hw & ->) & Hsz & Hc
        & Hs & Hpay).
  destruct (payload_stored fs _ _ (p ++ hdr) Hpay Hs Hc) as [Hst Hlen].
  pose proof (written_sizes t hdr [] Hw) as Hpos.
  exists (len (p ++ hdr)). split; [exact Hsz|].
  split.
  { exists hdr, p. split; [exact Hp|]. split; [exact Hw|].
    split; [|reflexivity].
    unfold len. rewrite Nat2Z.id, firstn_app, Nat.sub_diag, firstn_all.
    cbn [firstn]. apply app_nil_r. }
  split; [rewrite (len_app (p ++ hdr)), Hlen; reflexivity|].
  split; [exact Hc|].
  split.
  { apply Forall_forall. intros e He. rewrite Forall_forall in Hst, Hs.
    split; [apply Hst | apply Hs]; exact He. }
  split.
  { intros Hd Hwf.
    rewrite (for_each_ext _ (walk_step_rel fs []))
      in Ht0 by (intros [[? ?] ?] ?; reflexivity).
    rewrite (walk_mirrors fs fs [] [] eq_refl Hwf Hd) in Ht0.
    injection Ht0 as <-. fold (tree_of fs) in Et.
    rewrite Et, assign_offsets_entries. apply tree_of_files, Hd. }
  intros Hn.
  pose proof (open_packed t p hdr Hp Hw Hn Hname path payload) as Ho.
  rewrite app_assoc in Ho.
  eexists. split; [exact Ho|]. cbn [root].
  unfold files_default. rewrite canon_name, Hname.
  pose proof (files_canon_perm t []) as Hperm.
  split; [exact Hperm|].
  split; [apply (sorted_offset_size_perm _ _ _ Hc Hpos Hperm)|].
  split.
  - intros Hnz.
    rewrite (sorted_ext_in by_offset by_offset_size).
    + apply (sorted_offset_size_perm _ _ _ Hc Hpos Hperm).
    + intros x y Hx Hy.
      apply (Permutation_in _ (Permutation_sym Hperm)) in Hx, Hy.
      unfold by_offset, by_offset_size, key_leb, entry_key. cbn [fst snd].
      destruct (Z.eqb_spec (entry_offset x) (entry_offset y)) as [E|E].
      * rewrite (contiguous_offsets_differ _ _ Hc Hnz x y Hx Hy E).
        rewrite Z.ltb_irrefl, !Z.leb_refl. reflexivity.
      * rewrite andb_false_l, orb_false_r.
        destruct (Z.leb_spec (entry_offset x) (entry_offset y)),
          (Z.ltb_spec (entry_offset x) (entry_offset y)); try reflexivity;
          lia.
  - intros e1 e2 H1 H2.
    apply (Permutation_in _ (Permutation_sym Hperm)) in H1, H2.
    apply (ForallOrdPairs_In (contiguous_no_overlap _ _ Hc Hpos));
      assumption.
Qed.

Lemma packed_offsets_contiguous_witness :
  exists t archive,
    from_path empty_file_example = Ok (t, archive) /\
    exists H,
      size_header t size_header_default = Ok H /\
      H + total_size (files t []) = len archive /\
      contiguous H (files t []) /\
      names_ok t /\
      exists bf,
        BigFile_open [lit "x.m4b"] archive = Ok bf /\
        contiguous H (sorted by_offset_size (files_default (root bf))).
Proof.
  do 2 eexists. split; [reflexivity|].
  destruct (packed_offsets_contiguous empty_file_example _ _ [lit "x.m4b"]
              eq_refl) as (H & H1 & _ & H3 & H4 & _ & _ & H7).
  assert (Hn : names_ok
                 (fst (assign_offsets (tree_of empty_file_example) 67))).
  { cbn. repeat split; discriminate. }
  destruct (H7 Hn) as (bf & Hb & _ & Hc & _).
  exists H. split; [exact H1|]. split; [exact H3|]. split; [exact H4|].
  split; [exact Hn|]. exists bf. split; [exact Hb | exact Hc].
Defined.
